(** * Audio Track Selector: the Electron main process

    A shallow embedding of [main/src/main.ts] (probe and extraction
    coordinators, session temp directory, IPC handlers) and of the parts of
    the renderer's track registry that consume its results
    ([handleEnableTrack] and the extract-progress listener of [App.tsx]).

    Conventions.
    - Text is [string]: the UTF-8 encoding of a JavaScript string, one
      8-bit character per byte.  The separators the program splits at and
      the literals it compares with are ASCII, so they are found at the
      same places as in the UTF-16 text.  A [data] chunk of a child's
      stdout or stderr is a [Buffer] of bytes; [toString] decodes it.
    - A JavaScript number is a [num]: NaN, the two infinities, or an exact
      rational.  [Number(text)] overflows to an infinity and underflows to
      0 where binary64 does; rounding within the range, the overflow of
      the arithmetic operations and the sign of zero are not represented.
    - Built-ins whose result comes from outside the program ([JSON.parse],
      [path.join], the answers of [fs.mkdtemp] and [fs.rm], the file
      dialog) are inputs.
    - An event is one turn of the event loop: a callback together with the
      continuations that run before the loop takes the next callback.  A
      function that awaits a call of [fs] stops there; it goes on in the
      turn in which that call settles. *)

From Stdlib Require Import List String Ascii Bool Arith ZArith NArith QArith
  Qminmax Lia DecimalString.
From Stdlib Require Import Strings.Byte.
From Stdlib Require DecimalNat DecimalFacts Qabs.
Import ListNotations.

Close Scope Q_scope.
Open Scope string_scope.
Set Warnings "-register-all".

(* ================================================================== *)
(** ** JavaScript values and the built-ins the program calls *)
(* ================================================================== *)

Module JS.

Definition LF : ascii := "010"%char.
Definition CR : ascii := "013"%char.

(** *** Numbers *)

Inductive num : Type :=
| NaN
| NegInf
| PosInf
| Fin (q : Q).

Definition fin (q : Q) : num := Fin (Qred q).

Definition Qsgn (q : Q) : Z := Z.sgn (Qnum q).

Definition is_zero (q : Q) : bool := (Qnum q =? 0)%Z.

(** [a * b] *)
Definition mul (a b : num) : num :=
  match a, b with
  | NaN, _ | _, NaN => NaN
  | Fin x, Fin y => fin (x * y)
  | Fin x, PosInf | PosInf, Fin x =>
      if is_zero x then NaN else if (0 <? Qsgn x)%Z then PosInf else NegInf
  | Fin x, NegInf | NegInf, Fin x =>
      if is_zero x then NaN else if (0 <? Qsgn x)%Z then NegInf else PosInf
  | PosInf, PosInf | NegInf, NegInf => PosInf
  | PosInf, NegInf | NegInf, PosInf => NegInf
  end.

(** [a / b]; a zero divisor is taken as +0. *)
Definition div (a b : num) : num :=
  match a, b with
  | NaN, _ | _, NaN => NaN
  | Fin x, Fin y =>
      if is_zero y then
        if is_zero x then NaN else if (0 <? Qsgn x)%Z then PosInf else NegInf
      else fin (x / y)
  | Fin _, (PosInf | NegInf) => Fin 0
  | PosInf, Fin y => if (Qsgn y <? 0)%Z then NegInf else PosInf
  | NegInf, Fin y => if (Qsgn y <? 0)%Z then PosInf else NegInf
  | (PosInf | NegInf), (PosInf | NegInf) => NaN
  end.

(** [Math.min(a, b)] *)
Definition Math_min (a b : num) : num :=
  match a, b with
  | NaN, _ | _, NaN => NaN
  | NegInf, _ | _, NegInf => NegInf
  | PosInf, x | x, PosInf => x
  | Fin x, Fin y => if Qle_bool x y then Fin x else Fin y
  end.

(** [a <= b] as JavaScript compares numbers: false as soon as one is NaN. *)
Definition le (a b : num) : Prop :=
  match a, b with
  | NaN, _ | _, NaN => False
  | NegInf, _ | _, PosInf => True
  | _, NegInf | PosInf, _ => False
  | Fin x, Fin y => (x <= y)%Q
  end.

Definition of_Z (z : Z) : num := Fin (inject_Z z).

(** A number in a boolean position: 0 and NaN are falsy. *)
Definition truthy_num (n : num) : bool :=
  match n with
  | NaN => false
  | Fin q => negb (is_zero q)
  | _ => true
  end.

(** *** Text *)

Definition truthy_str (s : string) : bool :=
  match s with "" => false | _ => true end.

(** White space and line terminators.  Those of one byte: TAB, LF, VT, FF,
    CR and the space. *)
Definition is_space (c : ascii) : bool :=
  let n := nat_of_ascii c in
  ((9 <=? n)%nat && (n <=? 13)%nat) || (n =? 32)%nat.

(** Of two bytes: U+00A0. *)
Definition is_space2 (a b : ascii) : bool :=
  (nat_of_ascii a =? 194)%nat && (nat_of_ascii b =? 160)%nat.

(** Of three bytes: U+1680, U+2000 to U+200A, U+2028, U+2029, U+202F,
    U+205F, U+3000 and U+FEFF. *)
Definition is_space3 (a b c : ascii) : bool :=
  let x := nat_of_ascii a in
  let y := nat_of_ascii b in
  let z := nat_of_ascii c in
  ((x =? 225) && (y =? 154) && (z =? 128))%nat
  || ((x =? 226) && (y =? 128)
      && (((128 <=? z) && (z <=? 138)) || (z =? 168) || (z =? 169)
          || (z =? 175)))%nat
  || ((x =? 226) && (y =? 129) && (z =? 159))%nat
  || ((x =? 227) && (y =? 128) && (z =? 128))%nat
  || ((x =? 239) && (y =? 187) && (z =? 191))%nat.

(** The text without the white space at its head; [sp2] and [sp3] say
    which two and three bytes are white space. *)
Fixpoint skip_spaces (sp2 : ascii -> ascii -> bool)
    (sp3 : ascii -> ascii -> ascii -> bool) (s : string) : string :=
  match s with
  | "" => ""
  | String a r1 =>
      if is_space a then skip_spaces sp2 sp3 r1
      else
        match r1 with
        | String b r2 =>
            if sp2 a b then skip_spaces sp2 sp3 r2
            else
              match r2 with
              | String c r3 =>
                  if sp3 a b c then skip_spaces sp2 sp3 r3 else s
              | "" => s
              end
        | "" => s
        end
  end.

Fixpoint rev_onto (s acc : string) : string :=
  match s with
  | "" => acc
  | String c rest => rev_onto rest (String c acc)
  end.

Definition reverse (s : string) : string := rev_onto s "".

Definition trimStart (s : string) : string :=
  skip_spaces is_space2 is_space3 s.

(** From the end, the bytes of a white space are met last byte first. *)
Definition trimEnd (s : string) : string :=
  reverse
    (skip_spaces (fun a b => is_space2 b a) (fun a b c => is_space3 c b a)
       (reverse s)).

(** [s.trim()] *)
Definition trim (s : string) : string := trimEnd (trimStart s).

Definition push_front (c : ascii) (ps : list string) : list string :=
  match ps with
  | p :: ps' => String c p :: ps'
  | [] => [String c ""]
  end.

(** [s.split(sep)] for a one-character separator. *)
Fixpoint split_char (sep : ascii) (s : string) : list string :=
  match s with
  | "" => [""]
  | String c rest =>
      if Ascii.eqb c sep then "" :: split_char sep rest
      else push_front c (split_char sep rest)
  end.

(** [s.split(/\r?\n/)]: scanning from the left, a separator is a line feed
    or a carriage return immediately followed by one. *)
Fixpoint split_newline (s : string) : list string :=
  match s with
  | "" => [""]
  | String c rest =>
      if Ascii.eqb c LF then "" :: split_newline rest
      else
        match rest with
        | String c' rest' =>
            if Ascii.eqb c CR && Ascii.eqb c' LF
            then "" :: split_newline rest'
            else push_front c (split_newline rest)
        | "" => [String c ""]
        end
  end.

(** Template-literal text of an integer. *)
Definition string_of_nat (n : nat) : string :=
  NilZero.string_of_uint (Nat.to_uint n).

Definition string_of_Z (z : Z) : string :=
  NilZero.string_of_int (Z.to_int z).

(** *** [data.toString()]: a Buffer decoded as UTF-8 *)

Definition Buffer : Type := list byte.

(** [Buffer.from(text)] *)
Definition Buffer_from (text : string) : Buffer := list_byte_of_string text.

(** U+FFFD, which stands for what cannot be decoded. *)
Definition REPLACEMENT : string :=
  String "239" (String "191" (String "189" "")).

(** The decoder between two bytes: at rest, or inside a character of which
    the bytes [seen] have been read and [needed] more are to come, the
    next one between [lower] and [upper]. *)
Inductive Decoder : Type :=
| Rest
| Inside (seen : string) (needed : nat) (lower upper : N).

Definition text_of_byte (b : byte) : string := String (ascii_of_byte b) "".

(** A byte met at rest: an ASCII character, the first byte of a longer
    one, or a byte no character starts with. *)
Definition lead (b : byte) : string * Decoder :=
  let n := Byte.to_N b in
  if (n <=? 127)%N then (text_of_byte b, Rest)
  else if ((194 <=? n) && (n <=? 223))%N then
    ("", Inside (text_of_byte b) 1 128 191)
  else if ((224 <=? n) && (n <=? 239))%N then
    ("", Inside (text_of_byte b) 2
           (if (n =? 224)%N then 160 else 128)
           (if (n =? 237)%N then 159 else 191))
  else if ((240 <=? n) && (n <=? 244))%N then
    ("", Inside (text_of_byte b) 3
           (if (n =? 240)%N then 144 else 128)
           (if (n =? 244)%N then 143 else 191))
  else (REPLACEMENT, Rest).

(** One byte: the text it completes and the decoder after it.  A byte that
    cannot continue the character begun turns what was read of it into
    one U+FFFD and is then met as at rest. *)
Definition next (d : Decoder) (b : byte) : string * Decoder :=
  match d with
  | Rest => lead b
  | Inside seen needed lower upper =>
      let n := Byte.to_N b in
      if ((lower <=? n) && (n <=? upper))%N then
        match needed with
        | S (S k) => ("", Inside (seen ++ text_of_byte b) (S k) 128 191)
        | _ => (seen ++ text_of_byte b, Rest)
        end
      else
        let '(text, d') := lead b in (REPLACEMENT ++ text, d')
  end.

(** The end of the buffer inside a character gives one U+FFFD. *)
Definition flush (d : Decoder) : string :=
  match d with
  | Rest => ""
  | Inside _ _ _ _ => REPLACEMENT
  end.

Fixpoint decode (d : Decoder) (data : Buffer) : string :=
  match data with
  | [] => flush d
  | b :: rest => let '(text, d') := next d b in text ++ decode d' rest
  end.

(** [data.toString()]: every chunk is decoded from rest. *)
Definition toString (data : Buffer) : string := decode Rest data.

(** The decoder after [data]. *)
Fixpoint decoder_after (d : Decoder) (data : Buffer) : Decoder :=
  match data with
  | [] => d
  | b :: rest => decoder_after (snd (next d b)) rest
  end.

Definition at_rest (d : Decoder) : bool :=
  match d with Rest => true | Inside _ _ _ _ => false end.

(** *** [Number(text)]: StringToNumber *)

Definition is_digit (c : ascii) : bool :=
  let n := nat_of_ascii c in (48 <=? n)%nat && (n <=? 57)%nat.

Definition digit_val (c : ascii) : Z := Z.of_nat (nat_of_ascii c - 48).

(** Value of a digit in radix [r] (at most 16), if it is one. *)
Definition radix_digit (r : Z) (c : ascii) : option Z :=
  let n := nat_of_ascii c in
  let v :=
    if (48 <=? n)%nat && (n <=? 57)%nat then Some (Z.of_nat (n - 48))
    else if (97 <=? n)%nat && (n <=? 102)%nat then Some (Z.of_nat (n - 87))
    else if (65 <=? n)%nat && (n <=? 70)%nat then Some (Z.of_nat (n - 55))
    else None in
  match v with
  | Some d => if (d <? r)%Z then Some d else None
  | None => None
  end.

(** The longest run of decimal digits at the head of [s]: its value
    (continuing [acc]), its length, and what follows. *)
Fixpoint read_digits (s : string) (acc : Z) (n : nat) : Z * nat * string :=
  match s with
  | String c rest =>
      if is_digit c then read_digits rest (10 * acc + digit_val c)%Z (S n)
      else (acc, n, s)
  | "" => (acc, n, s)
  end.

(** A string made only of radix-[r] digits (at least one). *)
Fixpoint read_radix (r : Z) (s : string) (acc : Z) (n : nat) : option Z :=
  match s with
  | String c rest =>
      match radix_digit r c with
      | Some d => read_radix r rest (r * acc + d)%Z (S n)
      | None => None
      end
  | "" => match n with O => None | _ => Some acc end
  end.

Definition pow10 (e : Z) : Q :=
  if (0 <=? e)%Z then inject_Z (10 ^ e) else / inject_Z (10 ^ (- e)).

(** The Number value of a mathematical value that is not negative: from
    half way between the largest binary64 and 2^1024 on it is Infinity,
    up to half of the smallest binary64 it is 0. *)
Definition number_value (q : Q) : num :=
  if Qle_bool (inject_Z (2 ^ 1024 - 2 ^ 970)) q then PosInf
  else if Qle_bool q (1 # (2 ^ 1075)) then Fin 0
  else fin q.

(** ExponentPart, then the end of the text. *)
Definition read_exponent (s : string) : option Z :=
  match s with
  | "" => Some 0%Z
  | String c rest =>
      if Ascii.eqb c "e" || Ascii.eqb c "E" then
        let '(sign, rest1) :=
          match rest with
          | String "+" r => (1%Z, r)
          | String "-" r => ((-1)%Z, r)
          | _ => (1%Z, rest)
          end in
        match read_digits rest1 0 0 with
        | (_, O, _) => None
        | (v, _, "") => Some (sign * v)%Z
        | _ => None
        end
      else None
  end.

(** StrUnsignedDecimalLiteral *)
Definition unsigned_decimal (s : string) : option num :=
  if String.eqb s "Infinity" then Some PosInf
  else
    let '(iv, ni, rest) := read_digits s 0 0 in
    let '(mant, nf, rest1) :=
      match rest with
      | String "." r =>
          let '(fv, n, r') := read_digits r iv 0 in (fv, n, r')
      | _ => (iv, O, rest)
      end in
    if (ni + nf =? 0)%nat then None
    else
      match read_exponent rest1 with
      | Some e =>
          Some (number_value (inject_Z mant * pow10 (e - Z.of_nat nf)))
      | None => None
      end.

Definition neg (n : num) : num :=
  match n with
  | NaN => NaN
  | PosInf => NegInf
  | NegInf => PosInf
  | Fin q => fin (- q)
  end.

Definition or_NaN (o : option num) : num :=
  match o with Some n => n | None => NaN end.

(** The value of the digits of a literal in radix 16, 8 or 2. *)
Definition radix_value (o : option Z) : num :=
  or_NaN (option_map (fun z => number_value (inject_Z z)) o).

Definition Number_of_string (s : string) : num :=
  match trim s with
  | "" => Fin 0
  | String "0" (String p rest) as t =>
      if Ascii.eqb p "x" || Ascii.eqb p "X" then
        radix_value (read_radix 16 rest 0 0)
      else if Ascii.eqb p "o" || Ascii.eqb p "O" then
        radix_value (read_radix 8 rest 0 0)
      else if Ascii.eqb p "b" || Ascii.eqb p "B" then
        radix_value (read_radix 2 rest 0 0)
      else or_NaN (unsigned_decimal t)
  | String "+" rest => or_NaN (unsigned_decimal rest)
  | String "-" rest => or_NaN (option_map neg (unsigned_decimal rest))
  | t => or_NaN (unsigned_decimal t)
  end.

(** *** Errors and completions *)

Inductive ErrorKind : Type := PlainError | TypeError | SyntaxError | SystemError.

Record JsError : Type := mkError { kind : ErrorKind; message : string }.

Inductive Completion (A : Type) : Type :=
| Normal (a : A)
| Throw (e : JsError).
Arguments Normal {A} a.
Arguments Throw {A} e.

Definition bind {A B} (c : Completion A) (k : A -> Completion B)
  : Completion B :=
  match c with
  | Normal a => k a
  | Throw e => Throw e
  end.

(** *** Values *)

(** What [JSON.parse] returns, and [undefined] for a property that is not
    there.  An object is the list of its own properties, each key once;
    none of them holds a function. *)
Inductive JsVal : Type :=
| VUndefined
| VNull
| VBool (b : bool)
| VNum (n : num)
| VStr (s : string)
| VArr (items : list JsVal)
| VObj (props : list (string * JsVal)).

(** A value in a boolean position. *)
Definition truthy (v : JsVal) : bool :=
  match v with
  | VUndefined | VNull => false
  | VBool b => b
  | VNum n => truthy_num n
  | VStr s => truthy_str s
  | VArr _ | VObj _ => true
  end.

Definition has_key (k : string) (props : list (string * JsVal)) : bool :=
  existsb (fun p => String.eqb k (fst p)) props.

(** A value that has no text and no number.  An object becomes a
    primitive through the [toString] it finds: the inherited one gives
    ["[object Object]"]; an own property of that name hides it, is not a
    function, and the conversion throws.  An array is joined, which
    converts each of its items to text. *)
Fixpoint no_primitive (v : JsVal) : bool :=
  match v with
  | VObj props => has_key "toString" props
  | VArr items => existsb no_primitive items
  | _ => false
  end.

Definition not_primitive : JsError :=
  mkError TypeError "Cannot convert object to primitive value".

(** [Number(v)].  An array goes through its text, the join of its items
    with commas: none gives the empty text, one item gives that item's
    text ([null] the empty text, a number a text that reads as that
    number), more give a text with a comma in it, which is no number. *)
Fixpoint ToNumber (v : JsVal) : Completion num :=
  match v with
  | VUndefined => Normal NaN
  | VNull => Normal (Fin 0)
  | VBool b => Normal (if b then Fin 1 else Fin 0)
  | VNum n => Normal n
  | VStr s => Normal (Number_of_string s)
  | VObj props =>
      if has_key "toString" props then Throw not_primitive else Normal NaN
  | VArr items =>
      if existsb no_primitive items then Throw not_primitive
      else
        match items with
        | [] => Normal (Fin 0)
        | [x] =>
            match x with
            | VUndefined | VNull => Normal (Fin 0)
            | VBool _ | VObj _ => Normal NaN
            | VNum n => Normal n
            | VStr s => Normal (Number_of_string s)
            | VArr _ => ToNumber x
            end
        | _ => Normal NaN
        end
  end.

(** [v === "text"] *)
Definition strict_eq_str (v : JsVal) (s : string) : bool :=
  match v with
  | VStr t => String.eqb t s
  | _ => false
  end.

(** [Array.isArray(v) ? v : []] reads the items of [v]. *)
Definition isArray (v : JsVal) : bool :=
  match v with VArr _ => true | _ => false end.

Definition items_of (v : JsVal) : list JsVal :=
  match v with VArr l => l | _ => [] end.

Fixpoint assoc (k : string) (props : list (string * JsVal)) : JsVal :=
  match props with
  | [] => VUndefined
  | (k', v) :: rest => if String.eqb k k' then v else assoc k rest
  end.

(** [v.k], for the property names the program reads (none of them is
    inherited from a prototype): a TypeError on [null] and [undefined],
    [undefined] on any other value that is not an object with that key. *)
Definition get (v : JsVal) (k : string) : Completion JsVal :=
  match v with
  | VUndefined =>
      Throw (mkError TypeError
        ("Cannot read properties of undefined (reading '" ++ k ++ "')"))
  | VNull =>
      Throw (mkError TypeError
        ("Cannot read properties of null (reading '" ++ k ++ "')"))
  | VObj props => Normal (assoc k props)
  | _ => Normal VUndefined
  end.

(** [v?.k] *)
Definition get_opt (v : JsVal) (k : string) : Completion JsVal :=
  match v with
  | VUndefined | VNull => Normal VUndefined
  | _ => get v k
  end.

End JS.

Import JS.

Notation "x <- c ;; k" := (bind c (fun x => k))
  (at level 61, c at next level, right associativity).
(* ================================================================== *)
(** ** shared/src/types.ts *)
(* ================================================================== *)

Module Types.

Inductive AppStatus : Type := Ready | Probing | Extracting | Error.

(** An optional field is [None] when it is [undefined].  The fields the
    prober's text is copied into unchanged keep the value they had there. *)
Record AudioTrackInfo : Type := {
  audioIndex : nat;
  streamIndex : JsVal;
  codecName : JsVal;
  channels : JsVal;
  sampleRate : option num;
  bitRate : option num;
  tags : JsVal
}.

Record ProbeResult : Type := {
  filePath : string;
  duration : option num;
  formatName : JsVal;
  formatLongName : JsVal;
  audioTracks : list AudioTrackInfo
}.

Record ExtractTrackRequest : Type := {
  req_filePath : string;
  req_audioIndex : nat;
  req_duration : option num
}.

Record ExtractTrackResponse : Type := {
  res_audioIndex : nat;
  outputPath : string
}.

Record ExtractProgressEvent : Type := {
  ev_audioIndex : nat;
  progress : num
}.

Inductive Level : Type := info | error.

Record LogEvent : Type := { level : Level; log_message : string }.

End Types.

Import Types.

(* ================================================================== *)
(** ** main/src/main.ts: the probe coordinator *)
(* ================================================================== *)

Module Probe.

(** [v ? Number(v) : undefined] *)
Definition number_or_undefined (v : JsVal) : Completion (option num) :=
  if truthy v then n <- ToNumber v ;; Normal (Some n) else Normal None.

(** The loop over [streams], with its counter and the array it pushes to. *)
Fixpoint scanStreams (streams : list JsVal) (audioIndex : nat)
    (audioTracks : list AudioTrackInfo) : Completion (list AudioTrackInfo) :=
  match streams with
  | [] => Normal audioTracks
  | stream :: rest =>
      codec_type <- get stream "codec_type" ;;
      if negb (strict_eq_str codec_type "audio") then
        scanStreams rest audioIndex audioTracks
      else
        index <- get stream "index" ;;
        codec_name <- get stream "codec_name" ;;
        channels <- get stream "channels" ;;
        sample_rate <- get stream "sample_rate" ;;
        sampleRate <- number_or_undefined sample_rate ;;
        bit_rate <- get stream "bit_rate" ;;
        bitRate <- number_or_undefined bit_rate ;;
        tags <- get stream "tags" ;;
        scanStreams rest (S audioIndex)
          (audioTracks ++
           [ {| audioIndex := audioIndex;
                streamIndex := index;
                codecName := codec_name;
                channels := channels;
                sampleRate := sampleRate;
                bitRate := bitRate;
                tags := tags |} ])%list
  end.

(** The [try] block of the close handler once [JSON.parse] has returned
    [parsed]. *)
Definition fromParsed (filePath : string) (parsed : JsVal)
  : Completion ProbeResult :=
  parsed_streams <- get parsed "streams" ;;
  let streams :=
    if isArray parsed_streams then items_of parsed_streams else [] in
  audioTracks <- scanStreams streams 0 [] ;;
  format <- get parsed "format" ;;
  format_duration <- get_opt format "duration" ;;
  duration <- number_or_undefined format_duration ;;
  format_name <- get_opt format "format_name" ;;
  format_long_name <- get_opt format "format_long_name" ;;
  Normal {| filePath := filePath;
            duration := duration;
            formatName := format_name;
            formatLongName := format_long_name;
            audioTracks := audioTracks |}.

(** Text of the exit code in a template literal; [None] is [null]. *)
Definition code_text (code : option Z) : string :=
  match code with
  | Some z => string_of_Z z
  | None => "null"
  end.

Definition exited_zero (code : option Z) : bool :=
  match code with
  | Some z => (z =? 0)%Z
  | None => false
  end.

(** The close handler of [runFfprobe]: what it settles the promise with.
    [parse] is [JSON.parse]. *)
Definition onClose (parse : string -> Completion JsVal) (filePath : string)
    (code : option Z) (output errorOutput : string)
  : Completion ProbeResult :=
  if negb (exited_zero code) then
    Throw (mkError PlainError
      ("ffprobe exited with code " ++ code_text code ++ ". "
       ++ trim errorOutput))
  else
    parsed <- parse output ;;
    fromParsed filePath parsed.

(** The arguments [ffprobe] is spawned with. *)
Definition args (filePath : string) : list string :=
  [ "-v"; "error"; "-print_format"; "json"; "-show_streams"; "-show_format";
    filePath ].

End Probe.

(* ================================================================== *)
(** ** main/src/main.ts: the extraction coordinator *)
(* ================================================================== *)

Module Extract.

(** [`track_${request.audioIndex}.wav`] *)
Definition fileName (audioIndex : nat) : string :=
  "track_" ++ string_of_nat audioIndex ++ ".wav".

(** The arguments [ffmpeg] is spawned with. *)
Definition args (request : ExtractTrackRequest) (outputPath : string)
  : list string :=
  [ "-y"; "-i"; req_filePath request;
    "-map"; "0:a:" ++ string_of_nat (req_audioIndex request);
    "-vn"; "-ac"; "2"; "-ar"; "48000"; "-c:a"; "pcm_s16le";
    "-progress"; "pipe:1"; "-nostats"; outputPath ].

(** [request.duration] in a boolean position. *)
Definition duration_known (request : ExtractTrackRequest) : bool :=
  match req_duration request with
  | Some d => truthy_num d
  | None => false
  end.

Definition duration_num (request : ExtractTrackRequest) : num :=
  match req_duration request with
  | Some d => d
  | None => NaN
  end.

(** [Math.min(ms / (request.duration * 1000000), 1)] *)
Definition progress_of (request : ExtractTrackRequest) (ms : num) : num :=
  Math_min (div ms (mul (duration_num request) (of_Z 1000000))) (Fin 1).

(** [const [key, value] = line.split("=")] *)
Definition key_value (line : string) : option string * option string :=
  let parts := split_char "=" line in
  (nth_error parts 0, nth_error parts 1).

Definition is_out_time_ms (key : option string) : bool :=
  match key with
  | Some k => String.eqb k "out_time_ms"
  | None => false
  end.

(** [Number(value)], [value] possibly [undefined]. *)
Definition Number_opt (value : option string) : num :=
  match value with
  | Some v => Number_of_string v
  | None => NaN
  end.

(** The body of the loop over the complete lines: the progress it computes
    for [line], if the guard lets it compute one. *)
Definition line_progress (request : ExtractTrackRequest) (line : string)
  : option num :=
  let '(key, value) := key_value line in
  if is_out_time_ms key && duration_known request then
    let ms := Number_opt value in
    Some (progress_of request ms)
  else None.

(** [lines.pop() || ""] and what [pop] leaves in [lines]. *)
Definition carry (lines : list string) : string :=
  match rev lines with
  | l :: _ => if truthy_str l then l else ""
  | [] => ""
  end.

Definition complete (lines : list string) : list string := removelast lines.

(** The complete lines the stdout handler walks through when [data]
    arrives with [buffer] carried over, and the buffer it leaves. *)
Definition feed (buffer data : string) : list string * string :=
  let lines := split_newline (buffer ++ data) in
  (complete lines, carry lines).

Fixpoint computed (request : ExtractTrackRequest) (lines : list string)
  : list num :=
  match lines with
  | [] => []
  | line :: rest =>
      match line_progress request line with
      | Some p => p :: computed request rest
      | None => computed request rest
      end
  end.

(** The stdout handler: the new buffer and the progress values computed,
    in order. *)
Definition onData (request : ExtractTrackRequest) (buffer data : string)
  : string * list num :=
  let '(lines, buffer') := feed buffer data in
  (buffer', computed request lines).

(** The handler applied to the chunks of a stream one after the other. *)
Fixpoint onChunks (request : ExtractTrackRequest) (buffer : string)
    (chunks : list string) : string * list num :=
  match chunks with
  | [] => (buffer, [])
  | data :: rest =>
      let '(buffer1, ps) := onData request buffer data in
      let '(buffer2, qs) := onChunks request buffer1 rest in
      (buffer2, (ps ++ qs)%list)
  end.

(** The complete lines walked through over the chunks of a stream. *)
Fixpoint linesOfChunks (buffer : string) (chunks : list string)
  : list string * string :=
  match chunks with
  | [] => ([], buffer)
  | data :: rest =>
      let '(ls, buffer1) := feed buffer data in
      let '(ls', buffer2) := linesOfChunks buffer1 rest in
      ((ls ++ ls')%list, buffer2)
  end.

(** The close handler of [runFfmpegExtraction]. *)
Definition onClose (request : ExtractTrackRequest) (outputPath : string)
    (code : option Z) (stderr : string) : Completion ExtractTrackResponse :=
  if negb (Probe.exited_zero code) then
    Throw (mkError PlainError
      ("ffmpeg exited with code " ++ Probe.code_text code ++ ". "
       ++ trim stderr))
  else
    Normal {| res_audioIndex := req_audioIndex request;
              outputPath := outputPath |}.

End Extract.

(* ================================================================== *)
(** ** main/src/main.ts: state, temp directory, IPC handlers *)
(* ================================================================== *)

Module Main.

(** What goes to the renderer through [webContents.send]. *)
Inductive Message : Type :=
| SendLog (e : LogEvent)
| SendProgress (e : ExtractProgressEvent).

Inductive FsCall : Type :=
| Mkdtemp (prefix : string)
| Rm (path : string) (recursive force : bool).

(** What an [ipcMain.handle] handler returns. *)
Inductive IpcValue : Type :=
| RPath (p : option string)
| RProbe (r : ProbeResult)
| RExtract (r : ExtractTrackResponse)
| RVoid.

Inductive Job : Type :=
| Ffprobe (filePath : string)
| Ffmpeg (request : ExtractTrackRequest) (outputPath : string).

(** A spawned child with the variables its handlers close over. *)
Record Child : Type := {
  command : string;
  arguments : list string;
  job : Job;
  out : string;      (* [output] of runFfprobe, [buffer] of runFfmpegExtraction *)
  err : string;      (* [errorOutput] of runFfprobe, [stderr] of runFfmpegExtraction *)
  running : bool;    (* no close event yet *)
  settled : option (Completion IpcValue)
}.

(** The three callers of [cleanupTempDir]: the probe-file handler with its
    argument, the cleanup-temp handler and the before-quit listener. *)
Inductive Caller : Type :=
| ProbeFile (filePath : string)
| CleanupTemp
| BeforeQuit.

(** The function stopped at the [await] of a call of [fs], with what it
    closes over: [ensureTempDir], called for a request of the
    extract-track handler, or [cleanupTempDir]. *)
Inductive Awaiting : Type :=
| InEnsureTempDir (request : ExtractTrackRequest)
| InCleanupTempDir (caller : Caller).

(** A call of [fs]: what was asked, who awaits it, and whether it is yet
    to settle. *)
Record FsOp : Type := {
  call : FsCall;
  awaiting : Awaiting;
  pending : bool
}.

Record State : Type := {
  mainWindow : bool;                      (* [mainWindow] is not null *)
  tempDir : option string;
  children : list Child;                  (* in spawn order; a pid is a position *)
  sent : list Message;
  fsOps : list FsOp;                      (* in call order; an id is a position *)
  replies : list (Completion IpcValue)    (* answers to the renderer's invokes *)
}.

(** The calls of [fs] made so far. *)
Definition fsCalls (st : State) : list FsCall := map call (fsOps st).

Record OpenDialogReturnValue : Type := {
  canceled : bool;
  filePaths : list string
}.

Definition set_tempDir (d : option string) (st : State) : State :=
  {| mainWindow := mainWindow st; tempDir := d; children := children st;
     sent := sent st; fsOps := fsOps st; replies := replies st |}.

Definition set_children (cs : list Child) (st : State) : State :=
  {| mainWindow := mainWindow st; tempDir := tempDir st; children := cs;
     sent := sent st; fsOps := fsOps st; replies := replies st |}.

Definition set_fsOps (ops : list FsOp) (st : State) : State :=
  {| mainWindow := mainWindow st; tempDir := tempDir st;
     children := children st; sent := sent st; fsOps := ops;
     replies := replies st |}.

Definition send (m : Message) (st : State) : State :=
  {| mainWindow := mainWindow st; tempDir := tempDir st;
     children := children st; sent := (sent st ++ [m])%list;
     fsOps := fsOps st; replies := replies st |}.

(** A call of [fs] is made and its promise awaited. *)
Definition call_fs (c : FsCall) (a : Awaiting) (st : State) : State :=
  set_fsOps
    (fsOps st ++ [ {| call := c; awaiting := a; pending := true |} ])%list st.

Definition reply (r : Completion IpcValue) (st : State) : State :=
  {| mainWindow := mainWindow st; tempDir := tempDir st;
     children := children st; sent := sent st; fsOps := fsOps st;
     replies := (replies st ++ [r])%list |}.

Definition logToRenderer (event : LogEvent) (st : State) : State :=
  if mainWindow st then send (SendLog event) st else st.

Definition resolveBinary (candidate : option string) (fallbackName : string)
  : string :=
  match candidate with
  | Some c => if (0 <? String.length c)%nat then c else fallbackName
  | None => fallbackName
  end.

(** [tempDir] in a boolean position. *)
Definition tempDir_set (st : State) : option string :=
  match tempDir st with
  | Some d => if truthy_str d then Some d else None
  | None => None
  end.

(** An async function up to the point where it returns or first awaits. *)
Inductive Async (A : Type) : Type :=
| Returns (a : A)
| Awaits (c : FsCall).
Arguments Returns {A} a.
Arguments Awaits {A} c.

Fixpoint update {A : Type} (pid : nat) (f : A -> A) (cs : list A) : list A :=
  match cs, pid with
  | [], _ => []
  | c :: rest, O => f c :: rest
  | c :: rest, S n => c :: update n f rest
  end.

Section Platform.

(** The modules the program imports. *)
Variable ffmpegStatic ffprobeStatic : option string.
Variable os_tmpdir : string.
Variable path_join : string -> string -> string.
Variable JSON_parse : string -> Completion JsVal.

Definition getFfprobePath : string := resolveBinary ffprobeStatic "ffprobe".
Definition getFfmpegPath : string := resolveBinary ffmpegStatic "ffmpeg".

(** [ensureTempDir] up to its [await]. *)
Definition ensureTempDir (st : State) : Async string :=
  match tempDir_set st with
  | Some d => Returns d
  | None =>
      let base := path_join os_tmpdir "audio-track-selector-" in
      Awaits (Mkdtemp base)
  end.

(** [ensureTempDir] from its [await] on; [mk] is what [fs.mkdtemp] has
    answered: [tempDir = await ...; return tempDir]. *)
Definition ensureTempDir_resumed (mk : Completion string) (st : State)
  : Completion string * State :=
  match mk with
  | Normal d => (Normal d, set_tempDir (Some d) st)
  | Throw e => (Throw e, st)
  end.

(** [cleanupTempDir] up to its [await]. *)
Definition cleanupTempDir (st : State) : Async unit :=
  match tempDir_set st with
  | None => Returns tt
  | Some d => Awaits (Rm d true true)
  end.

(** [cleanupTempDir] from its [await] on; [rm] is what [fs.rm] has
    answered. *)
Definition cleanupTempDir_resumed (rm : Completion unit) (st : State)
  : State :=
  let st1 :=
    match rm with
    | Normal _ => st
    | Throw e =>
        logToRenderer
          {| level := error;
             log_message :=
               "Failed to clean temp directory: " ++ message e |} st
    end in
  set_tempDir None st1.

Definition spawn (cmd : string) (argv : list string) (j : Job) (st : State)
  : State :=
  set_children
    (children st ++
     [ {| command := cmd; arguments := argv; job := j; out := ""; err := "";
          running := true; settled := None |} ])%list st.

(** The [open-file] handler. *)
Definition openFile (result : OpenDialogReturnValue) : option string :=
  if canceled result || (List.length (filePaths result) =? 0)%nat then None
  else nth_error (filePaths result) 0.

(** [runFfprobe] up to the promise it returns. *)
Definition runFfprobe (filePath : string) (st : State) : State :=
  let ffprobePath := getFfprobePath in
  let st1 :=
    logToRenderer
      {| level := info; log_message := "Running ffprobe: " ++ ffprobePath |}
      st in
  spawn ffprobePath (Probe.args filePath) (Ffprobe filePath) st1.

(** What the caller of [cleanupTempDir] does once it has returned, up to
    the promise it awaits next or to its end. *)
Definition afterCleanup (caller : Caller) (st : State) : State :=
  match caller with
  | ProbeFile filePath => runFfprobe filePath st
  | CleanupTemp => reply (Normal RVoid) st
  | BeforeQuit => st
  end.

(** [await cleanupTempDir()] in [caller]: it goes on at once when nothing
    is to be removed, and waits for [fs.rm] otherwise. *)
Definition awaitCleanup (caller : Caller) (st : State) : State :=
  match cleanupTempDir st with
  | Returns _ => afterCleanup caller st
  | Awaits c => call_fs c (InCleanupTempDir caller) st
  end.

(** The [probe-file] handler. *)
Definition probeFile (filePath : string) (st : State) : State :=
  awaitCleanup (ProbeFile filePath) st.

(** The [cleanup-temp] handler. *)
Definition cleanupTemp (st : State) : State := awaitCleanup CleanupTemp st.

(** The [before-quit] listener. *)
Definition beforeQuit (st : State) : State := awaitCleanup BeforeQuit st.

(** [runFfmpegExtraction] from the point where [ensureTempDir] has given
    [outputDir], up to the promise it returns. *)
Definition runFfmpegExtraction (request : ExtractTrackRequest)
    (outputDir : string) (st : State) : State :=
  let ffmpegPath := getFfmpegPath in
  let outputPath :=
    path_join outputDir (Extract.fileName (req_audioIndex request)) in
  let st1 :=
    logToRenderer
      {| level := info;
         log_message :=
           "Extracting audio index "
           ++ string_of_nat (req_audioIndex request)
           ++ " to " ++ outputPath |} st in
  spawn ffmpegPath (Extract.args request outputPath)
    (Ffmpeg request outputPath) st1.

(** The [catch] block of a handler and the rejection of its invoke. *)
Definition failed (prefix : string) (e : JsError) (st : State) : State :=
  reply (Throw e)
    (logToRenderer
       {| level := error; log_message := prefix ++ message e |} st).

(** The [extract-track] handler: it spawns the encoder at once when the
    session directory is there, and waits for [fs.mkdtemp] otherwise. *)
Definition extractTrack (request : ExtractTrackRequest) (st : State)
  : State :=
  match ensureTempDir st with
  | Returns outputDir => runFfmpegExtraction request outputDir st
  | Awaits c => call_fs c (InEnsureTempDir request) st
  end.

(** The [extract-track] handler when [fs.mkdtemp] has answered. *)
Definition extractTrack_resumed (request : ExtractTrackRequest)
    (mk : Completion string) (st : State) : State :=
  match ensureTempDir_resumed mk st with
  | (Normal outputDir, st1) => runFfmpegExtraction request outputDir st1
  | (Throw e, st1) => failed "Extraction failed: " e st1
  end.

(** *** Calls of [fs] that settle *)

Definition set_settled_fs (op : FsOp) : FsOp :=
  {| call := call op; awaiting := awaiting op; pending := false |}.

(** The pending call [id], if there is one. *)
Definition pendingOp (id : nat) (st : State) : option FsOp :=
  match nth_error (fsOps st) id with
  | Some op => if pending op then Some op else None
  | None => None
  end.

Definition fsSettled (id : nat) (st : State) : State :=
  set_fsOps (update id set_settled_fs (fsOps st)) st.

(** [fs.mkdtemp] of call [id] settles. *)
Definition onMkdtemp (id : nat) (mk : Completion string) (st : State)
  : State :=
  match pendingOp id st with
  | Some op =>
      match awaiting op with
      | InEnsureTempDir request =>
          extractTrack_resumed request mk (fsSettled id st)
      | InCleanupTempDir _ => st
      end
  | None => st
  end.

(** [fs.rm] of call [id] settles. *)
Definition onRm (id : nat) (rm : Completion unit) (st : State) : State :=
  match pendingOp id st with
  | Some op =>
      match awaiting op with
      | InCleanupTempDir caller =>
          afterCleanup caller (cleanupTempDir_resumed rm (fsSettled id st))
      | InEnsureTempDir _ => st
      end
  | None => st
  end.

(** *** Events of the spawned children *)

Definition set_out (o : string) (c : Child) : Child :=
  {| command := command c; arguments := arguments c; job := job c;
     out := o; err := err c; running := running c; settled := settled c |}.

Definition set_err (e : string) (c : Child) : Child :=
  {| command := command c; arguments := arguments c; job := job c;
     out := out c; err := e; running := running c; settled := settled c |}.

Definition set_closed (c : Child) : Child :=
  {| command := command c; arguments := arguments c; job := job c;
     out := out c; err := err c; running := false; settled := settled c |}.

Definition set_settled (r : Completion IpcValue) (c : Child) : Child :=
  {| command := command c; arguments := arguments c; job := job c;
     out := out c; err := err c; running := running c; settled := Some r |}.

Definition sendProgress (audioIndex : nat) (ps : list num) (st : State)
  : State :=
  fold_left
    (fun st' p =>
       if mainWindow st' then
         send (SendProgress {| ev_audioIndex := audioIndex; progress := p |})
           st'
       else st')
    ps st.

(** A [data] event on the child's stdout. *)
Definition onStdout (pid : nat) (data : Buffer) (st : State) : State :=
  match nth_error (children st) pid with
  | None => st
  | Some c =>
      match job c with
      | Ffprobe _ =>
          set_children
            (update pid (set_out (out c ++ toString data)) (children st)) st
      | Ffmpeg request _ =>
          let '(buffer, ps) :=
            Extract.onData request (out c) (toString data) in
          sendProgress (req_audioIndex request) ps
            (set_children (update pid (set_out buffer) (children st)) st)
      end
  end.

(** A [data] event on the child's stderr. *)
Definition onStderr (pid : nat) (data : Buffer) (st : State) : State :=
  match nth_error (children st) pid with
  | None => st
  | Some c =>
      set_children
        (update pid (set_err (err c ++ toString data)) (children st)) st
  end.

Definition failure_prefix (j : Job) : string :=
  match j with
  | Ffprobe _ => "Probe failed: "
  | Ffmpeg _ _ => "Extraction failed: "
  end.

(** [resolve] or [reject] on the child's promise.  Only the first call
    settles it; the handler that awaits it then answers the renderer, after
    logging the failure if there is one. *)
Definition settle (pid : nat) (r : Completion IpcValue) (st : State) : State :=
  match nth_error (children st) pid with
  | None => st
  | Some c =>
      match settled c with
      | Some _ => st
      | None =>
          let st1 :=
            set_children (update pid (set_settled r) (children st)) st in
          match r with
          | Normal _ => reply r st1
          | Throw e => failed (failure_prefix (job c)) e st1
          end
      end
  end.

Definition outcome (c : Child) (code : option Z) : Completion IpcValue :=
  match job c with
  | Ffprobe filePath =>
      r <- Probe.onClose JSON_parse filePath code (out c) (err c) ;;
      Normal (RProbe r)
  | Ffmpeg request outputPath =>
      r <- Extract.onClose request outputPath code (err c) ;;
      Normal (RExtract r)
  end.

(** The child's [close] event. *)
Definition onClose (pid : nat) (code : option Z) (st : State) : State :=
  match nth_error (children st) pid with
  | None => st
  | Some c =>
      settle pid (outcome c code)
        (set_children (update pid set_closed (children st)) st)
  end.

(** The child's [error] event. *)
Definition onError (pid : nat) (e : JsError) (st : State) : State :=
  settle pid (Throw e) st.

(** *** The event loop *)

Inductive Event : Type :=
| Invoke_openFile (result : OpenDialogReturnValue)
| Invoke_probeFile (filePath : string)
| Invoke_extractTrack (request : ExtractTrackRequest)
| Invoke_cleanupTemp
| App_beforeQuit
| Mkdtemp_settled (id : nat) (mk : Completion string)
| Rm_settled (id : nat) (rm : Completion unit)
| Child_stdout (pid : nat) (data : Buffer)
| Child_stderr (pid : nat) (data : Buffer)
| Child_close (pid : nat) (code : option Z)
| Child_error (pid : nat) (e : JsError).

Definition step (st : State) (ev : Event) : State :=
  match ev with
  | Invoke_openFile result => reply (Normal (RPath (openFile result))) st
  | Invoke_probeFile filePath => probeFile filePath st
  | Invoke_extractTrack request => extractTrack request st
  | Invoke_cleanupTemp => cleanupTemp st
  | App_beforeQuit => beforeQuit st
  | Mkdtemp_settled id mk => onMkdtemp id mk st
  | Rm_settled id rm => onRm id rm st
  | Child_stdout pid data => onStdout pid data st
  | Child_stderr pid data => onStderr pid data st
  | Child_close pid code => onClose pid code st
  | Child_error pid e => onError pid e st
  end.

Definition run (st : State) (evs : list Event) : State :=
  fold_left step evs st.

End Platform.

(** The state once [app] is ready and the window is created. *)
Definition ready : State :=
  {| mainWindow := true; tempDir := None; children := []; sent := [];
     fsOps := []; replies := [] |}.

(** The encoder processes spawned for [audioIndex] that have not closed. *)
Definition is_ffmpeg_for (audioIndex : nat) (c : Child) : bool :=
  match job c with
  | Ffmpeg request _ => (req_audioIndex request =? audioIndex)%nat
  | Ffprobe _ => false
  end.

Definition inFlight (audioIndex : nat) (st : State) : list Child :=
  filter (fun c => is_ffmpeg_for audioIndex c && running c) (children st).

Definition spawnedFor (audioIndex : nat) (st : State) : list Child :=
  filter (is_ffmpeg_for audioIndex) (children st).

(** The progress values sent for [audioIndex], in order. *)
Fixpoint progressSent (audioIndex : nat) (ms : list Message) : list num :=
  match ms with
  | [] => []
  | SendProgress e :: rest =>
      if (ev_audioIndex e =? audioIndex)%nat
      then progress e :: progressSent audioIndex rest
      else progressSent audioIndex rest
  | SendLog _ :: rest => progressSent audioIndex rest
  end.

End Main.

(* ================================================================== *)
(** ** renderer/src/App.tsx: the track records *)
(* ================================================================== *)

Module Renderer.

Record TrackState : Type := {
  info : AudioTrackInfo;
  enabled : bool;
  muted : bool;
  volume : Z;
  extracting : bool;
  progress : num;
  error : option string;
  outputPath : option string
}.

Record State : Type := {
  status : AppStatus;
  filePath : option string;
  probeResult : option ProbeResult;
  tracks : list TrackState
}.

Definition set_tracks (ts : list TrackState) (st : State) : State :=
  {| status := status st; filePath := filePath st;
     probeResult := probeResult st; tracks := ts |}.

Definition set_status (s : AppStatus) (st : State) : State :=
  {| status := s; filePath := filePath st; probeResult := probeResult st;
     tracks := tracks st |}.

(** [prev.map((track) => track.info.audioIndex === audioIndex ? f(track) : track)] *)
Definition mapTrack (i : nat) (f : TrackState -> TrackState)
    (prev : list TrackState) : list TrackState :=
  map (fun track => if (audioIndex (info track) =? i)%nat then f track
                    else track) prev.

(** [tracks.find((track) => track.info.audioIndex === audioIndex)] *)
Definition findTrack (i : nat) (ts : list TrackState) : option TrackState :=
  find (fun track => (audioIndex (info track) =? i)%nat) ts.

Definition truthy_opt (o : option string) : bool :=
  match o with
  | Some s => truthy_str s
  | None => false
  end.

(** The tracks [handleOpenFile] installs once the probe has resolved. *)
Definition seedTracks (result : ProbeResult) : list TrackState :=
  map (fun track =>
         {| info := track; enabled := false; muted := false; volume := 100;
            extracting := false; progress := Fin 0; error := None;
            outputPath := None |})
      (audioTracks result).

(** The listener registered with [onExtractProgress]. *)
Definition onExtractProgress (event : ExtractProgressEvent) (st : State)
  : State :=
  set_tracks
    (mapTrack (ev_audioIndex event)
       (fun track =>
          {| info := info track; enabled := enabled track;
             muted := muted track; volume := volume track;
             extracting := extracting track;
             progress := Types.progress event;
             error := error track; outputPath := outputPath track |})
       (tracks st)) st.

(** [handleEnableTrack] up to the point where it awaits [extractTrack]:
    the new state and the request it sends, if it sends one. *)
Definition handleEnableTrack (i : nat) (on : bool) (st : State)
  : State * option ExtractTrackRequest :=
  let st1 :=
    set_tracks
      (mapTrack i
         (fun track =>
            {| info := info track; enabled := on; muted := muted track;
               volume := volume track; extracting := extracting track;
               progress := progress track; error := None;
               outputPath := outputPath track |})
         (tracks st)) st in
  if negb on then (st1, None)
  else
    match findTrack i (tracks st), filePath st with
    | Some target, Some path =>
        if negb (truthy_str path) then (st1, None)
        else if truthy_opt (outputPath target) then (st1, None)
        else
          let st2 :=
            set_tracks
              (mapTrack i
                 (fun track =>
                    {| info := info track; enabled := enabled track;
                       muted := muted track; volume := volume track;
                       extracting := true; progress := Fin 0;
                       error := error track;
                       outputPath := outputPath track |})
                 (tracks st1)) st1 in
          (set_status Extracting st2,
           Some {| req_filePath := path;
                   req_audioIndex := i;
                   req_duration :=
                     match probeResult st with
                     | Some r => duration r
                     | None => None
                     end |})
    | _, _ => (st1, None)
    end.

(** [handleEnableTrack] resumed when [extractTrack] has resolved. *)
Definition extractResolved (i : nat) (response : ExtractTrackResponse)
    (st : State) : State :=
  set_status Ready
    (set_tracks
       (mapTrack i
          (fun track =>
             {| info := info track; enabled := enabled track;
                muted := muted track; volume := volume track;
                extracting := false; progress := Fin 1;
                error := error track;
                outputPath := Some (Types.outputPath response) |})
          (tracks st)) st).

(** [handleEnableTrack] resumed when [extractTrack] has rejected. *)
Definition extractRejected (i : nat) (e : JsError) (st : State) : State :=
  set_status Error
    (set_tracks
       (mapTrack i
          (fun track =>
             {| info := info track; enabled := enabled track;
                muted := muted track; volume := volume track;
                extracting := false; progress := progress track;
                error := Some (message e);
                outputPath := outputPath track |})
          (tracks st)) st).

End Renderer.

(* ================================================================== *)
(** ** renderer/src/App.tsx: the audio nodes and the clock *)
(* ================================================================== *)

(** Further operations on numbers, as exact as the others. *)
Module JSMath.

(** [a - b] *)
Definition sub (a b : num) : num :=
  match a, b with
  | NaN, _ | _, NaN => NaN
  | Fin x, Fin y => fin (x - y)
  | PosInf, PosInf | NegInf, NegInf => NaN
  | PosInf, _ | _, NegInf => PosInf
  | NegInf, _ | _, PosInf => NegInf
  end.

(** [Math.abs(a)] *)
Definition Math_abs (a : num) : num :=
  match a with
  | NaN => NaN
  | PosInf | NegInf => PosInf
  | Fin x => fin (Qabs.Qabs x)
  end.

(** [a > b]: false as soon as one is NaN. *)
Definition gt (a b : num) : bool :=
  match a, b with
  | NaN, _ | _, NaN => false
  | _, PosInf | NegInf, _ => false
  | PosInf, _ | _, NegInf => true
  | Fin x, Fin y => negb (Qle_bool x y)
  end.

End JSMath.

Module Player.

Import JSMath.

(** An entry of [audioNodesRef]: of the audio element its position, rate
    and paused flag, of the gain node its value. *)
Record AudioNodeState : Type := {
  currentTime : num;
  playbackRate : num;
  paused : bool;
  gain : num
}.

(** Of the video element, what the audio is aligned with. *)
Record Video : Type := {
  v_currentTime : num;
  v_playbackRate : num;
  v_paused : bool
}.

(** [audioNodesRef.current], a map from audioIndex to node. *)
Definition Nodes : Type := nat -> option AudioNodeState.

Definition set_currentTime (t : num) (n : AudioNodeState) : AudioNodeState :=
  {| currentTime := t; playbackRate := playbackRate n; paused := paused n;
     gain := gain n |}.

Definition set_playbackRate (r : num) (n : AudioNodeState) : AudioNodeState :=
  {| currentTime := currentTime n; playbackRate := r; paused := paused n;
     gain := gain n |}.

Definition set_paused (b : bool) (n : AudioNodeState) : AudioNodeState :=
  {| currentTime := currentTime n; playbackRate := playbackRate n;
     paused := b; gain := gain n |}.

Definition set_gain (g : num) (n : AudioNodeState) : AudioNodeState :=
  {| currentTime := currentTime n; playbackRate := playbackRate n;
     paused := paused n; gain := g |}.

(** [tracks.filter((track) => track.enabled && track.outputPath)] *)
Definition enabledTracks (tracks : list Renderer.TrackState)
  : list Renderer.TrackState :=
  filter (fun track =>
            Renderer.enabled track
            && Renderer.truthy_opt (Renderer.outputPath track))
         tracks.

(** [const node = audioNodesRef.current.get(i); if (node) { ... }]: the
    node found is changed in place. *)
Definition withNode (i : nat) (f : AudioNodeState -> AudioNodeState)
    (nodes : Nodes) : Nodes :=
  fun j => if (j =? i)%nat then option_map f (nodes j) else nodes j.

(** [enabledTracks.forEach((track) => { node of the track; if (node) ... })] *)
Definition forEachEnabled
    (f : Renderer.TrackState -> AudioNodeState -> AudioNodeState)
    (tracks : list Renderer.TrackState) (nodes : Nodes) : Nodes :=
  fold_left
    (fun ns track => withNode (audioIndex (Renderer.info track)) (f track) ns)
    (enabledTracks tracks) nodes.

(** [track.muted ? 0 : track.volume / 100] *)
Definition gain_of (track : Renderer.TrackState) : num :=
  if Renderer.muted track then Fin 0
  else div (of_Z (Renderer.volume track)) (of_Z 100).

(** [syncAllAudioToVideo] *)
Definition syncAllAudioToVideo (video : option Video)
    (tracks : list Renderer.TrackState) (nodes : Nodes) : Nodes :=
  match video with
  | None => nodes
  | Some v =>
      forEachEnabled (fun _ node => set_currentTime (v_currentTime v) node)
        tracks nodes
  end.

(** [pauseAllEnabled] *)
Definition pauseAllEnabled (tracks : list Renderer.TrackState)
    (nodes : Nodes) : Nodes :=
  forEachEnabled (fun _ node => set_paused true node) tracks nodes.

(** The effect on [enabledTracks] that sets the gains. *)
Definition applyGains (tracks : list Renderer.TrackState) (nodes : Nodes)
  : Nodes :=
  forEachEnabled (fun track node => set_gain (gain_of track) node)
    tracks nodes.

(** What the interval callback does to one node. *)
Definition correct (video : Video) (rate : num) (node : AudioNodeState)
  : AudioNodeState :=
  let drift := sub (currentTime node) (v_currentTime video) in
  let abs := Math_abs drift in
  if gt abs (Fin (1 # 4)) then
    set_playbackRate rate (set_currentTime (v_currentTime video) node)
  else if gt abs (Fin (2 # 25)) then
    let correction :=
      if gt drift (Fin 0) then Fin (97 # 100) else Fin (103 # 100) in
    set_playbackRate (mul rate correction) node
  else set_playbackRate rate node.

(** The interval callback of the drift correction; [rate] is the
    [playbackRate] of the component. *)
Definition tick (video : option Video) (rate : num)
    (tracks : list Renderer.TrackState) (nodes : Nodes) : Nodes :=
  match video with
  | None => nodes
  | Some v => forEachEnabled (fun _ node => correct v rate node) tracks nodes
  end.

(** [updateTrackVolume] *)
Definition updateTrackVolume (i : nat) (volume : Z)
    (tracks : list Renderer.TrackState) (nodes : Nodes)
  : list Renderer.TrackState * Nodes :=
  (Renderer.mapTrack i
     (fun track =>
        {| Renderer.info := Renderer.info track;
           Renderer.enabled := Renderer.enabled track;
           Renderer.muted := Renderer.muted track;
           Renderer.volume := volume;
           Renderer.extracting := Renderer.extracting track;
           Renderer.progress := Renderer.progress track;
           Renderer.error := Renderer.error track;
           Renderer.outputPath := Renderer.outputPath track |})
     tracks,
   withNode i (set_gain (div (of_Z volume) (of_Z 100))) nodes).

(** [toggleMute] *)
Definition toggleMute (i : nat) (tracks : list Renderer.TrackState)
    (nodes : Nodes) : list Renderer.TrackState * Nodes :=
  (Renderer.mapTrack i
     (fun track =>
        {| Renderer.info := Renderer.info track;
           Renderer.enabled := Renderer.enabled track;
           Renderer.muted := negb (Renderer.muted track);
           Renderer.volume := Renderer.volume track;
           Renderer.extracting := Renderer.extracting track;
           Renderer.progress := Renderer.progress track;
           Renderer.error := Renderer.error track;
           Renderer.outputPath := Renderer.outputPath track |})
     tracks,
   match Renderer.findTrack i tracks with
   | Some track =>
       let nextMuted := negb (Renderer.muted track) in
       withNode i
         (set_gain (if nextMuted then Fin 0
                    else div (of_Z (Renderer.volume track)) (of_Z 100)))
         nodes
   | None => nodes
   end).

End Player.

(* ================================================================== *)
(** ** Vocabulary of the properties *)
(* ================================================================== *)

(** The three occasions on which the session temp directory goes. *)
Inductive Occasion : Type :=
| NewFileOpen (filePath : string)
| CleanupRequest
| AppShutdown.

Definition occasion_event (o : Occasion) : Main.Event :=
  match o with
  | NewFileOpen filePath => Main.Invoke_probeFile filePath
  | CleanupRequest => Main.Invoke_cleanupTemp
  | AppShutdown => Main.App_beforeQuit
  end.

Definition caller_of (o : Occasion) : Main.Caller :=
  match o with
  | NewFileOpen filePath => Main.ProbeFile filePath
  | CleanupRequest => Main.CleanupTemp
  | AppShutdown => Main.BeforeQuit
  end.

(** What [cleanupTempDir] logs when [fs.rm] has answered [rm]. *)
Definition cleanup_log (st : Main.State) (rm : Completion unit)
  : list Main.Message :=
  match rm with
  | Throw e =>
      if Main.mainWindow st then
        [ Main.SendLog
            {| level := error;
               log_message :=
                 "Failed to clean temp directory: " ++ message e |} ]
      else []
  | Normal _ => []
  end.

(** What the handler of an occasion logs when it goes on. *)
Definition occasion_log (ffprobePath : string) (o : Occasion)
    (st : Main.State) : list Main.Message :=
  match o with
  | NewFileOpen _ =>
      if Main.mainWindow st then
        [ Main.SendLog
            {| level := info;
               log_message := "Running ffprobe: " ++ ffprobePath |} ]
      else []
  | _ => []
  end.

(** The handler of an occasion has gone on from [st] to [st']: the probe
    has spawned its child, the cleanup request is answered, the shutdown
    listener has ended. *)
Definition gone_on (o : Occasion) (st st' : Main.State) : Prop :=
  match o with
  | NewFileOpen filePath =>
      Main.replies st' = Main.replies st
      /\ exists c,
           Main.children st' = (Main.children st ++ [c])%list
           /\ Main.job c = Main.Ffprobe filePath
           /\ Main.running c = true
  | CleanupRequest =>
      Main.replies st' = (Main.replies st ++ [Normal Main.RVoid])%list
      /\ Main.children st' = Main.children st
  | AppShutdown =>
      Main.replies st' = Main.replies st
      /\ Main.children st' = Main.children st
  end.

(** The event in which call [id] of [fs] settles. *)
Definition settles (id : nat) (ev : Main.Event) : bool :=
  match ev with
  | Main.Mkdtemp_settled i _ | Main.Rm_settled i _ => (i =? id)%nat
  | _ => false
  end.

(** A trace in which call [id] does not settle. *)
Definition awaited (id : nat) (evs : list Main.Event) : bool :=
  forallb (fun ev => negb (settles id ev)) evs.

(** No session directory in [st]: the next extraction asks [fs.mkdtemp]
    for one under [base], spawns nothing until it is answered, and the
    directory answered becomes the session directory. *)
Definition fresh_directory_next (step : Main.State -> Main.Event -> Main.State)
    (base : string) (st : Main.State) : Prop :=
  Main.tempDir_set st = None
  /\ forall (request : ExtractTrackRequest) (d' : string),
       let st1 := step st (Main.Invoke_extractTrack request) in
       let id := List.length (Main.fsOps st) in
       Main.fsCalls st1 = (Main.fsCalls st ++ [Main.Mkdtemp base])%list
       /\ Main.children st1 = Main.children st
       /\ Main.tempDir (step st1 (Main.Mkdtemp_settled id (Normal d')))
          = Some d'.

(** The call of [fs.mkdtemp] a request waits for. *)
Definition mkdtemp_for (base : string) (request : ExtractTrackRequest)
  : Main.FsOp :=
  {| Main.call := Main.Mkdtemp base;
     Main.awaiting := Main.InEnsureTempDir request;
     Main.pending := true |}.

(** The event in which [request] gets its directory [dir]: the request
    itself when the session directory is set, the answer of the
    [fs.mkdtemp] it waits for otherwise. *)
Definition gives_directory (st : Main.State) (ev : Main.Event)
    (request : ExtractTrackRequest) (dir : string) : Prop :=
  match ev with
  | Main.Invoke_extractTrack r =>
      r = request /\ Main.tempDir_set st = Some dir
  | Main.Mkdtemp_settled id (Normal d) =>
      d = dir
      /\ exists op,
           Main.pendingOp id st = Some op
           /\ Main.awaiting op = Main.InEnsureTempDir request
  | _ => False
  end.

(** The event in which the probe of [filePath] spawns its child: the
    request itself when there is no session directory, the answer of the
    [fs.rm] it waits for otherwise. *)
Definition starts_probe (st : Main.State) (ev : Main.Event)
    (filePath : string) : Prop :=
  match ev with
  | Main.Invoke_probeFile f => f = filePath /\ Main.tempDir_set st = None
  | Main.Rm_settled id _ =>
      exists op,
        Main.pendingOp id st = Some op
        /\ Main.awaiting op = Main.InCleanupTempDir (Main.ProbeFile filePath)
  | _ => False
  end.

(** A child as [spawn] makes it. *)
Definition spawned (cmd : string) (argv : list string) (j : Main.Job)
  : Main.Child :=
  {| Main.command := cmd; Main.arguments := argv; Main.job := j;
     Main.out := ""; Main.err := ""; Main.running := true;
     Main.settled := None |}.

Definition probe_child (ffprobePath filePath : string) : Main.Child :=
  spawned ffprobePath (Probe.args filePath) (Main.Ffprobe filePath).

Definition encoder_child (ffmpegPath : string)
    (path_join : string -> string -> string)
    (request : ExtractTrackRequest) (dir : string) : Main.Child :=
  let outputPath :=
    path_join dir (Extract.fileName (req_audioIndex request)) in
  spawned ffmpegPath (Extract.args request outputPath)
    (Main.Ffmpeg request outputPath).

(** The children an event spawns. *)
Definition spawns (ffmpegPath ffprobePath : string)
    (path_join : string -> string -> string)
    (st : Main.State) (ev : Main.Event) : list Main.Child :=
  match ev with
  | Main.Invoke_probeFile filePath =>
      match Main.tempDir_set st with
      | None => [probe_child ffprobePath filePath]
      | Some _ => []
      end
  | Main.Invoke_extractTrack request =>
      match Main.tempDir_set st with
      | Some d => [encoder_child ffmpegPath path_join request d]
      | None => []
      end
  | Main.Mkdtemp_settled id (Normal d) =>
      match Main.pendingOp id st with
      | Some op =>
          match Main.awaiting op with
          | Main.InEnsureTempDir request =>
              [encoder_child ffmpegPath path_join request d]
          | _ => []
          end
      | None => []
      end
  | Main.Rm_settled id _ =>
      match Main.pendingOp id st with
      | Some op =>
          match Main.awaiting op with
          | Main.InCleanupTempDir (Main.ProbeFile filePath) =>
              [probe_child ffprobePath filePath]
          | _ => []
          end
      | None => []
      end
  | _ => []
  end.

(** The call of [fs.rm] that [cleanupTempDir], called by [caller], makes
    in [st]. *)
Definition rm_for (st : Main.State) (caller : Main.Caller)
  : list Main.FsOp :=
  match Main.tempDir_set st with
  | Some d =>
      [ {| Main.call := Main.Rm d true true;
           Main.awaiting := Main.InCleanupTempDir caller;
           Main.pending := true |} ]
  | None => []
  end.

(** The call of [fs] an event makes. *)
Definition asks (base : string) (st : Main.State) (ev : Main.Event)
  : list Main.FsOp :=
  match ev with
  | Main.Invoke_extractTrack request =>
      match Main.tempDir_set st with
      | None => [mkdtemp_for base request]
      | Some _ => []
      end
  | Main.Invoke_probeFile filePath => rm_for st (Main.ProbeFile filePath)
  | Main.Invoke_cleanupTemp => rm_for st Main.CleanupTemp
  | Main.App_beforeQuit => rm_for st Main.BeforeQuit
  | _ => []
  end.

(** The event settles a pending call of [fs] of its kind, so that the
    function awaiting it goes on. *)
Definition resumes (st : Main.State) (ev : Main.Event) : bool :=
  match ev with
  | Main.Mkdtemp_settled id _ =>
      match Main.pendingOp id st with
      | Some op =>
          match Main.awaiting op with
          | Main.InEnsureTempDir _ => true
          | Main.InCleanupTempDir _ => false
          end
      | None => false
      end
  | Main.Rm_settled id _ =>
      match Main.pendingOp id st with
      | Some op =>
          match Main.awaiting op with
          | Main.InCleanupTempDir _ => true
          | Main.InEnsureTempDir _ => false
          end
      | None => false
      end
  | _ => false
  end.

(** The session directory after an event. *)
Definition tempDir_after (st : Main.State) (ev : Main.Event)
  : option string :=
  if resumes st ev then
    match ev with
    | Main.Mkdtemp_settled _ (Normal d) => Some d
    | Main.Rm_settled _ _ => None
    | _ => Main.tempDir st
    end
  else Main.tempDir st.

(** The events of the children. *)
Definition of_child (ev : Main.Event) : bool :=
  match ev with
  | Main.Child_stdout _ _ | Main.Child_stderr _ _
  | Main.Child_close _ _ | Main.Child_error _ _ => true
  | _ => false
  end.

Definition is_log (m : Main.Message) : Prop :=
  match m with
  | Main.SendLog _ => True
  | Main.SendProgress _ => False
  end.

(** A state after a run of the handlers that makes no call of [fs] and
    leaves the session directory. *)
Record same_fs (st st' : Main.State) : Prop := {
  same_fsOps : Main.fsOps st' = Main.fsOps st;
  same_tempDir : Main.tempDir st' = Main.tempDir st;
  same_mainWindow : Main.mainWindow st' = Main.mainWindow st
}.

(** A state after a run of the handlers that spawns [cs], answers [rs]
    and sends log lines only. *)
Record grows (st st' : Main.State) (cs : list Main.Child)
    (rs : list (Completion Main.IpcValue)) : Prop := {
  grows_children : Main.children st' = (Main.children st ++ cs)%list;
  grows_replies : Main.replies st' = (Main.replies st ++ rs)%list;
  grows_sent :
    exists logs,
      Main.sent st' = (Main.sent st ++ logs)%list /\ Forall is_log logs
}.

(** The value of a stream's or format's field, [undefined] when absent. *)
Definition field (k : string) (v : JsVal) : JsVal :=
  match v with
  | VObj props => assoc k props
  | _ => VUndefined
  end.

(** The streams the prober's output declares. *)
Definition declared_streams (parsed : JsVal) : list JsVal :=
  items_of (field "streams" parsed).

Definition is_audio (stream : JsVal) : bool :=
  strict_eq_str (field "codec_type" stream) "audio".

Definition native_index (stream : JsVal) : JsVal := field "index" stream.

(** What is stored for a numeric field [v] that could be converted. *)
Definition stored (v : JsVal) : option num :=
  match Probe.number_or_undefined v with
  | Normal o => o
  | Throw _ => None
  end.

(** The descriptor of the audio stream met in position [k]. *)
Definition track_of (k : nat) (stream : JsVal) : AudioTrackInfo :=
  {| audioIndex := k;
     streamIndex := native_index stream;
     codecName := field "codec_name" stream;
     channels := field "channels" stream;
     sampleRate := stored (field "sample_rate" stream);
     bitRate := stored (field "bit_rate" stream);
     tags := field "tags" stream |}.

Fixpoint number_from (k : nat) (audio : list JsVal) : list AudioTrackInfo :=
  match audio with
  | [] => []
  | stream :: rest => track_of k stream :: number_from (S k) rest
  end.

Definition nullish (v : JsVal) : bool :=
  match v with
  | VUndefined | VNull => true
  | _ => false
  end.

(** A stream the scan stops at: it is [null], or it is an audio stream one
    of whose rates cannot be converted to a number. *)
Definition unreadable_stream (stream : JsVal) : bool :=
  nullish stream
  || (is_audio stream
      && (no_primitive (field "sample_rate" stream)
          || no_primitive (field "bit_rate" stream))).

(** A parsed output the [try] block cannot walk: it is [null], or the scan
    stops at one of its streams, or its duration cannot be converted. *)
Definition unreadable (parsed : JsVal) : bool :=
  nullish parsed
  || existsb unreadable_stream (declared_streams parsed)
  || no_primitive (field "duration" (field "format" parsed)).

(** What the [try] block yields on a parsed output it can walk. *)
Definition walked (filePath : string) (parsed : JsVal) : ProbeResult :=
  {| Types.filePath := filePath;
     duration := stored (field "duration" (field "format" parsed));
     formatName := field "format_name" (field "format" parsed);
     formatLongName := field "format_long_name" (field "format" parsed);
     audioTracks :=
       number_from 0 (filter is_audio (declared_streams parsed)) |}.

(** How a numeric field of the prober's output, [v], is stored. *)
Definition reads_as (v : JsVal) (stored : option num) : Prop :=
  (truthy v = false -> stored = None)
  /\ (truthy v = true -> exists n, ToNumber v = Normal n /\ stored = Some n)
  /\ (forall text, v = VStr text -> text <> "" ->
        stored = Some (Number_of_string text)).

(** A [JSON.parse] known on one text only. *)
Definition parse_only (text : string) (v : JsVal)
  : string -> Completion JsVal :=
  fun s =>
    if String.eqb s text then Normal v
    else Throw (mkError SyntaxError "Unexpected token").

(** The text [{"streams":[null]}] and what [JSON.parse] makes of it. *)
Definition dq : string := String "034" "".

Definition text_null_stream : string :=
  "{" ++ dq ++ "streams" ++ dq ++ ":[null]}".

Definition parsed_null_stream : JsVal := VObj [ ("streams", VArr [VNull]) ].

(** The text [{"format":{"duration":{"toString":1}}}] and what
    [JSON.parse] makes of it. *)
Definition text_duration_object : string :=
  "{" ++ dq ++ "format" ++ dq ++ ":{" ++ dq ++ "duration" ++ dq ++ ":{"
  ++ dq ++ "toString" ++ dq ++ ":1}}}".

Definition parsed_duration_object : JsVal :=
  VObj [ ("format",
          VObj [ ("duration", VObj [ ("toString", VNum (of_Z 1)) ]) ]) ].

Definition stream_example (index : Z) (codec_type : string) : JsVal :=
  VObj [ ("index", VNum (of_Z index)); ("codec_type", VStr codec_type);
         ("codec_name", VStr "aac"); ("sample_rate", VStr "48000") ].

(** Video at 0, audio at 2, 5 and 7, other streams in between. *)
Definition parsed_2_5_7 : JsVal :=
  VObj [ ("streams",
          VArr [ stream_example 0 "video"; stream_example 2 "audio";
                 stream_example 3 "subtitle"; stream_example 5 "audio";
                 stream_example 7 "audio" ]);
         ("format", VObj [ ("duration", VStr "12.5") ]) ].

(** One audio stream whose rates and duration are not numbers. *)
Definition parsed_not_numeric : JsVal :=
  VObj [ ("streams",
          VArr [ VObj [ ("index", VNum (of_Z 1)); ("codec_type", VStr "audio");
                        ("sample_rate", VStr "N/A"); ("bit_rate", VStr " ") ] ]);
         ("format", VObj [ ("duration", VStr "N/A") ]) ].

(** Texts put end to end. *)
Definition whole (chunks : list string) : string :=
  fold_right String.append "" chunks.

(** The texts of the chunks of a stream, each decoded on its own. *)
Definition texts (chunks : list Buffer) : list string := map toString chunks.

(** The chunk ends between two characters. *)
Definition ends_at_rest (data : Buffer) : bool :=
  at_rest (decoder_after Rest data).

(** No chunk but the last ends inside a character. *)
Definition cut_between_characters (chunks : list Buffer) : Prop :=
  Forall (fun data => ends_at_rest data = true) (removelast chunks).

(** The progress events of a job for [audioIndex], one per value. *)
Definition progress_messages (audioIndex : nat) (ps : list num)
  : list Main.Message :=
  map (fun p =>
         Main.SendProgress {| ev_audioIndex := audioIndex; progress := p |})
      ps.

(** The stderr chunks child [pid] delivers in a trace. *)
Fixpoint stderr_chunks (pid : nat) (evs : list Main.Event) : list Buffer :=
  match evs with
  | [] => []
  | Main.Child_stderr p data :: rest =>
      if (p =? pid)%nat then data :: stderr_chunks pid rest
      else stderr_chunks pid rest
  | _ :: rest => stderr_chunks pid rest
  end.

(** The stderr text child [pid] delivers in a trace. *)
Definition stderr_of (pid : nat) (evs : list Main.Event) : string :=
  whole (texts (stderr_chunks pid evs)).

(** The event that ends child [pid]: its [close] or its [error]. *)
Definition ends (pid : nat) (ev : Main.Event) : bool :=
  match ev with
  | Main.Child_close p _ | Main.Child_error p _ => (p =? pid)%nat
  | _ => false
  end.

(** What an event that does not end child [pid] leaves of it. *)
Definition same_child (c c' : Main.Child) (more_err : string) : Prop :=
  Main.command c' = Main.command c
  /\ Main.arguments c' = Main.arguments c
  /\ Main.job c' = Main.job c
  /\ Main.running c' = Main.running c
  /\ Main.settled c' = Main.settled c
  /\ Main.err c' = Main.err c ++ more_err.

(** A trace in which child [pid] is not ended. *)
Definition goes_on (pid : nat) (evs : list Main.Event) : bool :=
  forallb (fun ev => negb (ends pid ev)) evs.

(** What the close handler of an encoder settles its promise with. *)
Definition exit_outcome (request : ExtractTrackRequest) (outputPath : string)
    (code : option Z) (stderr : string) : Completion Main.IpcValue :=
  match code with
  | Some 0%Z =>
      Normal (Main.RExtract
                {| res_audioIndex := req_audioIndex request;
                   outputPath := outputPath |})
  | _ =>
      Throw (mkError PlainError
               ("ffmpeg exited with code " ++ Probe.code_text code ++ ". "
                ++ trim stderr))
  end.

(** The elapsed times the encoder reports: [Number(value)] of each line
    whose key is [out_time_ms]. *)
Fixpoint out_times (lines : list string) : list num :=
  match lines with
  | [] => []
  | line :: rest =>
      let '(key, value) := Extract.key_value line in
      if Extract.is_out_time_ms key
      then Extract.Number_opt value :: out_times rest
      else out_times rest
  end.

Fixpoint nondecreasing (l : list num) : Prop :=
  match l with
  | a :: (b :: _) as rest => JS.le a b /\ nondecreasing rest
  | _ => True
  end.

Definition in_unit_interval (p : num) : Prop :=
  JS.le (Fin 0) p /\ JS.le p (Fin 1).

(** A duration above 0, infinity included. *)
Definition positive (d : num) : Prop :=
  match d with
  | PosInf => True
  | Fin q => (0 < q)%Q
  | _ => False
  end.

Definition finite (t : num) : Prop :=
  match t with
  | Fin _ => True
  | _ => False
  end.

(** The progress values of a job with a known duration whose stdout has
    come in [chunks] after [buffer]: one per out_time_ms line. *)
Definition progress_values (request : ExtractTrackRequest) (buffer : string)
    (chunks : list Buffer) : list num :=
  if Extract.duration_known request then
    map (fun ms =>
           Math_min
             (div ms (mul (Extract.duration_num request) (of_Z 1000000)))
             (Fin 1))
        (out_times (fst (Extract.linesOfChunks buffer (texts chunks))))
  else [].

(** A line of the encoder's progress output. *)
Definition line (text : string) : string := text ++ String LF "".

(** *** A platform and a session for worked runs *)

(** [path.join] on POSIX for a normalised directory and a file name. *)
Definition posix_join (a b : string) : string := a ++ "/" ++ b.

Definition session_dir : string := "/tmp/audio-track-selector-Ab3xYz".

Definition request_0 (d : option num) : ExtractTrackRequest :=
  {| req_filePath := "/videos/a.mkv"; req_audioIndex := 0;
     req_duration := d |}.

Definition ten_seconds : option num := Some (of_Z 10).

Definition ex_step : Main.State -> Main.Event -> Main.State :=
  Main.step (Some "/opt/ffmpeg") (Some "/opt/ffprobe") "/tmp" posix_join
    (parse_only "null" VNull).

Definition ex_run : Main.State -> list Main.Event -> Main.State :=
  Main.run (Some "/opt/ffmpeg") (Some "/opt/ffprobe") "/tmp" posix_join
    (parse_only "null" VNull).

(** The main process waiting for the directory of [request]. *)
Definition asked (request : ExtractTrackRequest) : Main.State :=
  ex_step Main.ready (Main.Invoke_extractTrack request).

(** The main process once it has spawned the encoder for [request]. *)
Definition extracting (request : ExtractTrackRequest) : Main.State :=
  ex_step (asked request) (Main.Mkdtemp_settled 0 (Normal session_dir)).

(** The renderer with the file of [parsed_2_5_7] probed. *)
Definition probed : Renderer.State :=
  {| Renderer.status := Ready;
     Renderer.filePath := Some "/videos/a.mkv";
     Renderer.probeResult := Some (walked "/videos/a.mkv" parsed_2_5_7);
     Renderer.tracks :=
       Renderer.seedTracks (walked "/videos/a.mkv" parsed_2_5_7) |}.

(** The encoder of [request] as [extracting] has spawned it. *)
Definition encoder_0 (request : ExtractTrackRequest) : Main.Child :=
  {| Main.command := "/opt/ffmpeg";
     Main.arguments :=
       Extract.args request (posix_join session_dir (Extract.fileName 0));
     Main.job :=
       Main.Ffmpeg request (posix_join session_dir (Extract.fileName 0));
     Main.out := ""; Main.err := ""; Main.running := true;
     Main.settled := None |}.

(** Two progress lines cut inside a value, between CR and LF and inside a
    key, and the beginning of a third line. *)
Definition cut_stream : list Buffer :=
  map Buffer_from
    [ "out_time_ms=50"; "00000" ++ String CR ""; String LF "out_ti";
      "me_ms=7000000" ++ String LF "progress=co" ].

(** A progress line whose value is followed by U+00A0, a white space of
    two bytes, in one chunk and cut between the two. *)
Definition padded_line : list Buffer :=
  [ (Buffer_from "out_time_ms=5000000" ++ [xc2; xa0; x0a])%list ].

Definition padded_line_cut : list Buffer :=
  [ (Buffer_from "out_time_ms=5000000" ++ [xc2])%list; [xa0; x0a] ].

Definition response_0 : ExtractTrackResponse :=
  {| res_audioIndex := 0;
     outputPath := "/tmp/audio-track-selector-Ab3xYz/track_0.wav" |}.

(** What happens between the spawn of encoder 0 and its close: a progress
    line, its complaint in two pieces, and a cleanup request in between,
    whose [fs.rm] (the second call of [fs]) succeeds. *)
Definition meanwhile : list Main.Event :=
  [ Main.Child_stdout 0 (Buffer_from (line "out_time_ms=5000000"));
    Main.Child_stderr 0 (Buffer_from "Invalid ");
    Main.Invoke_cleanupTemp;
    Main.Rm_settled 1 (Normal tt);
    Main.Child_stderr 0 (Buffer_from (line "stream")) ].

Definition rising : list Buffer :=
  map Buffer_from
    [ line "out_time_ms=2000000"; line "out_time_ms=5000000";
      line "out_time_ms=20000000" ].

(** *** Vocabulary of the further properties *)

(** The stdout chunks child [pid] delivers in a trace. *)
Fixpoint stdout_chunks (pid : nat) (evs : list Main.Event) : list Buffer :=
  match evs with
  | [] => []
  | Main.Child_stdout p data :: rest =>
      if (p =? pid)%nat then data :: stdout_chunks pid rest
      else stdout_chunks pid rest
  | _ :: rest => stdout_chunks pid rest
  end.

(** The stdout text child [pid] delivers in a trace. *)
Definition stdout_of (pid : nat) (evs : list Main.Event) : string :=
  whole (texts (stdout_chunks pid evs)).

(** What an event that does not end child [pid] makes of it. *)
Definition touched (pid : nat) (ev : Main.Event) (c : Main.Child)
  : Main.Child :=
  match ev with
  | Main.Child_stdout p data =>
      if (p =? pid)%nat then
        match Main.job c with
        | Main.Ffprobe _ => Main.set_out (Main.out c ++ toString data) c
        | Main.Ffmpeg request _ =>
            Main.set_out
              (fst (Extract.onData request (Main.out c) (toString data))) c
        end
      else c
  | Main.Child_stderr p data =>
      if (p =? pid)%nat then Main.set_err (Main.err c ++ toString data) c
      else c
  | _ => c
  end.

(** The requests that make [cleanupTempDir] run. *)
Definition is_occasion (ev : Main.Event) : bool :=
  match ev with
  | Main.Invoke_probeFile _ | Main.Invoke_cleanupTemp
  | Main.App_beforeQuit => true
  | _ => false
  end.

(** The events in which a call of [fs] settles. *)
Definition is_settlement (ev : Main.Event) : bool :=
  match ev with
  | Main.Mkdtemp_settled _ _ | Main.Rm_settled _ _ => true
  | _ => false
  end.

(** A trace without occasion and in which no call of [fs] settles. *)
Definition undisturbed (evs : list Main.Event) : bool :=
  forallb (fun ev => negb (is_occasion ev) && negb (is_settlement ev)) evs.

Fixpoint has_LF (s : string) : bool :=
  match s with
  | "" => false
  | String c rest => Ascii.eqb c LF || has_LF rest
  end.

(** The log line of a failed job. *)
Definition failure_log (st : Main.State) (j : Main.Job) (e : JsError)
  : list Main.Message :=
  if Main.mainWindow st then
    [ Main.SendLog
        {| level := error;
           log_message := Main.failure_prefix j ++ message e |} ]
  else [].

(** What a child was spawned with. *)
Definition spawned_with (c : Main.Child) : string * list string * Main.Job :=
  (Main.command c, Main.arguments c, Main.job c).

(** A child running the binary and the arguments of its job. *)
Definition spawned_for_its_job (ffmpegPath ffprobePath : string)
    (w : string * list string * Main.Job) : Prop :=
  match w with
  | (cmd, argv, Main.Ffprobe filePath) =>
      cmd = ffprobePath /\ argv = Probe.args filePath
  | (cmd, argv, Main.Ffmpeg request path) =>
      cmd = ffmpegPath /\ argv = Extract.args request path
  end.

(** A message the jobs account for: a log line, or a progress value that
    is at most 1 (or NaN) for the index of an encoder among them. *)
Definition message_sound (ws : list (string * list string * Main.Job))
    (m : Main.Message) : Prop :=
  match m with
  | Main.SendLog _ => True
  | Main.SendProgress e =>
      (progress e = NaN \/ JS.le (progress e) (Fin 1))
      /\ exists cmd argv request path,
           In (cmd, argv, Main.Ffmpeg request path) ws
           /\ req_audioIndex request = ev_audioIndex e
  end.

(** The record [handleOpenFile] makes of a probed track. *)
Definition seeded (track : AudioTrackInfo) (t : Renderer.TrackState) : Prop :=
  Renderer.info t = track
  /\ Renderer.enabled t = false /\ Renderer.muted t = false
  /\ Renderer.volume t = 100%Z /\ Renderer.extracting t = false
  /\ Renderer.progress t = Fin 0 /\ Renderer.error t = None
  /\ Renderer.outputPath t = None.

(** A track record after an update addressed to index [i]: the same
    track, and the same record if it is another track. *)
Definition same_track (i : nat) (t t' : Renderer.TrackState) : Prop :=
  Renderer.info t' = Renderer.info t
  /\ (audioIndex (Renderer.info t) <> i -> t' = t).

(** The same, for an update that does not store an output path. *)
Definition same_track_and_output (i : nat) (t t' : Renderer.TrackState)
  : Prop :=
  same_track i t t' /\ Renderer.outputPath t' = Renderer.outputPath t.

(** The track with index [i] is among the enabled, extracted ones. *)
Definition is_enabled (i : nat) (tracks : list Renderer.TrackState) : bool :=
  existsb (fun track => (audioIndex (Renderer.info track) =? i)%nat)
          (Player.enabledTracks tracks).

(** [node.element.currentTime - video.currentTime] *)
Definition drift_of (video : Player.Video) (node : Player.AudioNodeState)
  : num :=
  JSMath.sub (Player.currentTime node) (Player.v_currentTime video).

Definition index_of (track : Renderer.TrackState) : nat :=
  audioIndex (Renderer.info track).

(** *** Further worked runs *)

Definition spawn_error : JsError :=
  mkError SystemError "spawn /opt/ffmpeg ENOENT".

Definition mkdtemp_error : JsError :=
  mkError SystemError "EACCES: permission denied, mkdtemp".

Definition request_1 : ExtractTrackRequest :=
  {| req_filePath := "/videos/a.mkv"; req_audioIndex := 1;
     req_duration := ten_seconds |}.

Definition other_dir : string := "/tmp/audio-track-selector-Qr7sTu".

(** Two requests made before there is a session directory, and the
    directory of the first. *)
Definition two_waiting : Main.State :=
  ex_run Main.ready
    [ Main.Invoke_extractTrack (request_0 ten_seconds);
      Main.Invoke_extractTrack request_1;
      Main.Mkdtemp_settled 0 (Normal session_dir) ].

Definition progress_line : list Main.Event :=
  [ Main.Child_stdout 0 (Buffer_from (line "out_time_ms=5000000")) ].

(** A prober whose output [{}] arrives in two chunks, with a warning. *)
Definition probe_meanwhile : list Main.Event :=
  [ Main.Child_stdout 0 (Buffer_from "{");
    Main.Child_stderr 0 (Buffer_from "warning");
    Main.Child_stdout 0 (Buffer_from "}") ].

Definition probe_run : Main.State -> list Main.Event -> Main.State :=
  Main.run (Some "/opt/ffmpeg") (Some "/opt/ffprobe") "/tmp" posix_join
    (parse_only "{}" (VObj [])).

(** The record of track 0 of [probed]. *)
Definition record_0 : Renderer.TrackState :=
  {| Renderer.info := track_of 0 (stream_example 2 "audio");
     Renderer.enabled := false; Renderer.muted := false;
     Renderer.volume := 100; Renderer.extracting := false;
     Renderer.progress := Fin 0; Renderer.error := None;
     Renderer.outputPath := None |}.

(** The records once track 0 is enabled and extracted. *)
Definition playing : list Renderer.TrackState :=
  Renderer.tracks
    (Renderer.extractResolved 0 response_0
       (fst (Renderer.handleEnableTrack 0 true probed))).

Definition playing_0 : Renderer.TrackState :=
  {| Renderer.info := track_of 0 (stream_example 2 "audio");
     Renderer.enabled := true; Renderer.muted := false;
     Renderer.volume := 100; Renderer.extracting := false;
     Renderer.progress := Fin 1; Renderer.error := None;
     Renderer.outputPath := Some (outputPath response_0) |}.

(** The video at 10.30 s, playing at the nominal rate. *)
Definition video_at_10_30 : Player.Video :=
  {| Player.v_currentTime := Fin (1030 # 100);
     Player.v_playbackRate := Fin 1; Player.v_paused := false |}.

(** A node at [t] seconds, playing at rate [r]. *)
Definition node_at (t r : Q) : Player.AudioNodeState :=
  {| Player.currentTime := Fin t; Player.playbackRate := Fin r;
     Player.paused := false; Player.gain := Fin 1 |}.

(** The node map with one node, for track 0. *)
Definition only_0 (n : Player.AudioNodeState) : Player.Nodes :=
  fun j => if (j =? 0)%nat then Some n else None.

(* ================================================================== *)
(** ** Properties *)
(* ================================================================== *)

Section Properties.

Variable ffmpegStatic ffprobeStatic : option string.
Variable os_tmpdir : string.
Variable path_join : string -> string -> string.
Variable JSON_parse : string -> Completion JsVal.

Local Abbreviation step :=
  (Main.step ffmpegStatic ffprobeStatic os_tmpdir path_join JSON_parse).
Local Abbreviation run :=
  (Main.run ffmpegStatic ffprobeStatic os_tmpdir path_join JSON_parse).
Local Abbreviation base := (path_join os_tmpdir "audio-track-selector-").
Local Abbreviation spawned_by :=
  (spawns (Main.getFfmpegPath ffmpegStatic) (Main.getFfprobePath ffprobeStatic)
     path_join).

(** *** The file dialog *)

(** C10.  The open-file handler answers [null] when the dialog was canceled
    or gave no path, and the first selected path otherwise; the renderer's
    [openFile] receives that answer as a resolved value. *)
Theorem openFile_null_or_first_path :
  forall (st : Main.State) (result : Main.OpenDialogReturnValue),
    Main.openFile result =
      (if Main.canceled result then None
       else match Main.filePaths result with
            | [] => None
            | p :: _ => Some p
            end)
    /\ Main.replies (step st (Main.Invoke_openFile result)) =
         (Main.replies st
          ++ [Normal (Main.RPath (Main.openFile result))])%list.
Proof.
  intros st [c ps]; split; [|reflexivity].
  unfold Main.openFile; simpl.
  destruct c; [reflexivity|].
  destruct ps; reflexivity.
Qed.

(** *** What the handlers leave as it is *)

Lemma fsOps_logToRenderer :
  forall e st, Main.fsOps (Main.logToRenderer e st) = Main.fsOps st.
Proof. intros e st; unfold Main.logToRenderer; destruct (Main.mainWindow st); reflexivity. Qed.

Lemma tempDir_logToRenderer :
  forall e st, Main.tempDir (Main.logToRenderer e st) = Main.tempDir st.
Proof. intros e st; unfold Main.logToRenderer; destruct (Main.mainWindow st); reflexivity. Qed.

Lemma children_logToRenderer :
  forall e st, Main.children (Main.logToRenderer e st) = Main.children st.
Proof. intros e st; unfold Main.logToRenderer; destruct (Main.mainWindow st); reflexivity. Qed.

Lemma replies_logToRenderer :
  forall e st, Main.replies (Main.logToRenderer e st) = Main.replies st.
Proof. intros e st; unfold Main.logToRenderer; destruct (Main.mainWindow st); reflexivity. Qed.

Lemma mainWindow_logToRenderer :
  forall e st, Main.mainWindow (Main.logToRenderer e st) = Main.mainWindow st.
Proof.
  intros e st; unfold Main.logToRenderer.
  destruct (Main.mainWindow st) eqn:E; simpl; congruence.
Qed.

Lemma sent_logToRenderer :
  forall e st,
    Main.sent (Main.logToRenderer e st)
    = (Main.sent st ++ if Main.mainWindow st then [Main.SendLog e] else [])%list.
Proof.
  intros e st. unfold Main.logToRenderer.
  destruct (Main.mainWindow st); [reflexivity|now rewrite app_nil_r].
Qed.

Lemma tempDir_set_eq :
  forall st st', Main.tempDir st' = Main.tempDir st ->
    Main.tempDir_set st' = Main.tempDir_set st.
Proof. intros st st' H; unfold Main.tempDir_set; now rewrite H. Qed.

Lemma tempDir_set_Some :
  forall st d, Main.tempDir_set st = Some d -> Main.tempDir st = Some d.
Proof.
  intros st d H. unfold Main.tempDir_set in H.
  destruct (Main.tempDir st) as [d0|]; [|discriminate].
  destruct (truthy_str d0); congruence.
Qed.

Lemma same_fs_refl : forall st, same_fs st st.
Proof. now split. Qed.

Lemma same_fs_trans :
  forall a b c, same_fs a b -> same_fs b c -> same_fs a c.
Proof. intros a b c [] []; split; congruence. Qed.

Lemma same_fs_logToRenderer : forall e st, same_fs st (Main.logToRenderer e st).
Proof.
  intros e st; split;
    [apply fsOps_logToRenderer|apply tempDir_logToRenderer
    |apply mainWindow_logToRenderer].
Qed.

Lemma same_fs_runFfprobe :
  forall filePath st,
    same_fs st (Main.runFfprobe ffprobeStatic filePath st).
Proof.
  intros filePath st. unfold Main.runFfprobe, Main.spawn.
  destruct (same_fs_logToRenderer
    {| level := info;
       log_message := "Running ffprobe: " ++ Main.getFfprobePath ffprobeStatic |}
    st) as [H1 H2 H3].
  split; cbn [Main.set_children Main.fsOps Main.tempDir Main.mainWindow];
    assumption.
Qed.

Lemma same_fs_runFfmpegExtraction :
  forall request dir st,
    same_fs st (Main.runFfmpegExtraction ffmpegStatic path_join request dir st).
Proof.
  intros request dir st. unfold Main.runFfmpegExtraction, Main.spawn.
  match goal with
  | |- context [Main.logToRenderer ?e st] =>
      destruct (same_fs_logToRenderer e st) as [H1 H2 H3]
  end.
  split; cbn [Main.set_children Main.fsOps Main.tempDir Main.mainWindow];
    assumption.
Qed.

Lemma same_fs_failed :
  forall prefix e st, same_fs st (Main.failed prefix e st).
Proof.
  intros prefix e st. unfold Main.failed.
  match goal with
  | |- context [Main.logToRenderer ?e st] =>
      destruct (same_fs_logToRenderer e st) as [H1 H2 H3]
  end.
  split; cbn [Main.reply Main.fsOps Main.tempDir Main.mainWindow]; assumption.
Qed.

Lemma same_fs_afterCleanup :
  forall caller st, same_fs st (Main.afterCleanup ffprobeStatic caller st).
Proof.
  intros [filePath| |] st; cbn [Main.afterCleanup].
  - apply same_fs_runFfprobe.
  - now split.
  - apply same_fs_refl.
Qed.

(** *** Calls of [fs] and the functions that await them *)

Lemma nth_error_update :
  forall (A : Type) (cs : list A) pid pid' f,
    nth_error (Main.update pid' f cs) pid
    = if (pid =? pid')%nat then option_map f (nth_error cs pid)
      else nth_error cs pid.
Proof.
  induction cs as [|c cs IH]; intros pid pid' f.
  - destruct pid, pid'; simpl; try reflexivity.
    now destruct (pid =? pid')%nat.
  - destruct pid' as [|n']; destruct pid as [|n]; simpl; try reflexivity.
    apply IH.
Qed.

Lemma length_update :
  forall (A : Type) (cs : list A) pid f,
    List.length (Main.update pid f cs) = List.length cs.
Proof.
  induction cs as [|c cs IH]; intros [|n] f; simpl; auto.
Qed.

Lemma map_call_update :
  forall ops id,
    map Main.call (Main.update id Main.set_settled_fs ops) = map Main.call ops.
Proof.
  induction ops as [|op ops IH]; intros [|n]; cbn [Main.update map];
    try reflexivity.
  now rewrite IH.
Qed.

Lemma nth_error_snoc :
  forall (A : Type) (l : list A) x, nth_error (l ++ [x]) (List.length l) = Some x.
Proof.
  intros A l x. rewrite nth_error_app2 by lia. now rewrite Nat.sub_diag.
Qed.

Lemma nth_error_spawned :
  forall (A : Type) (cs : list A) pid c x,
    nth_error cs pid = Some c -> nth_error (cs ++ [x]) pid = Some c.
Proof.
  intros A cs pid c x H. rewrite nth_error_app1; [exact H|].
  apply nth_error_Some. congruence.
Qed.

(** A request that finds the session directory spawns its encoder. *)
Lemma extractTrack_set :
  forall request d st,
    Main.tempDir_set st = Some d ->
    Main.extractTrack ffmpegStatic os_tmpdir path_join request st
    = Main.runFfmpegExtraction ffmpegStatic path_join request d st.
Proof.
  intros request d st H. unfold Main.extractTrack, Main.ensureTempDir.
  now rewrite H.
Qed.

(** A request that finds none asks for one and waits. *)
Lemma extractTrack_unset :
  forall request st,
    Main.tempDir_set st = None ->
    Main.extractTrack ffmpegStatic os_tmpdir path_join request st
    = Main.call_fs (Main.Mkdtemp base) (Main.InEnsureTempDir request) st.
Proof.
  intros request st H. unfold Main.extractTrack, Main.ensureTempDir.
  now rewrite H.
Qed.

Lemma awaitCleanup_set :
  forall caller d st,
    Main.tempDir_set st = Some d ->
    Main.awaitCleanup ffprobeStatic caller st
    = Main.call_fs (Main.Rm d true true) (Main.InCleanupTempDir caller) st.
Proof.
  intros caller d st H. unfold Main.awaitCleanup, Main.cleanupTempDir.
  now rewrite H.
Qed.

Lemma awaitCleanup_unset :
  forall caller st,
    Main.tempDir_set st = None ->
    Main.awaitCleanup ffprobeStatic caller st
    = Main.afterCleanup ffprobeStatic caller st.
Proof.
  intros caller st H. unfold Main.awaitCleanup, Main.cleanupTempDir.
  now rewrite H.
Qed.

Lemma step_occasion :
  forall o st,
    step st (occasion_event o)
    = Main.awaitCleanup ffprobeStatic (caller_of o) st.
Proof. intros [filePath| |] st; reflexivity. Qed.

Lemma pendingOp_Some :
  forall id st op,
    Main.pendingOp id st = Some op ->
    nth_error (Main.fsOps st) id = Some op /\ Main.pending op = true.
Proof.
  intros id st op H. unfold Main.pendingOp in H.
  destruct (nth_error (Main.fsOps st) id) as [op0|]; [|discriminate].
  destruct (Main.pending op0) eqn:P; [|discriminate].
  injection H as <-. auto.
Qed.

Lemma pendingOp_intro :
  forall id st op,
    nth_error (Main.fsOps st) id = Some op -> Main.pending op = true ->
    Main.pendingOp id st = Some op.
Proof. intros id st op H P. unfold Main.pendingOp. now rewrite H, P. Qed.

Lemma pendingOp_call_fs :
  forall c a st,
    Main.pendingOp (List.length (Main.fsOps st)) (Main.call_fs c a st)
    = Some {| Main.call := c; Main.awaiting := a; Main.pending := true |}.
Proof.
  intros c a st. apply pendingOp_intro; [|reflexivity].
  unfold Main.call_fs. cbn [Main.set_fsOps Main.fsOps]. apply nth_error_snoc.
Qed.

Lemma fsSettled_fields :
  forall id st,
    Main.fsCalls (Main.fsSettled id st) = Main.fsCalls st
    /\ Main.tempDir (Main.fsSettled id st) = Main.tempDir st
    /\ Main.mainWindow (Main.fsSettled id st) = Main.mainWindow st
    /\ Main.children (Main.fsSettled id st) = Main.children st
    /\ Main.sent (Main.fsSettled id st) = Main.sent st
    /\ Main.replies (Main.fsSettled id st) = Main.replies st.
Proof.
  intros id st. unfold Main.fsSettled, Main.fsCalls.
  cbn [Main.set_fsOps Main.fsOps Main.tempDir Main.mainWindow Main.children
       Main.sent Main.replies].
  rewrite map_call_update. auto 6.
Qed.

Lemma grows_refl : forall st, grows st st [] [].
Proof.
  intros st; split; rewrite ?app_nil_r; try reflexivity.
  exists []. now rewrite app_nil_r.
Qed.

Lemma grows_trans :
  forall a b c cs cs' rs rs',
    grows a b cs rs -> grows b c cs' rs' ->
    grows a c (cs ++ cs') (rs ++ rs').
Proof.
  intros a b c cs cs' rs rs' [H1 H2 (l & H3 & L)] [H1' H2' (l' & H3' & L')].
  split.
  - now rewrite H1', H1, app_assoc.
  - now rewrite H2', H2, app_assoc.
  - exists (l ++ l')%list. split; [now rewrite H3', H3, app_assoc|].
    apply Forall_app. now split.
Qed.

Lemma grows_logToRenderer :
  forall e st, grows st (Main.logToRenderer e st) [] [].
Proof.
  intros e st. split.
  - now rewrite children_logToRenderer, app_nil_r.
  - now rewrite replies_logToRenderer, app_nil_r.
  - eexists. split; [apply sent_logToRenderer|].
    destruct (Main.mainWindow st); repeat constructor.
Qed.

Lemma grows_spawn :
  forall cmd argv j st,
    grows st (Main.spawn cmd argv j st) [spawned cmd argv j] [].
Proof.
  intros cmd argv j st. split; cbn; rewrite ?app_nil_r; try reflexivity.
  exists []. now rewrite app_nil_r.
Qed.

Lemma grows_call_fs :
  forall c a st, grows st (Main.call_fs c a st) [] [].
Proof.
  intros c a st. split; cbn; rewrite ?app_nil_r; try reflexivity.
  exists []. now rewrite app_nil_r.
Qed.

Lemma grows_reply :
  forall r st, grows st (Main.reply r st) [] [r].
Proof.
  intros r st. split; cbn; rewrite ?app_nil_r; try reflexivity.
  exists []. now rewrite app_nil_r.
Qed.

Lemma grows_runFfprobe :
  forall filePath st,
    grows st (Main.runFfprobe ffprobeStatic filePath st)
      [probe_child (Main.getFfprobePath ffprobeStatic) filePath] [].
Proof.
  intros filePath st. unfold Main.runFfprobe.
  eapply (grows_trans _ _ _ [] _ [] []);
    [apply grows_logToRenderer|apply grows_spawn].
Qed.

Lemma grows_runFfmpegExtraction :
  forall request dir st,
    grows st (Main.runFfmpegExtraction ffmpegStatic path_join request dir st)
      [encoder_child (Main.getFfmpegPath ffmpegStatic) path_join request dir]
      [].
Proof.
  intros request dir st. unfold Main.runFfmpegExtraction.
  eapply (grows_trans _ _ _ [] _ [] []);
    [apply grows_logToRenderer|apply grows_spawn].
Qed.

Lemma grows_failed :
  forall prefix e st, grows st (Main.failed prefix e st) [] [Throw e].
Proof.
  intros prefix e st. unfold Main.failed.
  eapply (grows_trans _ _ _ [] [] [] _);
    [apply grows_logToRenderer|apply grows_reply].
Qed.

Lemma grows_same :
  forall st st' st'' cs rs,
    Main.children st' = Main.children st ->
    Main.replies st' = Main.replies st ->
    Main.sent st' = Main.sent st ->
    grows st' st'' cs rs -> grows st st'' cs rs.
Proof.
  intros st st' st'' cs rs H1 H2 H3 [G1 G2 (l & G3 & L)].
  split; [congruence|congruence|]. exists l. split; [congruence|exact L].
Qed.

Lemma grows_set_tempDir :
  forall d st st' cs rs,
    grows st st' cs rs -> grows st (Main.set_tempDir d st') cs rs.
Proof. intros d st st' cs rs [H1 H2 H3]. now split. Qed.

Lemma grows_cleanupTempDir_resumed :
  forall rm st, grows st (Main.cleanupTempDir_resumed rm st) [] [].
Proof.
  intros rm st. unfold Main.cleanupTempDir_resumed.
  apply grows_set_tempDir.
  destruct rm as [u|e]; [apply grows_refl|apply grows_logToRenderer].
Qed.

(** What an event that is not a child's does: it spawns what [spawns]
    says, adds log lines and answers, and leaves the rest. *)
Lemma step_grows :
  forall st ev,
    of_child ev = false ->
    exists rs, grows st (step st ev) (spawned_by st ev) rs.
Proof.
  intros st ev Hev.
  destruct ev as [result|filePath|request| | |id mk|id rm|p data|p data|p code|p e];
    try discriminate; cbn [Main.step spawns].
  - eexists. apply grows_reply.
  - unfold Main.probeFile, Main.awaitCleanup, Main.cleanupTempDir.
    destruct (Main.tempDir_set st).
    + exists []. apply grows_call_fs.
    + exists []. cbn [Main.afterCleanup]. apply grows_runFfprobe.
  - unfold Main.extractTrack, Main.ensureTempDir.
    destruct (Main.tempDir_set st).
    + exists []. apply grows_runFfmpegExtraction.
    + exists []. apply grows_call_fs.
  - unfold Main.cleanupTemp, Main.awaitCleanup, Main.cleanupTempDir.
    destruct (Main.tempDir_set st).
    + exists []. apply grows_call_fs.
    + eexists. cbn [Main.afterCleanup]. apply grows_reply.
  - unfold Main.beforeQuit, Main.awaitCleanup, Main.cleanupTempDir.
    destruct (Main.tempDir_set st).
    + exists []. apply grows_call_fs.
    + exists []. cbn [Main.afterCleanup]. apply grows_refl.
  - unfold Main.onMkdtemp.
    destruct (Main.pendingOp id st) as [op|];
      [|destruct mk; exists []; apply grows_refl].
    destruct (Main.awaiting op) as [request|caller];
      [|destruct mk; exists []; apply grows_refl].
    destruct (fsSettled_fields id st) as (_ & _ & _ & F1 & F2 & F3).
    unfold Main.extractTrack_resumed, Main.ensureTempDir_resumed.
    destruct mk as [d|e].
    + exists []. apply (grows_same _ (Main.set_tempDir (Some d) (Main.fsSettled id st)));
        try assumption.
      apply grows_runFfmpegExtraction.
    + eexists. apply (grows_same _ (Main.fsSettled id st)); try assumption.
      apply grows_failed.
  - unfold Main.onRm.
    destruct (Main.pendingOp id st) as [op|]; [|exists []; apply grows_refl].
    destruct (Main.awaiting op) as [request|caller];
      [exists []; apply grows_refl|].
    destruct (fsSettled_fields id st) as (_ & _ & _ & F1 & F2 & F3).
    assert (G : grows st (Main.cleanupTempDir_resumed rm (Main.fsSettled id st))
                  [] []).
    { apply (grows_same _ (Main.fsSettled id st)); try assumption.
      apply grows_cleanupTempDir_resumed. }
    destruct caller as [filePath| |]; cbn [Main.afterCleanup].
    + exists []. eapply (grows_trans _ _ _ [] _ [] []); [exact G|].
      apply grows_runFfprobe.
    + eexists. eapply (grows_trans _ _ _ [] [] [] _); [exact G|].
      apply grows_reply.
    + exists []. exact G.
Qed.

Lemma same_fs_set_children :
  forall cs st, same_fs st (Main.set_children cs st).
Proof. now split. Qed.

Lemma sendProgress_frame :
  forall i ps st,
    Main.sent (Main.sendProgress i ps st)
    = (Main.sent st
       ++ if Main.mainWindow st then progress_messages i ps else [])%list
    /\ Main.children (Main.sendProgress i ps st) = Main.children st
    /\ Main.mainWindow (Main.sendProgress i ps st) = Main.mainWindow st
    /\ Main.tempDir (Main.sendProgress i ps st) = Main.tempDir st
    /\ Main.fsOps (Main.sendProgress i ps st) = Main.fsOps st
    /\ Main.replies (Main.sendProgress i ps st) = Main.replies st.
Proof.
  intros i ps; unfold Main.sendProgress.
  induction ps as [|p ps IH]; intros st.
  - simpl. destruct (Main.mainWindow st); rewrite app_nil_r; auto 6.
  - cbn [fold_left].
    destruct (Main.mainWindow st) eqn:W.
    + destruct (IH (Main.send
        (Main.SendProgress {| ev_audioIndex := i; progress := p |}) st))
        as (H1 & H2 & H3 & H4 & H5 & H6).
      rewrite H1, H2, H3, H4, H5, H6. cbn [Main.send Main.sent Main.children
        Main.mainWindow Main.tempDir Main.fsOps Main.replies].
      rewrite W. cbn [progress_messages map].
      rewrite <- app_assoc. auto 6.
    + destruct (IH st) as (H1 & H2 & H3 & H4 & H5 & H6).
      rewrite H1, H2, H3, H4, H5, H6, W. auto 6.
Qed.

Lemma same_fs_settle :
  forall pid r st, same_fs st (Main.settle pid r st).
Proof.
  intros pid r st. unfold Main.settle.
  destruct (nth_error (Main.children st) pid) as [c|]; [|apply same_fs_refl].
  destruct (Main.settled c); [apply same_fs_refl|].
  destruct r as [v|e].
  - now split.
  - eapply same_fs_trans; [|apply same_fs_failed]. now split.
Qed.

(** The events of the children and the file dialog make no call of [fs]
    and leave the session directory. *)
Lemma step_same_fs :
  forall st ev,
    (of_child ev = true \/ exists result, ev = Main.Invoke_openFile result) ->
    same_fs st (step st ev).
Proof.
  intros st ev [H|[result ->]]; [|now split].
  destruct ev as [result|filePath|request| | |id mk|id rm|p data|p data|p code|p e];
    try discriminate; cbn [Main.step].
  - unfold Main.onStdout.
    destruct (nth_error (Main.children st) p) as [cp|]; [|apply same_fs_refl].
    destruct (Main.job cp) as [f|request path]; [now split|].
    destruct (Extract.onData request (Main.out cp) (toString data))
      as [buffer ps].
    match goal with
    | |- context [Main.sendProgress ?i ?l ?s0] =>
        destruct (sendProgress_frame i l s0) as (_ & _ & H3 & H4 & H5 & _)
    end.
    now split.
  - unfold Main.onStderr.
    destruct (nth_error (Main.children st) p) as [cp|]; now split.
  - unfold Main.onClose.
    destruct (nth_error (Main.children st) p) as [cp|]; [|apply same_fs_refl].
    eapply same_fs_trans; [|apply same_fs_settle]. now split.
  - apply same_fs_settle.
Qed.

(** The calls of [fs] after an event that settles none: those there were,
    and the one the event makes. *)
Lemma fsOps_step :
  forall st ev,
    is_settlement ev = false ->
    Main.fsOps (step st ev) = (Main.fsOps st ++ asks base st ev)%list
    /\ Main.tempDir (step st ev) = Main.tempDir st.
Proof.
  intros st ev Hev.
  assert (Hclean : forall caller,
    Main.fsOps (Main.awaitCleanup ffprobeStatic caller st)
    = (Main.fsOps st ++ rm_for st caller)%list
    /\ Main.tempDir (Main.awaitCleanup ffprobeStatic caller st)
       = Main.tempDir st).
  { intros caller. unfold Main.awaitCleanup, Main.cleanupTempDir, rm_for.
    destruct (Main.tempDir_set st); [split; reflexivity|].
    destruct (same_fs_afterCleanup caller st) as [H1 H2 _].
    now rewrite H1, H2, app_nil_r. }
  destruct (of_child ev) eqn:C.
  { destruct (step_same_fs st ev (or_introl C)) as [H1 H2 _].
    rewrite H1, H2. destruct ev; try discriminate; cbn [asks];
      now rewrite app_nil_r. }
  destruct ev as [result|filePath|request| | |id mk|id rm|p data|p data|p code|p e];
    try discriminate; cbn [asks]; try apply Hclean.
  - cbn [Main.step]. rewrite app_nil_r. split; reflexivity.
  - cbn [Main.step]. unfold Main.extractTrack, Main.ensureTempDir.
    destruct (Main.tempDir_set st); [|split; reflexivity].
    destruct (same_fs_runFfmpegExtraction request s st) as [H1 H2 _].
    now rewrite H1, H2, app_nil_r.
Qed.

(** The calls of [fs] and the session directory after an event in which
    one of them settles. *)
Lemma fsOps_settled :
  forall st ev,
    is_settlement ev = true ->
    Main.fsOps (step st ev)
    = (if resumes st ev
       then match ev with
            | Main.Mkdtemp_settled id _ | Main.Rm_settled id _ =>
                Main.update id Main.set_settled_fs (Main.fsOps st)
            | _ => Main.fsOps st
            end
       else Main.fsOps st)
    /\ Main.tempDir (step st ev) = tempDir_after st ev.
Proof.
  intros st ev Hev.
  destruct ev as [result|filePath|request| | |id mk|id rm|p data|p data|p code|p e];
    try discriminate; cbn [Main.step]; unfold tempDir_after; cbn [resumes].
  - unfold Main.onMkdtemp.
    destruct (Main.pendingOp id st) as [op|]; [|auto].
    destruct (Main.awaiting op) as [request|caller]; [|auto].
    unfold Main.extractTrack_resumed, Main.ensureTempDir_resumed.
    destruct mk as [d|e].
    + match goal with
      | |- context [Main.runFfmpegExtraction _ _ ?r ?d ?s0] =>
          destruct (same_fs_runFfmpegExtraction r d s0) as [H1 H2 _]
      end.
      rewrite H1, H2. split; reflexivity.
    + match goal with
      | |- context [Main.failed ?p ?e ?s0] =>
          destruct (same_fs_failed p e s0) as [H1 H2 _]
      end.
      rewrite H1, H2. split; reflexivity.
  - unfold Main.onRm.
    destruct (Main.pendingOp id st) as [op|]; [|auto].
    destruct (Main.awaiting op) as [request|caller]; [auto|].
    match goal with
    | |- context [Main.afterCleanup _ ?c ?s0] =>
        destruct (same_fs_afterCleanup c s0) as [H1 H2 _]
    end.
    rewrite H1, H2. unfold Main.cleanupTempDir_resumed.
    cbn [Main.set_tempDir Main.fsOps Main.tempDir].
    destruct rm; [split; reflexivity|].
    now rewrite fsOps_logToRenderer.
Qed.

Lemma mainWindow_step :
  forall st ev, Main.mainWindow (step st ev) = Main.mainWindow st.
Proof.
  intros st ev.
  destruct (of_child ev) eqn:C.
  - now destruct (step_same_fs st ev (or_introl C)).
  - assert (Hclean : forall caller,
      Main.mainWindow (Main.awaitCleanup ffprobeStatic caller st)
      = Main.mainWindow st).
    { intros caller. unfold Main.awaitCleanup, Main.cleanupTempDir.
      destruct (Main.tempDir_set st); [reflexivity|].
      now destruct (same_fs_afterCleanup caller st). }
    destruct ev as [result|filePath|request| | |id mk|id rm|p data|p data|p code|p e];
      try discriminate; cbn [Main.step]; try apply Hclean.
    + reflexivity.
    + unfold Main.extractTrack, Main.ensureTempDir.
      destruct (Main.tempDir_set st); [|reflexivity].
      now destruct (same_fs_runFfmpegExtraction request s st).
    + unfold Main.onMkdtemp.
      destruct (Main.pendingOp id st) as [op|]; [|reflexivity].
      destruct (Main.awaiting op) as [request|caller]; [|reflexivity].
      unfold Main.extractTrack_resumed, Main.ensureTempDir_resumed.
      destruct mk as [d|e].
      * match goal with
        | |- context [Main.runFfmpegExtraction _ _ ?r ?d ?s0] =>
            destruct (same_fs_runFfmpegExtraction r d s0) as [_ _ H3]
        end.
        now rewrite H3.
      * match goal with
        | |- context [Main.failed ?p ?e ?s0] =>
            destruct (same_fs_failed p e s0) as [_ _ H3]
        end.
        now rewrite H3.
    + unfold Main.onRm.
      destruct (Main.pendingOp id st) as [op|]; [|reflexivity].
      destruct (Main.awaiting op) as [request|caller]; [reflexivity|].
      match goal with
      | |- context [Main.afterCleanup _ ?c ?s0] =>
          destruct (same_fs_afterCleanup c s0) as [_ _ H3]
      end.
      rewrite H3. unfold Main.cleanupTempDir_resumed.
      cbn [Main.set_tempDir Main.mainWindow].
      destruct rm; [reflexivity|]. now rewrite mainWindow_logToRenderer.
Qed.

(** A call of [fs] stays as it is until the event in which it settles. *)
Lemma pending_step :
  forall st ev id op,
    Main.pendingOp id st = Some op ->
    settles id ev = false ->
    Main.pendingOp id (step st ev) = Some op.
Proof.
  intros st ev id op Hop Hev.
  apply pendingOp_Some in Hop as [Hn Hp].
  apply pendingOp_intro; [|exact Hp].
  destruct (is_settlement ev) eqn:S.
  - destruct (fsOps_settled st ev S) as [H _]. rewrite H.
    destruct (resumes st ev); [|exact Hn].
    destruct ev; try discriminate; cbn [settles] in Hev;
      rewrite nth_error_update, Nat.eqb_sym, Hev; exact Hn.
  - destruct (fsOps_step st ev S) as [H _]. rewrite H.
    rewrite nth_error_app1; [exact Hn|]. apply nth_error_Some. congruence.
Qed.

Lemma run_app :
  forall evs evs' st, run st (evs ++ evs') = run (run st evs) evs'.
Proof. intros; unfold Main.run; apply fold_left_app. Qed.

Lemma run_snoc :
  forall evs ev st, run st (evs ++ [ev]) = step (run st evs) ev.
Proof. intros; now rewrite run_app. Qed.

Lemma run_cons :
  forall ev evs st, run st (ev :: evs) = run (step st ev) evs.
Proof. reflexivity. Qed.

Lemma pending_run :
  forall evs st id op,
    Main.pendingOp id st = Some op ->
    awaited id evs = true ->
    Main.pendingOp id (run st evs) = Some op.
Proof.
  induction evs as [|ev rest IH]; intros st id op Hop Hev; [exact Hop|].
  cbn [awaited forallb] in Hev. apply andb_true_iff in Hev as [He Hr].
  apply negb_true_iff in He. rewrite run_cons.
  apply IH; [|exact Hr]. now apply pending_step.
Qed.

(** *** The session temp directory *)

Lemma fresh_directory :
  forall st,
    Main.tempDir_set st = None -> fresh_directory_next step base st.
Proof.
  intros st H. split; [exact H|]. intros request d'; cbn zeta.
  cbn [Main.step]. rewrite (extractTrack_unset request st H).
  split; [|split].
  - unfold Main.fsCalls, Main.call_fs. cbn [Main.set_fsOps Main.fsOps].
    now rewrite map_app.
  - reflexivity.
  - unfold Main.onMkdtemp. rewrite pendingOp_call_fs. cbn [Main.awaiting].
    unfold Main.extractTrack_resumed, Main.ensureTempDir_resumed.
    match goal with
    | |- context [Main.runFfmpegExtraction _ _ ?r ?d ?s0] =>
        destruct (same_fs_runFfmpegExtraction r d s0) as [_ H2 _]
    end.
    now rewrite H2.
Qed.

Lemma sent_afterCleanup :
  forall o st,
    Main.sent (Main.afterCleanup ffprobeStatic (caller_of o) st)
    = (Main.sent st
       ++ occasion_log (Main.getFfprobePath ffprobeStatic) o st)%list.
Proof.
  intros [filePath| |] st; cbn [caller_of Main.afterCleanup occasion_log].
  - unfold Main.runFfprobe, Main.spawn. cbn [Main.set_children Main.sent].
    apply sent_logToRenderer.
  - cbn [Main.reply Main.sent]. now rewrite app_nil_r.
  - now rewrite app_nil_r.
Qed.

Lemma gone_on_afterCleanup :
  forall o st,
    gone_on o st (Main.afterCleanup ffprobeStatic (caller_of o) st).
Proof.
  intros [filePath| |] st; cbn [caller_of Main.afterCleanup gone_on].
  - destruct (grows_runFfprobe filePath st) as [H1 H2 _].
    rewrite app_nil_r in H2. split; [exact H2|].
    eexists. split; [exact H1|]. split; reflexivity.
  - split; reflexivity.
  - split; reflexivity.
Qed.

Lemma gone_on_same :
  forall o st st' st'',
    Main.replies st' = Main.replies st ->
    Main.children st' = Main.children st ->
    gone_on o st' st'' -> gone_on o st st''.
Proof.
  intros [filePath| |] st st' st'' H1 H2; cbn [gone_on];
    rewrite H1, H2; auto.
Qed.

(** C9.  On each of the three occasions (a new file is probed, the renderer
    asks for cleanup, the app is about to quit) the session temp directory,
    if there is one, is removed: [fs.rm] is called on it with [recursive]
    and [force], and the handler waits.  When [fs.rm] settles, whatever
    has happened meanwhile and whatever it answers, a failure is only
    logged, the reference is cleared and the handler goes on to its end;
    the next extraction then asks for a fresh directory.  Without a
    directory the handler goes on at once. *)
Theorem temp_dir_removed_on_each_occasion :
  forall (o : Occasion) (st : Main.State),
    let id := List.length (Main.fsOps st) in
    let st1 := step st (occasion_event o) in
    match Main.tempDir_set st with
    | Some d =>
        Main.fsCalls st1 = (Main.fsCalls st ++ [Main.Rm d true true])%list
        /\ Main.sent st1 = Main.sent st
        /\ Main.replies st1 = Main.replies st
        /\ Main.children st1 = Main.children st
        /\ forall (evs : list Main.Event) (rm : Completion unit),
             awaited id evs = true ->
             let st2 := run st1 evs in
             let st3 := step st2 (Main.Rm_settled id rm) in
             Main.fsCalls st3 = Main.fsCalls st2
             /\ Main.sent st3 =
                  (Main.sent st2 ++ cleanup_log st2 rm
                   ++ occasion_log (Main.getFfprobePath ffprobeStatic) o st2)%list
             /\ gone_on o st2 st3
             /\ fresh_directory_next step base st3
    | None =>
        Main.fsCalls st1 = Main.fsCalls st
        /\ Main.sent st1 =
             (Main.sent st
              ++ occasion_log (Main.getFfprobePath ffprobeStatic) o st)%list
        /\ gone_on o st st1
        /\ fresh_directory_next step base st1
    end.
Proof.
  intros o st; cbn zeta. rewrite step_occasion.
  destruct (Main.tempDir_set st) as [d|] eqn:T.
  - rewrite (awaitCleanup_set _ d st T).
    split; [|split; [reflexivity|split; [reflexivity|split; [reflexivity|]]]].
    { unfold Main.fsCalls, Main.call_fs. cbn [Main.set_fsOps Main.fsOps].
      now rewrite map_app. }
    intros evs rm Hev; cbn zeta.
    set (st1 := Main.call_fs _ _ st).
    pose proof (pending_run evs st1 _ _ (pendingOp_call_fs _ _ st) Hev) as Hp.
    set (st2 := run st1 evs) in *.
    cbn [Main.step]. unfold Main.onRm. rewrite Hp. cbn [Main.awaiting].
    destruct (fsSettled_fields (List.length (Main.fsOps st)) st2)
      as (F0 & F1 & F2 & F3 & F4 & F5).
    set (st2' := Main.fsSettled _ st2) in *.
    set (st2'' := Main.cleanupTempDir_resumed rm st2').
    assert (K0 : Main.fsOps st2'' = Main.fsOps st2'
                 /\ Main.children st2'' = Main.children st2
                 /\ Main.replies st2'' = Main.replies st2
                 /\ Main.mainWindow st2'' = Main.mainWindow st2
                 /\ Main.tempDir st2'' = None
                 /\ Main.sent st2''
                    = (Main.sent st2 ++ cleanup_log st2 rm)%list).
    { unfold st2'', Main.cleanupTempDir_resumed, cleanup_log.
      cbn [Main.set_tempDir Main.fsOps Main.children Main.replies
           Main.mainWindow Main.tempDir Main.sent].
      destruct rm as [u|e].
      - rewrite app_nil_r. auto 7.
      - rewrite fsOps_logToRenderer, children_logToRenderer,
          replies_logToRenderer, mainWindow_logToRenderer, sent_logToRenderer.
        rewrite F2, F4. auto 7. }
    destruct K0 as (K1 & K2 & K3 & K4 & K5 & K6).
    destruct (same_fs_afterCleanup (caller_of o) st2'') as [A1 A2 A3].
    split; [|split; [|split]].
    + unfold Main.fsCalls. rewrite A1, K1. exact F0.
    + rewrite sent_afterCleanup, K6, <- app_assoc. f_equal. f_equal.
      destruct o; cbn [occasion_log]; rewrite ?K4; reflexivity.
    + apply (gone_on_same o st2 st2''); [exact K3|exact K2|].
      apply gone_on_afterCleanup.
    + apply fresh_directory. unfold Main.tempDir_set. now rewrite A2, K5.
  - rewrite (awaitCleanup_unset _ st T).
    destruct (same_fs_afterCleanup (caller_of o) st) as [A1 A2 A3].
    split; [|split; [|split]].
    + unfold Main.fsCalls. now rewrite A1.
    + apply sent_afterCleanup.
    + apply gone_on_afterCleanup.
    + apply fresh_directory. rewrite <- T. now apply tempDir_set_eq.
Qed.

(** *** The probe coordinator *)

Lemma get_field :
  forall v k, nullish v = false -> get v k = Normal (field k v).
Proof. intros [] k H; simpl in *; try reflexivity; discriminate. Qed.

Lemma get_nullish :
  forall v k, nullish v = true -> exists e, get v k = Throw e.
Proof. intros [] k H; simpl in *; try discriminate; eexists; reflexivity. Qed.

Lemma get_opt_field :
  forall v k, get_opt v k = Normal (field k v).
Proof. intros [] k; reflexivity. Qed.

(** [Number(v)] throws exactly on the values that have no primitive. *)
Lemma ToNumber_no_primitive :
  forall v,
    if no_primitive v then ToNumber v = Throw not_primitive
    else exists n, ToNumber v = Normal n.
Proof.
  fix IH 1. intros v.
  destruct v as [| |b|n|s|items|props]; cbn [no_primitive ToNumber];
    try (eexists; reflexivity).
  - destruct (existsb no_primitive items) eqn:E; [reflexivity|].
    destruct items as [|x [|y rest]]; try (eexists; reflexivity).
    pose proof (IH x) as IHx.
    destruct x as [| |b|n|s|inner|props]; try (eexists; reflexivity).
    cbn [existsb] in E. rewrite orb_false_r in E.
    now rewrite E in IHx.
  - destruct (has_key "toString" props); [reflexivity|].
    eexists; reflexivity.
Qed.

Lemma number_or_undefined_stored :
  forall v,
    no_primitive v = false ->
    Probe.number_or_undefined v = Normal (stored v).
Proof.
  intros v H. unfold stored, Probe.number_or_undefined.
  destruct (truthy v); [|reflexivity].
  pose proof (ToNumber_no_primitive v) as N. rewrite H in N.
  destruct N as [n ->]. reflexivity.
Qed.

Lemma no_primitive_truthy :
  forall v, no_primitive v = true -> truthy v = true.
Proof. intros [] H; try discriminate; reflexivity. Qed.

Lemma number_or_undefined_throws :
  forall v,
    no_primitive v = true ->
    Probe.number_or_undefined v = Throw not_primitive.
Proof.
  intros v H. unfold Probe.number_or_undefined.
  rewrite (no_primitive_truthy v H).
  pose proof (ToNumber_no_primitive v) as N. rewrite H in N.
  now rewrite N.
Qed.

Lemma scanStreams_skip :
  forall stream rest k acc,
    nullish stream = false -> is_audio stream = false ->
    Probe.scanStreams (stream :: rest) k acc = Probe.scanStreams rest k acc.
Proof.
  intros stream rest k acc H A.
  cbn [Probe.scanStreams]. rewrite (get_field stream "codec_type" H).
  cbn [bind]. unfold is_audio in A. now rewrite A.
Qed.

Lemma scanStreams_audio :
  forall stream rest k acc,
    nullish stream = false -> is_audio stream = true ->
    Probe.scanStreams (stream :: rest) k acc =
      (sampleRate <- Probe.number_or_undefined (field "sample_rate" stream) ;;
       bitRate <- Probe.number_or_undefined (field "bit_rate" stream) ;;
       Probe.scanStreams rest (S k)
         (acc ++ [ {| audioIndex := k;
                      streamIndex := field "index" stream;
                      codecName := field "codec_name" stream;
                      channels := field "channels" stream;
                      sampleRate := sampleRate;
                      bitRate := bitRate;
                      tags := field "tags" stream |} ])%list).
Proof.
  intros stream rest k acc H A.
  cbn [Probe.scanStreams]. rewrite !(get_field stream _ H).
  cbn [bind]. unfold is_audio in A. rewrite A. cbn [negb].
  destruct (Probe.number_or_undefined (field "sample_rate" stream));
    cbn [bind]; [|reflexivity].
  destruct (Probe.number_or_undefined (field "bit_rate" stream));
    cbn [bind]; reflexivity.
Qed.

Lemma scanStreams_readable :
  forall streams k acc,
    existsb unreadable_stream streams = false ->
    Probe.scanStreams streams k acc =
      Normal (acc ++ number_from k (filter is_audio streams))%list.
Proof.
  induction streams as [|stream rest IH]; intros k acc H.
  - simpl. now rewrite app_nil_r.
  - cbn [existsb] in H. apply orb_false_iff in H as [Hs Hr].
    unfold unreadable_stream in Hs. apply orb_false_iff in Hs as [Hn Ha].
    cbn [filter]. destruct (is_audio stream) eqn:A.
    + cbn [andb] in Ha. apply orb_false_iff in Ha as [H1 H2].
      rewrite scanStreams_audio by assumption.
      rewrite (number_or_undefined_stored _ H1),
        (number_or_undefined_stored _ H2). cbn [bind].
      rewrite IH by exact Hr. cbn [number_from].
      now rewrite <- app_assoc.
    + rewrite scanStreams_skip by assumption. now apply IH.
Qed.

Lemma scanStreams_unreadable :
  forall streams k acc,
    existsb unreadable_stream streams = true ->
    exists e, Probe.scanStreams streams k acc = Throw e.
Proof.
  induction streams as [|stream rest IH]; intros k acc H.
  - discriminate.
  - destruct (nullish stream) eqn:Hs.
    + destruct (get_nullish stream "codec_type" Hs) as [e He].
      exists e. cbn [Probe.scanStreams]. now rewrite He.
    + cbn [existsb] in H. unfold unreadable_stream in H at 1.
      rewrite Hs in H. cbn [orb] in H.
      destruct (is_audio stream) eqn:A.
      * rewrite scanStreams_audio by assumption. cbn [andb] in H.
        destruct (no_primitive (field "sample_rate" stream)) eqn:N1.
        { rewrite (number_or_undefined_throws _ N1). eexists; reflexivity. }
        rewrite (number_or_undefined_stored _ N1). cbn [bind].
        destruct (no_primitive (field "bit_rate" stream)) eqn:N2.
        { rewrite (number_or_undefined_throws _ N2). eexists; reflexivity. }
        rewrite (number_or_undefined_stored _ N2). cbn [bind].
        now apply IH.
      * rewrite scanStreams_skip by assumption. now apply IH.
Qed.

Lemma streams_of_parsed :
  forall parsed,
    (if isArray (field "streams" parsed)
     then items_of (field "streams" parsed) else [])
    = declared_streams parsed.
Proof.
  intros parsed; unfold declared_streams.
  destruct (field "streams" parsed); reflexivity.
Qed.

Lemma fromParsed_readable :
  forall filePath parsed,
    unreadable parsed = false ->
    Probe.fromParsed filePath parsed = Normal (walked filePath parsed).
Proof.
  intros filePath parsed H. unfold unreadable in H.
  apply orb_false_iff in H as [H Hd]. apply orb_false_iff in H as [Hp Hs].
  unfold Probe.fromParsed.
  rewrite (get_field parsed "streams" Hp). cbn [bind].
  rewrite streams_of_parsed, (scanStreams_readable _ 0 [] Hs). cbn [bind].
  rewrite (get_field parsed "format" Hp). cbn [bind].
  rewrite !get_opt_field. cbn [bind].
  rewrite (number_or_undefined_stored _ Hd). reflexivity.
Qed.

Lemma fromParsed_unreadable :
  forall filePath parsed,
    unreadable parsed = true ->
    exists e, Probe.fromParsed filePath parsed = Throw e.
Proof.
  intros filePath parsed H. unfold unreadable in H.
  unfold Probe.fromParsed.
  destruct (nullish parsed) eqn:Hp.
  - destruct (get_nullish parsed "streams" Hp) as [e He].
    exists e. now rewrite He.
  - cbn [orb] in H. rewrite (get_field parsed "streams" Hp). cbn [bind].
    rewrite streams_of_parsed.
    destruct (existsb unreadable_stream (declared_streams parsed)) eqn:Hs.
    + destruct (scanStreams_unreadable _ 0 [] Hs) as [e He].
      exists e. now rewrite He.
    + cbn [orb] in H. rewrite (scanStreams_readable _ 0 [] Hs). cbn [bind].
      rewrite (get_field parsed "format" Hp). cbn [bind].
      rewrite get_opt_field. cbn [bind].
      rewrite (number_or_undefined_throws _ H). eexists; reflexivity.
Qed.

Lemma fromParsed_Normal :
  forall filePath parsed r,
    Probe.fromParsed filePath parsed = Normal r ->
    unreadable parsed = false /\ r = walked filePath parsed.
Proof.
  intros filePath parsed r H.
  destruct (unreadable parsed) eqn:U.
  - destruct (fromParsed_unreadable filePath parsed U) as [e He].
    congruence.
  - rewrite (fromParsed_readable filePath parsed U) in H.
    split; [reflexivity|congruence].
Qed.

Lemma audioIndex_number_from :
  forall audio k, map audioIndex (number_from k audio) = seq k (List.length audio).
Proof.
  induction audio as [|s rest IH]; intros k; simpl; [reflexivity|].
  now rewrite IH.
Qed.

Lemma streamIndex_number_from :
  forall audio k,
    map streamIndex (number_from k audio) = map native_index audio.
Proof.
  induction audio as [|s rest IH]; intros k; simpl; [reflexivity|].
  now rewrite IH.
Qed.

(** C3.  Whenever the probe returns a result, its tracks are the declared
    streams whose [codec_type] is ["audio"], in the order met: the k-th has
    [audioIndex] k (so the indices are 0..N-1 whatever the native ones are)
    and carries the stream's native [index] as [streamIndex]. *)
Theorem audio_tracks_dense_in_encounter_order :
  forall (filePath : string) (parsed : JsVal) (r : ProbeResult),
    Probe.fromParsed filePath parsed = Normal r ->
    let audio := filter is_audio (declared_streams parsed) in
    audioTracks r = number_from 0 audio
    /\ map audioIndex (audioTracks r) = seq 0 (List.length audio)
    /\ map streamIndex (audioTracks r) = map native_index audio.
Proof.
  intros filePath parsed r H audio.
  destruct (fromParsed_Normal _ _ _ H) as [_ ->]. cbn [walked audioTracks].
  split; [reflexivity|split].
  - apply audioIndex_number_from.
  - apply streamIndex_number_from.
Qed.

Lemma reads_as_stored :
  forall v, no_primitive v = false -> reads_as v (stored v).
Proof.
  intros v H; unfold reads_as, stored, Probe.number_or_undefined.
  pose proof (ToNumber_no_primitive v) as N. rewrite H in N.
  destruct N as [n N].
  repeat split.
  - now intros ->.
  - intros ->. rewrite N. cbn [bind]. now exists n.
  - intros text -> Hne. destruct text; [congruence|reflexivity].
Qed.

Lemma existsb_filter :
  forall (A : Type) (f g : A -> bool) l,
    existsb f l = false -> existsb f (filter g l) = false.
Proof.
  intros A f g; induction l as [|x l IH]; intros H; [reflexivity|].
  cbn [existsb] in H. apply orb_false_iff in H as [Hx Hl].
  cbn [filter]. destruct (g x); cbn [existsb]; rewrite ?Hx; auto.
Qed.

Lemma rates_number_from :
  forall audio k,
    Forall (fun stream => is_audio stream = true) audio ->
    existsb unreadable_stream audio = false ->
    Forall2
      (fun track stream =>
         reads_as (field "sample_rate" stream) (sampleRate track)
         /\ reads_as (field "bit_rate" stream) (bitRate track))
      (number_from k audio) audio.
Proof.
  induction audio as [|s rest IH]; intros k Ha Hu; simpl; constructor.
  - cbn [existsb] in Hu. apply orb_false_iff in Hu as [Hs _].
    unfold unreadable_stream in Hs. apply orb_false_iff in Hs as [_ Hs].
    inversion Ha as [|? ? A _]; subst. rewrite A in Hs. cbn [andb] in Hs.
    apply orb_false_iff in Hs as [H1 H2].
    split; now apply reads_as_stored.
  - cbn [existsb] in Hu. apply orb_false_iff in Hu as [_ Hr].
    inversion Ha; subst. now apply IH.
Qed.

(** C5, amended.  A sample rate, bit rate or format duration that is absent
    from the prober's output, or falsy there, is left unset; one that is
    present and truthy is stored as its [Number(...)], which for a text
    that is not a number is NaN, not unset. *)
Theorem numeric_fields_unset_when_falsy_else_Number :
  forall (filePath : string) (parsed : JsVal) (r : ProbeResult),
    Probe.fromParsed filePath parsed = Normal r ->
    Forall2
      (fun track stream =>
         reads_as (field "sample_rate" stream) (sampleRate track)
         /\ reads_as (field "bit_rate" stream) (bitRate track))
      (audioTracks r) (filter is_audio (declared_streams parsed))
    /\ reads_as (field "duration" (field "format" parsed)) (duration r)
    /\ truthy VUndefined = false
    /\ Number_of_string "N/A" = NaN.
Proof.
  intros filePath parsed r H.
  destruct (fromParsed_Normal _ _ _ H) as [U ->].
  unfold unreadable in U.
  apply orb_false_iff in U as [U Hd]. apply orb_false_iff in U as [_ Hs].
  cbn [walked audioTracks duration].
  split; [|split; [now apply reads_as_stored|split; reflexivity]].
  apply rates_number_from.
  - apply Forall_forall. intros x Hx. now apply filter_In in Hx.
  - now apply existsb_filter.
Qed.

(** C6, amended.  The close handler rejects exactly when the exit code is
    not 0, or [JSON.parse] throws on the captured stdout, or the [try]
    block cannot walk the parsed value: it is [null], one of its streams
    is [null], or a rate of an audio stream or the duration has no
    primitive for [Number] to convert.  After a non-zero exit the error
    carries the trimmed stderr; in every other case the handler resolves
    with a ProbeResult. *)
Theorem probe_rejects_iff :
  forall (filePath : string) (code : option Z) (output errorOutput : string),
    let result := Probe.onClose JSON_parse filePath code output errorOutput in
    ((exists e, result = Throw e) <->
       (code <> Some 0%Z
        \/ (exists e, JSON_parse output = Throw e)
        \/ (exists parsed,
              JSON_parse output = Normal parsed /\ unreadable parsed = true)))
    /\ (code <> Some 0%Z ->
        result =
          Throw (mkError PlainError
                   ("ffprobe exited with code " ++ Probe.code_text code
                    ++ ". " ++ trim errorOutput)))
    /\ ((exists r, result = Normal r) <->
          (code = Some 0%Z
           /\ exists parsed,
                JSON_parse output = Normal parsed
                /\ unreadable parsed = false))
    /\ (forall v,
          (exists e, ToNumber v = Throw e) <-> no_primitive v = true).
Proof.
  intros filePath code output errorOutput result.
  assert (Hz : Probe.exited_zero code = true <-> code = Some 0%Z).
  { destruct code as [z|]; simpl.
    - rewrite Z.eqb_eq. split; congruence.
    - split; discriminate. }
  assert (Hn : forall v,
    (exists e, ToNumber v = Throw e) <-> no_primitive v = true).
  { intros v. pose proof (ToNumber_no_primitive v) as N.
    destruct (no_primitive v).
    - split; [reflexivity|]. intros _. now exists not_primitive.
    - destruct N as [n N]. split; [|discriminate].
      intros [e He]. congruence. }
  unfold result, Probe.onClose.
  destruct (Probe.exited_zero code) eqn:Hc; cbn [negb].
  - assert (Hcode : code = Some 0%Z) by now apply Hz.
    destruct (JSON_parse output) as [parsed|e0] eqn:Hp; cbn [bind].
    + destruct (unreadable parsed) eqn:U.
      * destruct (fromParsed_unreadable filePath parsed U) as [e He].
        rewrite He. split; [|split; [|split; [|exact Hn]]].
        -- split; [intros _|intros _; now exists e].
           right; right. now exists parsed.
        -- congruence.
        -- split; [intros [r Hr]; discriminate|].
           intros [_ [p [Hp' U']]]. congruence.
      * rewrite (fromParsed_readable filePath parsed U).
        split; [|split; [|split; [|exact Hn]]].
        -- split; [intros [e He]; discriminate|].
           intros [H|[[e He]|[p [Hp' U']]]]; try congruence.
        -- congruence.
        -- split; [intros _|intros _; eexists; reflexivity].
           split; [exact Hcode|]. now exists parsed.
    + split; [|split; [|split; [|exact Hn]]].
      * split; [intros _|intros _; now exists e0].
        right; left. now exists e0.
      * congruence.
      * split; [intros [r Hr]; discriminate|].
        intros [_ [p [Hp' _]]]. congruence.
  - assert (Hcode : code <> Some 0%Z).
    { intros H. apply Hz in H. congruence. }
    split; [|split; [|split; [|exact Hn]]].
    + split; [intros _; now left|intros _; eexists; reflexivity].
    + reflexivity.
    + split; [intros [r Hr]; discriminate|]. intros [H _]. congruence.
Qed.

(** *** The progress parser *)

Lemma append_assoc :
  forall a b c : string, (a ++ b) ++ c = a ++ (b ++ c).
Proof.
  induction a as [|x a IH]; intros b c; simpl; [reflexivity|].
  now rewrite IH.
Qed.

Lemma append_empty_r : forall a : string, a ++ "" = a.
Proof. induction a as [|x a IH]; simpl; [reflexivity|now rewrite IH]. Qed.

(** Induction along the cases of [split_newline]. *)
Lemma split_newline_ind :
  forall P : string -> Prop,
    P "" ->
    (forall rest, P rest -> P (String LF rest)) ->
    (forall c, Ascii.eqb c LF = false -> P (String c "")) ->
    (forall rest, P rest -> P (String CR (String LF rest))) ->
    (forall c c' rest,
        Ascii.eqb c LF = false ->
        Ascii.eqb c CR && Ascii.eqb c' LF = false ->
        P (String c' rest) -> P (String c (String c' rest))) ->
    forall s, P s.
Proof.
  intros P H0 Hlf H1 Hcrlf Hreg.
  assert (Hboth : forall s, P s /\ forall c, P (String c s)).
  { induction s as [|c' rest [IH1 IH2]].
    - split; [exact H0|]. intros c.
      destruct (Ascii.eqb c LF) eqn:E.
      + apply Ascii.eqb_eq in E; subst c. now apply Hlf.
      + now apply H1.
    - split; [apply IH2|]. intros c.
      destruct (Ascii.eqb c LF) eqn:E.
      + apply Ascii.eqb_eq in E; subst c. apply Hlf, IH2.
      + destruct (Ascii.eqb c CR && Ascii.eqb c' LF) eqn:E2.
        * apply andb_true_iff in E2 as [Ec Ec'].
          apply Ascii.eqb_eq in Ec, Ec'; subst c c'. now apply Hcrlf.
        * apply Hreg; auto. }
  intros s; apply Hboth.
Qed.

Lemma split_newline_LF :
  forall rest, split_newline (String LF rest) = "" :: split_newline rest.
Proof. reflexivity. Qed.

Lemma split_newline_CRLF :
  forall rest,
    split_newline (String CR (String LF rest)) = "" :: split_newline rest.
Proof. reflexivity. Qed.

Lemma split_newline_char :
  forall c c' rest,
    Ascii.eqb c LF = false ->
    Ascii.eqb c CR && Ascii.eqb c' LF = false ->
    split_newline (String c (String c' rest))
    = push_front c (split_newline (String c' rest)).
Proof.
  intros c c' rest H1 H2.
  change (split_newline (String c (String c' rest)))
    with (if Ascii.eqb c LF then "" :: split_newline (String c' rest)
          else if Ascii.eqb c CR && Ascii.eqb c' LF
               then "" :: split_newline rest
               else push_front c (split_newline (String c' rest))).
  now rewrite H1, H2.
Qed.

Lemma split_newline_last_char :
  forall c, Ascii.eqb c LF = false -> split_newline (String c "") = [String c ""].
Proof. intros c H; cbn [split_newline]. now rewrite H. Qed.

Lemma split_newline_nonempty : forall s, split_newline s <> [].
Proof.
  intros s; pattern s; apply split_newline_ind; clear s.
  - discriminate.
  - intros rest _. rewrite split_newline_LF. discriminate.
  - intros c H. rewrite split_newline_last_char by exact H. discriminate.
  - intros rest _. rewrite split_newline_CRLF. discriminate.
  - intros c c' rest H1 H2 IH. rewrite split_newline_char by assumption.
    destruct (split_newline (String c' rest)); [contradiction|discriminate].
Qed.

(** A text without a separator is a single piece: itself. *)
Lemma split_newline_single :
  forall s r, split_newline s = [r] -> r = s.
Proof.
  intros s; pattern s; apply split_newline_ind; clear s.
  - intros r H. simpl in H. congruence.
  - intros rest _ r H. rewrite split_newline_LF in H.
    injection H as _ H. now apply split_newline_nonempty in H.
  - intros c Hc r H. rewrite split_newline_last_char in H by exact Hc.
    congruence.
  - intros rest _ r H. rewrite split_newline_CRLF in H.
    injection H as _ H. now apply split_newline_nonempty in H.
  - intros c c' rest H1 H2 IH r H.
    rewrite split_newline_char in H by assumption.
    destruct (split_newline (String c' rest)) as [|p ps] eqn:E.
    + now apply split_newline_nonempty in E.
    + simpl in H. injection H as <- ->. now rewrite (IH p eq_refl).
Qed.

Lemma carry_last : forall lines, Extract.carry lines = last lines "".
Proof.
  intros lines; unfold Extract.carry.
  destruct lines as [|l ls] using rev_ind; [reflexivity|].
  rewrite rev_app_distr, last_last; simpl.
  destruct l; reflexivity.
Qed.

Lemma removelast_cons :
  forall (A : Type) (x : A) l, l <> [] -> removelast (x :: l) = x :: removelast l.
Proof. intros A x [|y l] H; [contradiction|reflexivity]. Qed.

Lemma last_cons :
  forall (A : Type) (x d : A) l, l <> [] -> last (x :: l) d = last l d.
Proof. intros A x d [|y l] H; [contradiction|reflexivity]. Qed.

(** Splitting a text that goes on: the complete lines of the first part,
    then the split of what the first part left followed by the rest. *)
Lemma split_newline_app :
  forall s t,
    split_newline (s ++ t)
    = (removelast (split_newline s)
       ++ split_newline (last (split_newline s) "" ++ t))%list.
Proof.
  intros s t; pattern s; apply split_newline_ind; clear s.
  - reflexivity.
  - intros rest IH. cbn [String.append]. rewrite !split_newline_LF.
    rewrite removelast_cons, last_cons by apply split_newline_nonempty.
    now rewrite IH.
  - intros c Hc. rewrite split_newline_last_char by exact Hc. reflexivity.
  - intros rest IH. cbn [String.append]. rewrite !split_newline_CRLF.
    rewrite removelast_cons, last_cons by apply split_newline_nonempty.
    now rewrite IH.
  - intros c c' rest H1 H2 IH.
    cbn [String.append].
    rewrite (split_newline_char c c' (rest ++ t)) by assumption.
    rewrite (split_newline_char c c' rest) by assumption.
    destruct (split_newline (String c' rest)) as [|p [|q qs]] eqn:E.
    + now apply split_newline_nonempty in E.
    + apply split_newline_single in E; subst p.
      cbn [push_front removelast last app String.append].
      now rewrite (split_newline_char c c' (rest ++ t)) by assumption.
    + cbn [String.append] in IH. rewrite IH.
      cbn [push_front]. reflexivity.
Qed.

Lemma feed_app :
  forall b d t,
    Extract.feed b (d ++ t)
    = (fst (Extract.feed b d) ++ fst (Extract.feed (snd (Extract.feed b d)) t),
       snd (Extract.feed (snd (Extract.feed b d)) t))%list.
Proof.
  intros b d t. unfold Extract.feed, Extract.complete. cbn [fst snd].
  rewrite !carry_last, <- append_assoc, split_newline_app.
  set (ls := removelast (split_newline (b ++ d))).
  set (rest := split_newline (last (split_newline (b ++ d)) "" ++ t)).
  assert (Hne : rest <> []) by apply split_newline_nonempty.
  rewrite removelast_app by exact Hne.
  f_equal. destruct rest as [|x xs] using rev_ind; [contradiction|].
  now rewrite app_assoc, !last_last.
Qed.

Lemma feed_pair :
  forall b d, Extract.feed b d = (fst (Extract.feed b d), snd (Extract.feed b d)).
Proof. intros; apply surjective_pairing. Qed.

Lemma linesOfChunks_cons :
  forall chunks d b,
    Extract.linesOfChunks b (d :: chunks) = Extract.feed b (d ++ whole chunks).
Proof.
  induction chunks as [|d' rest IH]; intros d b.
  - cbn [Extract.linesOfChunks whole fold_right].
    rewrite append_empty_r, (feed_pair b d). now rewrite app_nil_r.
  - change (Extract.linesOfChunks b (d :: d' :: rest))
      with (let '(ls, buffer1) := Extract.feed b d in
            let '(ls', buffer2) := Extract.linesOfChunks buffer1 (d' :: rest) in
            ((ls ++ ls')%list, buffer2)).
    rewrite (feed_pair b d), IH.
    change (whole (d' :: rest)) with (d' ++ whole rest).
    rewrite (feed_app b d (d' ++ whole rest)).
    now rewrite (feed_pair (snd (Extract.feed b d)) (d' ++ whole rest)).
Qed.

Lemma computed_app :
  forall request ls ls',
    Extract.computed request (ls ++ ls')
    = (Extract.computed request ls ++ Extract.computed request ls')%list.
Proof.
  induction ls as [|l ls IH]; intros ls'; simpl; [reflexivity|].
  destruct (Extract.line_progress request l); simpl; now rewrite IH.
Qed.

Lemma onChunks_lines :
  forall request chunks b,
    Extract.onChunks request b chunks
    = (snd (Extract.linesOfChunks b chunks),
       Extract.computed request (fst (Extract.linesOfChunks b chunks))).
Proof.
  induction chunks as [|d rest IH]; intros b; [reflexivity|].
  cbn [Extract.onChunks Extract.linesOfChunks]. unfold Extract.onData.
  rewrite (feed_pair b d), IH.
  destruct (Extract.linesOfChunks (snd (Extract.feed b d)) rest) as [ls' b2].
  cbn [fst snd]. now rewrite computed_app.
Qed.

Lemma chunking_invariant :
  forall (request : ExtractTrackRequest) (chunks : list string),
    Extract.linesOfChunks "" chunks = Extract.feed "" (whole chunks)
    /\ Extract.onChunks request "" chunks
       = Extract.onData request "" (whole chunks).
Proof.
  intros request chunks.
  assert (H : Extract.linesOfChunks "" chunks = Extract.feed "" (whole chunks)).
  { destruct chunks as [|d rest]; [reflexivity|apply linesOfChunks_cons]. }
  split; [exact H|].
  rewrite onChunks_lines, H. unfold Extract.onData.
  now destruct (Extract.feed "" (whole chunks)).
Qed.


(** *** Chunks of bytes and their texts *)

Lemma whole_cons :
  forall t ts, whole (t :: ts) = t ++ whole ts.
Proof. reflexivity. Qed.

Lemma whole_app :
  forall ts ts', whole (ts ++ ts') = whole ts ++ whole ts'.
Proof.
  induction ts as [|t ts IH]; intros ts'; [reflexivity|].
  cbn [app]. now rewrite !whole_cons, IH, append_assoc.
Qed.

(** Decoding goes on from rest after bytes that end between characters. *)
Lemma decode_app :
  forall (a b : Buffer) d,
    at_rest (decoder_after d a) = true ->
    decode d (a ++ b)%list = decode d a ++ decode Rest b.
Proof.
  induction a as [|x a IH]; intros b d H.
  - cbn [decoder_after] in H. destruct d; [reflexivity|discriminate].
  - cbn [app decode decoder_after] in *.
    destruct (next d x) as [text d'] eqn:N. cbn [snd] in H.
    now rewrite (IH b d' H), append_assoc.
Qed.

Lemma toString_app :
  forall a b : Buffer,
    ends_at_rest a = true ->
    toString (a ++ b)%list = toString a ++ toString b.
Proof. intros a b H. now apply decode_app. Qed.

(** Chunks cut between characters: their texts put end to end are the
    text of the bytes put end to end. *)
Lemma toString_concat :
  forall chunks,
    cut_between_characters chunks ->
    whole (texts chunks) = toString (List.concat chunks).
Proof.
  unfold cut_between_characters.
  induction chunks as [|data rest IH]; intros H; [reflexivity|].
  cbn [texts map List.concat]. rewrite whole_cons.
  destruct rest as [|data' rest'].
  - cbn [map whole fold_right List.concat]. now rewrite app_nil_r, append_empty_r.
  - change (removelast (data :: data' :: rest'))
      with (data :: removelast (data' :: rest')) in H.
    inversion H as [|? ? Hd Hr]; subst.
    rewrite (toString_app _ _ Hd). f_equal. now apply IH.
Qed.

(** *** Children and what the events do to them *)

(** A stdout chunk of an encoder: the events it sends and the buffer it
    leaves. *)
Lemma onStdout_ffmpeg :
  forall st pid c request path data,
    nth_error (Main.children st) pid = Some c ->
    Main.job c = Main.Ffmpeg request path ->
    let st' := Main.onStdout pid data st in
    Main.sent st'
    = (Main.sent st
       ++ if Main.mainWindow st
          then progress_messages (req_audioIndex request)
                 (snd (Extract.onData request (Main.out c) (toString data)))
          else [])%list
    /\ nth_error (Main.children st') pid
       = Some (Main.set_out
                 (fst (Extract.onData request (Main.out c) (toString data))) c)
    /\ Main.mainWindow st' = Main.mainWindow st.
Proof.
  intros st pid c request path data Hc Hj; cbn zeta.
  unfold Main.onStdout. rewrite Hc, Hj.
  destruct (Extract.onData request (Main.out c) (toString data))
    as [buffer ps].
  cbn [fst snd].
  match goal with
  | |- context [Main.sendProgress ?i ?l ?s] =>
      destruct (sendProgress_frame i l s) as (H1 & H2 & H3 & _)
  end.
  rewrite H1, H2, H3. cbn [Main.set_children Main.sent Main.children
    Main.mainWindow].
  repeat split.
  rewrite nth_error_update, Nat.eqb_refl, Hc. reflexivity.
Qed.

Lemma stdout_chunks_sent :
  forall chunks st pid c request path,
    nth_error (Main.children st) pid = Some c ->
    Main.job c = Main.Ffmpeg request path ->
    let st' := run st (map (Main.Child_stdout pid) chunks) in
    Main.sent st'
    = (Main.sent st
       ++ if Main.mainWindow st
          then progress_messages (req_audioIndex request)
                 (snd (Extract.onChunks request (Main.out c) (texts chunks)))
          else [])%list
    /\ nth_error (Main.children st') pid
       = Some (Main.set_out
                 (fst (Extract.onChunks request (Main.out c) (texts chunks)))
                 c).
Proof.
  induction chunks as [|data rest IH]; intros st pid c request path Hc Hj.
  - cbn. destruct (Main.mainWindow st); rewrite app_nil_r.
    + split; [reflexivity|]. rewrite Hc. now destruct c.
    + split; [reflexivity|]. rewrite Hc. now destruct c.
  - cbn zeta. cbn [map Main.run fold_left Main.step texts].
    destruct (onStdout_ffmpeg st pid c request path data Hc Hj)
      as (Hs & Hn & Hw).
    specialize (IH (Main.onStdout pid data st) pid _ request path Hn Hj).
    cbn zeta in IH. unfold Main.run in IH. destruct IH as [IHs IHn].
    rewrite IHs, IHn, Hs, Hw. cbn [Main.set_out Main.out].
    cbn [Extract.onChunks]. fold (texts rest).
    destruct (Extract.onData request (Main.out c) (toString data))
      as [b1 ps].
    cbn [fst snd].
    destruct (Extract.onChunks request b1 (texts rest)) as [b2 qs].
    cbn [fst snd].
    split.
    + destruct (Main.mainWindow st).
      * unfold progress_messages. now rewrite map_app, <- app_assoc.
      * now rewrite !app_nil_r.
    + reflexivity.
Qed.

(** *** The renderer's track records *)

Lemma findTrack_mapTrack :
  forall i f ts,
    (forall t, Renderer.info (f t) = Renderer.info t) ->
    Renderer.findTrack i (Renderer.mapTrack i f ts)
    = option_map f (Renderer.findTrack i ts).
Proof.
  intros i f ts Hf. unfold Renderer.findTrack, Renderer.mapTrack.
  induction ts as [|t ts IH]; [reflexivity|].
  cbn [map find].
  destruct (audioIndex (Renderer.info t) =? i)%nat eqn:E.
  - now rewrite Hf, E.
  - now rewrite E.
Qed.

Lemma extractResolved_track :
  forall i response rst t,
    Renderer.findTrack i
      (Renderer.tracks (Renderer.extractResolved i response rst)) = Some t ->
    Renderer.progress t = Fin 1
    /\ Renderer.extracting t = false
    /\ Renderer.outputPath t = Some (outputPath response).
Proof.
  intros i response rst t H.
  unfold Renderer.extractResolved in H.
  cbn [Renderer.set_status Renderer.set_tracks Renderer.tracks] in H.
  rewrite findTrack_mapTrack in H by reflexivity.
  destruct (Renderer.findTrack i (Renderer.tracks rst)); [|discriminate].
  injection H as <-. auto.
Qed.

Lemma handleEnableTrack_request :
  forall i rst rst' request t,
    Renderer.handleEnableTrack i true rst = (rst', Some request) ->
    Renderer.findTrack i (Renderer.tracks rst') = Some t ->
    Renderer.progress t = Fin 0 /\ Renderer.extracting t = true.
Proof.
  intros i rst rst' request t H F.
  unfold Renderer.handleEnableTrack in H. cbn [negb] in H.
  destruct (Renderer.findTrack i (Renderer.tracks rst)) as [target|];
    [|discriminate].
  destruct (Renderer.filePath rst) as [path|]; [|discriminate].
  destruct (truthy_str path); cbn [negb] in H; [|discriminate].
  destruct (Renderer.truthy_opt (Renderer.outputPath target)); [discriminate|].
  injection H as <- _.
  cbn [Renderer.set_status Renderer.set_tracks Renderer.tracks] in F.
  rewrite !findTrack_mapTrack in F by reflexivity.
  destruct (Renderer.findTrack i (Renderer.tracks rst)); [|discriminate].
  injection F as <-. auto.
Qed.

(** C4, amended.  What a chunk leaves incomplete is kept and put in front
    of the text of the next one: over any chunks, however cut, the
    complete lines walked through, the progress events sent and the carry
    buffer left are those of the texts of the chunks put end to end and
    handled at once.  Each chunk is decoded on its own, so when no cut
    falls inside a character that text is the text of the whole stream,
    and the chunks do what the whole stream does in one chunk. *)
Theorem progress_parser_chunking_invariant :
  forall (st : Main.State) (pid : nat) (c : Main.Child)
         (request : ExtractTrackRequest) (path : string)
         (chunks : list Buffer),
    nth_error (Main.children st) pid = Some c ->
    Main.job c = Main.Ffmpeg request path ->
    Main.out c = "" ->
    let chunked := run st (map (Main.Child_stdout pid) chunks) in
    let joined := Extract.onData request "" (whole (texts chunks)) in
    Extract.linesOfChunks "" (texts chunks)
      = Extract.feed "" (whole (texts chunks))
    /\ Extract.onChunks request "" (texts chunks) = joined
    /\ Main.sent chunked
       = (Main.sent st
          ++ if Main.mainWindow st
             then progress_messages (req_audioIndex request) (snd joined)
             else [])%list
    /\ nth_error (Main.children chunked) pid
       = Some (Main.set_out (fst joined) c)
    /\ (cut_between_characters chunks ->
        let at_once := step st (Main.Child_stdout pid (List.concat chunks)) in
        whole (texts chunks) = toString (List.concat chunks)
        /\ Main.sent chunked = Main.sent at_once
        /\ nth_error (Main.children chunked) pid
           = nth_error (Main.children at_once) pid).
Proof.
  intros st pid c request path chunks Hc Hj Ho; cbn zeta.
  destruct (chunking_invariant request (texts chunks)) as [Hl Hd].
  destruct (stdout_chunks_sent chunks st pid c request path Hc Hj) as [Hs Hn].
  rewrite Ho, Hd in Hs, Hn.
  split; [exact Hl|split; [exact Hd|split; [exact Hs|split; [exact Hn|]]]].
  intros Hcut.
  pose proof (toString_concat chunks Hcut) as Ht.
  destruct (onStdout_ffmpeg st pid c request path (List.concat chunks) Hc Hj)
    as (Hs1 & Hn1 & _).
  cbn [Main.step].
  rewrite Hs, Hn, Hs1, Hn1, Ho, Ht. auto.
Qed.

(** C8.  For a request without a duration (or with one that is 0 or NaN)
    the guard of the stdout handler fails on every line: no progress value
    is computed, so nothing is divided, and no chunk of the encoder's
    stdout makes the main process send anything.  The track's progress is
    the 0 the renderer stored when it sent the request. *)
Theorem no_progress_without_duration :
  forall (st : Main.State) (pid : nat) (c : Main.Child)
         (request : ExtractTrackRequest) (path : string)
         (buffer : string) (chunks : list Buffer),
    nth_error (Main.children st) pid = Some c ->
    Main.job c = Main.Ffmpeg request path ->
    Extract.duration_known request = false ->
    (forall line, Extract.line_progress request line = None)
    /\ snd (Extract.onChunks request buffer (texts chunks)) = []
    /\ Main.sent (run st (map (Main.Child_stdout pid) chunks)) = Main.sent st
    /\ (forall (rst rst' : Renderer.State) (sent_request : ExtractTrackRequest)
               (t : Renderer.TrackState),
          Renderer.handleEnableTrack (req_audioIndex request) true rst
            = (rst', Some sent_request) ->
          Renderer.findTrack (req_audioIndex request) (Renderer.tracks rst')
            = Some t ->
          Renderer.progress t = Fin 0).
Proof.
  intros st pid c request path buffer chunks Hc Hj Hd.
  assert (Hline : forall line, Extract.line_progress request line = None).
  { intros line. unfold Extract.line_progress.
    destruct (Extract.key_value line) as [key value].
    now rewrite Hd, andb_false_r. }
  assert (Hcomp : forall ls, Extract.computed request ls = []).
  { induction ls as [|l ls IH]; simpl; [reflexivity|].
    now rewrite Hline. }
  assert (Hall : forall b, snd (Extract.onChunks request b (texts chunks)) = []).
  { intros b. rewrite onChunks_lines. apply Hcomp. }
  split; [exact Hline|split; [apply Hall|split]].
  - destruct (stdout_chunks_sent chunks st pid c request path Hc Hj) as [Hs _].
    rewrite Hs, Hall. cbn [progress_messages map].
    destruct (Main.mainWindow st); apply app_nil_r.
  - intros rst rst' sent_request t H F.
    now destruct (handleEnableTrack_request _ _ _ _ _ H F).
Qed.

(** *** A child over the events that do not end it *)

Lemma settle_children :
  forall p r st,
    Main.children (Main.settle p r st)
    = match nth_error (Main.children st) p with
      | Some cp =>
          match Main.settled cp with
          | None => Main.update p (Main.set_settled r) (Main.children st)
          | Some _ => Main.children st
          end
      | None => Main.children st
      end.
Proof.
  intros p r st; unfold Main.settle.
  destruct (nth_error (Main.children st) p) as [cp|]; [|reflexivity].
  destruct (Main.settled cp); [reflexivity|].
  destruct r; cbn [Main.reply Main.children]; [reflexivity|].
  unfold Main.failed. cbn [Main.reply Main.children].
  now rewrite children_logToRenderer.
Qed.

Lemma settle_other :
  forall p r st pid c,
    nth_error (Main.children st) pid = Some c ->
    (p =? pid)%nat = false ->
    nth_error (Main.children (Main.settle p r st)) pid = Some c.
Proof.
  intros p r st pid c Hc Hp. rewrite settle_children.
  destruct (nth_error (Main.children st) p) as [cp|]; [|exact Hc].
  destruct (Main.settled cp); [exact Hc|].
  rewrite nth_error_update, Nat.eqb_sym, Hp. exact Hc.
Qed.

(** The child [pid] after an event that does not end it. *)
Lemma step_child :
  forall st ev pid c,
    nth_error (Main.children st) pid = Some c ->
    ends pid ev = false ->
    nth_error (Main.children (step st ev)) pid = Some (touched pid ev c).
Proof.
  intros st ev pid c Hc He.
  destruct (of_child ev) eqn:C.
  2:{ destruct (step_grows st ev C) as (rs & [G _ _]). rewrite G.
      rewrite nth_error_app1 by (apply nth_error_Some; congruence).
      rewrite Hc. destruct ev; try discriminate; reflexivity. }
  destruct ev as [result|filePath|request| | |id mk|id rm|p data|p data|p code|p e];
    try discriminate; cbn [Main.step touched].
  - unfold Main.onStdout.
    destruct (p =? pid)%nat eqn:E.
    + apply Nat.eqb_eq in E; subst p. rewrite Hc.
      destruct (Main.job c) as [f|request path].
      * cbn [Main.set_children Main.children].
        now rewrite nth_error_update, Nat.eqb_refl, Hc.
      * destruct (Extract.onData request (Main.out c) (toString data))
          as [buffer ps].
        match goal with
        | |- context [Main.sendProgress ?i ?l ?s0] =>
            destruct (sendProgress_frame i l s0) as (_ & H2 & _)
        end.
        rewrite H2. cbn [Main.set_children Main.children fst].
        now rewrite nth_error_update, Nat.eqb_refl, Hc.
    + destruct (nth_error (Main.children st) p) as [cp|]; [|exact Hc].
      destruct (Main.job cp) as [f|request path].
      * cbn [Main.set_children Main.children].
        now rewrite nth_error_update, Nat.eqb_sym, E.
      * destruct (Extract.onData request (Main.out cp) (toString data))
          as [buffer ps].
        match goal with
        | |- context [Main.sendProgress ?i ?l ?s0] =>
            destruct (sendProgress_frame i l s0) as (_ & H2 & _)
        end.
        rewrite H2. cbn [Main.set_children Main.children].
        now rewrite nth_error_update, Nat.eqb_sym, E.
  - unfold Main.onStderr.
    destruct (p =? pid)%nat eqn:E.
    + apply Nat.eqb_eq in E; subst p. rewrite Hc.
      cbn [Main.set_children Main.children].
      now rewrite nth_error_update, Nat.eqb_refl, Hc.
    + destruct (nth_error (Main.children st) p) as [cp|]; [|exact Hc].
      cbn [Main.set_children Main.children].
      now rewrite nth_error_update, Nat.eqb_sym, E.
  - cbn [ends] in He. unfold Main.onClose.
    destruct (nth_error (Main.children st) p) as [cp|] eqn:Hp; [|exact Hc].
    apply settle_other; [|exact He].
    cbn [Main.set_children Main.children].
    now rewrite nth_error_update, Nat.eqb_sym, He.
  - cbn [ends] in He. unfold Main.onError. now apply settle_other.
Qed.

Lemma touched_same :
  forall pid ev c,
    Main.command (touched pid ev c) = Main.command c
    /\ Main.arguments (touched pid ev c) = Main.arguments c
    /\ Main.job (touched pid ev c) = Main.job c
    /\ Main.running (touched pid ev c) = Main.running c
    /\ Main.settled (touched pid ev c) = Main.settled c.
Proof.
  intros pid ev c.
  destruct ev; cbn [touched]; try (repeat split; reflexivity);
    destruct (_ =? pid)%nat; try (repeat split; reflexivity);
    destruct (Main.job c) eqn:J; cbn; rewrite ?J; repeat split; reflexivity.
Qed.

Lemma stderr_of_cons :
  forall pid ev rest,
    stderr_of pid (ev :: rest) = stderr_of pid [ev] ++ stderr_of pid rest.
Proof.
  intros pid ev rest. unfold stderr_of.
  destruct ev; try reflexivity.
  cbn [stderr_chunks]. destruct (pid0 =? pid)%nat; [|reflexivity].
  cbn [texts map]. rewrite !whole_cons. cbn [whole fold_right].
  now rewrite append_empty_r.
Qed.

Lemma stdout_of_cons :
  forall pid ev rest,
    stdout_of pid (ev :: rest) = stdout_of pid [ev] ++ stdout_of pid rest.
Proof.
  intros pid ev rest. unfold stdout_of.
  destruct ev; try reflexivity.
  cbn [stdout_chunks]. destruct (pid0 =? pid)%nat; [|reflexivity].
  cbn [texts map]. rewrite !whole_cons. cbn [whole fold_right].
  now rewrite append_empty_r.
Qed.

Lemma touched_err :
  forall pid ev c,
    Main.err (touched pid ev c) = Main.err c ++ stderr_of pid [ev].
Proof.
  intros pid ev c. unfold stderr_of.
  destruct ev; cbn [touched stderr_chunks texts map whole fold_right];
    rewrite ?append_empty_r; try reflexivity.
  - destruct (pid0 =? pid)%nat; [|reflexivity].
    destruct (Main.job c); reflexivity.
  - destruct (pid0 =? pid)%nat;
      cbn [texts map whole fold_right Main.set_err Main.err];
      now rewrite ?append_empty_r.
Qed.

Lemma same_child_refl : forall c, same_child c c "".
Proof. intros c; unfold same_child; now rewrite append_empty_r. Qed.

Lemma same_child_trans :
  forall c c1 c2 e1 e2,
    same_child c c1 e1 -> same_child c1 c2 e2 -> same_child c c2 (e1 ++ e2).
Proof.
  unfold same_child.
  intros c c1 c2 e1 e2 (A1 & A2 & A3 & A4 & A5 & A6) (B1 & B2 & B3 & B4 & B5 & B6).
  repeat split; try congruence.
  now rewrite B6, A6, append_assoc.
Qed.

Lemma step_frame :
  forall st ev pid c,
    nth_error (Main.children st) pid = Some c ->
    ends pid ev = false ->
    exists c',
      nth_error (Main.children (step st ev)) pid = Some c'
      /\ same_child c c' (stderr_of pid [ev]).
Proof.
  intros st ev pid c Hc He.
  exists (touched pid ev c). split; [now apply step_child|].
  destruct (touched_same pid ev c) as (H1 & H2 & H3 & H4 & H5).
  pose proof (touched_err pid ev c) as H6.
  unfold same_child. auto 7.
Qed.

Lemma run_frame :
  forall evs st pid c,
    nth_error (Main.children st) pid = Some c ->
    goes_on pid evs = true ->
    exists c',
      nth_error (Main.children (run st evs)) pid = Some c'
      /\ same_child c c' (stderr_of pid evs).
Proof.
  induction evs as [|ev rest IH]; intros st pid c Hc Hg.
  - exists c; split; [exact Hc|apply same_child_refl].
  - cbn [goes_on forallb] in Hg. apply andb_true_iff in Hg as [He Hr].
    apply negb_true_iff in He.
    destruct (step_frame st ev pid c Hc He) as (c1 & Hc1 & S1).
    destruct (IH (step st ev) pid c1 Hc1 Hr) as (c2 & Hc2 & S2).
    exists c2; split; [exact Hc2|].
    rewrite stderr_of_cons. eapply same_child_trans; eassumption.
Qed.

(** The close event of a child whose promise is pending. *)
Lemma onClose_pending :
  forall st pid c code,
    nth_error (Main.children st) pid = Some c ->
    Main.settled c = None ->
    let r := Main.outcome JSON_parse c code in
    let st' := Main.onClose JSON_parse pid code st in
    Main.replies st' = (Main.replies st ++ [r])%list
    /\ exists c',
         nth_error (Main.children st') pid = Some c'
         /\ Main.settled c' = Some r /\ Main.running c' = false
         /\ Main.job c' = Main.job c.
Proof.
  intros st pid c code Hc Hs; cbn zeta.
  unfold Main.onClose. rewrite Hc.
  set (st1 := Main.set_children _ st).
  assert (H1 : nth_error (Main.children st1) pid = Some (Main.set_closed c)).
  { unfold st1. cbn [Main.set_children Main.children].
    now rewrite nth_error_update, Nat.eqb_refl, Hc. }
  split.
  - unfold Main.settle. rewrite H1. cbn [Main.set_closed Main.settled].
    rewrite Hs.
    destruct (Main.outcome JSON_parse c code); cbn [Main.reply Main.replies].
    + reflexivity.
    + unfold Main.failed. cbn [Main.reply Main.replies].
      now rewrite replies_logToRenderer.
  - rewrite settle_children, H1. cbn [Main.set_closed Main.settled].
    rewrite Hs, nth_error_update, Nat.eqb_refl, H1.
    eexists; split; [reflexivity|]. cbn. auto.
Qed.

(** *** A request and its directory *)

(** A request that finds no session directory spawns nothing and waits
    for its [fs.mkdtemp], whatever else happens. *)
Lemma request_waits :
  forall (request : ExtractTrackRequest) (st : Main.State)
         (evs : list Main.Event),
    Main.tempDir_set st = None ->
    awaited (List.length (Main.fsOps st)) evs = true ->
    let st' := step st (Main.Invoke_extractTrack request) in
    Main.children st' = Main.children st
    /\ Main.replies st' = Main.replies st
    /\ Main.pendingOp (List.length (Main.fsOps st)) (run st' evs)
       = Some (mkdtemp_for base request).
Proof.
  intros request st evs T Hev; cbn zeta. cbn [Main.step].
  rewrite (extractTrack_unset request st T).
  split; [reflexivity|split; [reflexivity|]].
  apply pending_run; [|exact Hev]. apply pendingOp_call_fs.
Qed.

(** The event that gives a request its directory spawns its encoder. *)
Lemma gives_directory_spawns :
  forall st ev request dir,
    gives_directory st ev request dir ->
    let st' := step st ev in
    Main.children st'
    = (Main.children st
       ++ [encoder_child (Main.getFfmpegPath ffmpegStatic) path_join
             request dir])%list
    /\ Main.tempDir st' = Some dir
    /\ Main.replies st' = Main.replies st
    /\ Main.fsCalls st' = Main.fsCalls st.
Proof.
  intros st ev request dir G; cbn zeta.
  destruct ev as [result|filePath|r| | |id mk|id rm|p data|p data|p code|p e];
    try contradiction; cbn [gives_directory] in G.
  - destruct G as [-> T]. cbn [Main.step].
    rewrite (extractTrack_set request dir st T).
    destruct (grows_runFfmpegExtraction request dir st) as [G1 G2 _].
    destruct (same_fs_runFfmpegExtraction request dir st) as [S1 S2 _].
    rewrite app_nil_r in G2. unfold Main.fsCalls. rewrite G1, G2, S1, S2.
    repeat split. now apply tempDir_set_Some.
  - destruct mk as [d|e]; [|contradiction].
    destruct G as (-> & op & Hop & Ha).
    cbn [Main.step]. unfold Main.onMkdtemp. rewrite Hop, Ha.
    unfold Main.extractTrack_resumed, Main.ensureTempDir_resumed.
    destruct (fsSettled_fields id st) as (F0 & F1 & F2 & F3 & F4 & F5).
    match goal with
    | |- context [Main.runFfmpegExtraction _ _ ?r ?d ?s0] =>
        destruct (grows_runFfmpegExtraction r d s0) as [G1 G2 _];
        destruct (same_fs_runFfmpegExtraction r d s0) as [S1 S2 _]
    end.
    rewrite app_nil_r in G2. unfold Main.fsCalls in *.
    rewrite G1, G2, S1, S2.
    cbn [Main.set_tempDir Main.children Main.replies Main.fsOps Main.tempDir].
    rewrite F3, F5, F0. auto.
Qed.

Lemma trim_eq : forall a b, a = b -> trim a = trim b.
Proof. now intros a b ->. Qed.

(** C7.  The event that gives a request for index i its directory (the
    request itself when the session directory is set, the answer of the
    [fs.mkdtemp] it waits for otherwise) spawns the encoder with [-y],
    [-map 0:a:i], [-ac 2], [-ar 48000], [-c:a pcm_s16le] and the output
    path [track_<i>.wav] joined to that directory.  Whatever happens
    before that child closes, its close event answers the request: with
    exactly that path when the exit code is 0, and otherwise with an error
    whose message ends with the trimmed stderr text of the child.  A
    request that finds no session directory spawns nothing and waits for
    its [fs.mkdtemp], whatever else happens. *)
Theorem extraction_invocation_and_completion :
  forall (st : Main.State) (ev : Main.Event) (request : ExtractTrackRequest)
         (dir : string) (evs : list Main.Event) (code : option Z),
    gives_directory st ev request dir ->
    goes_on (List.length (Main.children st)) evs = true ->
    let pid := List.length (Main.children st) in
    let i := req_audioIndex request in
    let outputPath :=
      path_join dir ("track_" ++ string_of_nat i ++ ".wav") in
    let st1 := step st ev in
    let st2 := run st1 (evs ++ [Main.Child_close pid code]) in
    Main.tempDir st1 = Some dir
    /\ (exists c,
          Main.children st1 = (Main.children st ++ [c])%list
          /\ Main.command c = Main.getFfmpegPath ffmpegStatic
          /\ Main.arguments c =
               [ "-y"; "-i"; req_filePath request;
                 "-map"; "0:a:" ++ string_of_nat i; "-vn";
                 "-ac"; "2"; "-ar"; "48000"; "-c:a"; "pcm_s16le";
                 "-progress"; "pipe:1"; "-nostats"; outputPath ])
    /\ Main.replies st2 =
         (Main.replies (run st1 evs)
          ++ [exit_outcome request outputPath code (stderr_of pid evs)])%list
    /\ (forall (st0 : Main.State) (evs0 : list Main.Event),
          Main.tempDir_set st0 = None ->
          awaited (List.length (Main.fsOps st0)) evs0 = true ->
          let st0' := step st0 (Main.Invoke_extractTrack request) in
          Main.children st0' = Main.children st0
          /\ Main.replies st0' = Main.replies st0
          /\ Main.pendingOp (List.length (Main.fsOps st0)) (run st0' evs0)
             = Some (mkdtemp_for base request)).
Proof.
  intros st ev request dir evs code Hdir Hg; cbn zeta.
  set (pid := List.length (Main.children st)).
  set (outputPath := path_join dir
         ("track_" ++ string_of_nat (req_audioIndex request) ++ ".wav")).
  set (c0 := encoder_child (Main.getFfmpegPath ffmpegStatic) path_join
               request dir).
  destruct (gives_directory_spawns st ev request dir Hdir)
    as (Hch & Htd & _ & _).
  fold c0 in Hch.
  split; [exact Htd|split; [|split]].
  - exists c0; repeat split. exact Hch.
  - rewrite run_snoc.
    set (st1 := step st ev) in *.
    assert (H0 : nth_error (Main.children st1) pid = Some c0).
    { rewrite Hch. apply nth_error_snoc. }
    destruct (run_frame evs st1 pid c0 H0 Hg) as (c1 & Hc1 & S1).
    destruct S1 as (_ & _ & Hjob & _ & Hset & Herr).
    destruct (onClose_pending (run st1 evs) pid c1 code Hc1 Hset) as [Hr _].
    cbn [Main.step]. rewrite Hr. f_equal. f_equal.
    unfold Main.outcome. rewrite Hjob.
    cbn [c0 encoder_child spawned Main.job].
    unfold Extract.onClose, exit_outcome.
    rewrite Herr. cbn [c0 encoder_child spawned Main.err String.append].
    destruct code as [z|]; [destruct z|]; reflexivity.
  - intros st0 evs0 T Hev. exact (request_waits request st0 evs0 T Hev).
Qed.

(** *** Progress values *)

Lemma is_zero_iff : forall q, is_zero q = true <-> (q == 0)%Q.
Proof.
  intros [n d]; unfold is_zero, Qeq; simpl.
  rewrite Z.eqb_eq. split; intros H; lia.
Qed.

Lemma is_zero_pos : forall q, (0 < q)%Q -> is_zero q = false.
Proof.
  intros q H. destruct (is_zero q) eqn:E; [|reflexivity].
  apply is_zero_iff in E. rewrite E in H. now apply Qlt_irrefl in H.
Qed.

Lemma Qsgn_pos : forall q, (0 < q)%Q -> (Qsgn q <? 0)%Z = false.
Proof.
  intros [n d] H; unfold Qsgn, Qlt in *; simpl in *.
  apply Z.ltb_ge. lia.
Qed.

Lemma Math_min_at_most_1 :
  forall x, Math_min x (Fin 1) = NaN \/ JS.le (Math_min x (Fin 1)) (Fin 1).
Proof.
  intros [| | |x]; simpl; auto.
  - right. apply Qle_refl.
  - right. destruct (Qle_bool x 1) eqn:E; simpl.
    + now apply Qle_bool_iff.
    + apply Qle_refl.
Qed.

Lemma Math_min_mono :
  forall a b,
    JS.le a b -> JS.le (Math_min a (Fin 1)) (Math_min b (Fin 1)).
Proof.
  intros [| | |x] [| | |y] H; simpl in *; try contradiction; auto.
  - destruct (Qle_bool y 1); exact I.
  - apply Qle_refl.
  - destruct (Qle_bool x 1) eqn:E; simpl.
    + now apply Qle_bool_iff.
    + apply Qle_refl.
  - destruct (Qle_bool x 1) eqn:Ex; destruct (Qle_bool y 1) eqn:Ey; simpl.
    + exact H.
    + now apply Qle_bool_iff.
    + assert (Hy : (y <= 1)%Q) by now apply Qle_bool_iff.
      assert (Hx : (x <= 1)%Q) by (eapply Qle_trans; eassumption).
      apply Qle_bool_iff in Hx. congruence.
    + apply Qle_refl.
Qed.

Lemma Math_min_nonneg :
  forall a, JS.le (Fin 0) a -> JS.le (Fin 0) (Math_min a (Fin 1)).
Proof.
  intros [| | |x] H; simpl in *; try contradiction.
  - discriminate.
  - destruct (Qle_bool x 1); simpl; [exact H|discriminate].
Qed.

Lemma div_mono :
  forall D a b,
    (0 < D)%Q -> JS.le a b -> JS.le (div a (Fin D)) (div b (Fin D)).
Proof.
  intros D a b HD H.
  assert (Hz := is_zero_pos D HD). assert (Hs := Qsgn_pos D HD).
  destruct a as [| | |x]; destruct b as [| | |y]; cbn [JS.le div] in *;
    try contradiction; rewrite ?Hz, ?Hs; cbn [JS.le]; auto.
  unfold fin; cbn [JS.le]. rewrite !Qred_correct.
  apply Qmult_le_compat_r; [exact H|].
  apply Qlt_le_weak, Qinv_lt_0_compat, HD.
Qed.

Lemma div_nonneg :
  forall D a,
    (0 < D)%Q -> JS.le (Fin 0) a -> JS.le (Fin 0) (div a (Fin D)).
Proof.
  intros D a HD H.
  assert (Hz := is_zero_pos D HD). assert (Hs := Qsgn_pos D HD).
  destruct a as [| | |x]; cbn [JS.le div] in *; try contradiction;
    rewrite ?Hz, ?Hs; cbn [JS.le]; auto.
  unfold fin; cbn [JS.le]. rewrite Qred_correct.
  apply Qmult_le_0_compat; [exact H|].
  apply Qlt_le_weak, Qinv_lt_0_compat, HD.
Qed.

(** [request.duration * 1000000] for a positive duration. *)
Lemma scaled_duration :
  forall d,
    (0 < d)%Q ->
    exists D, mul (Fin d) (of_Z 1000000) = Fin D /\ (0 < D)%Q.
Proof.
  intros d Hd. eexists; split; [reflexivity|].
  rewrite Qred_correct.
  apply Qmult_lt_0_compat; [exact Hd|reflexivity].
Qed.

Lemma computed_out_times :
  forall request lines,
    Extract.computed request lines
    = if Extract.duration_known request
      then map (Extract.progress_of request) (out_times lines)
      else [].
Proof.
  intros request; induction lines as [|l ls IH]; cbn [Extract.computed out_times].
  - now destruct (Extract.duration_known request).
  - unfold Extract.line_progress.
    destruct (Extract.key_value l) as [key value].
    destruct (Extract.is_out_time_ms key);
      destruct (Extract.duration_known request) eqn:K; cbn [andb map];
      rewrite IH; reflexivity.
Qed.

Lemma nondecreasing_map :
  forall (f : num -> num),
    (forall a b, JS.le a b -> JS.le (f a) (f b)) ->
    forall l, nondecreasing l -> nondecreasing (map f l).
Proof.
  intros f Hf; induction l as [|a [|b rest] IH]; intros H; simpl; auto.
  destruct H as [Hab Hrest]. split; [now apply Hf|]. now apply IH.
Qed.


Lemma Math_min_zero :
  Math_min (Fin 0) (Fin 1) = Fin 0.
Proof. reflexivity. Qed.

(** The value computed from a finite time over an infinite duration. *)
Lemma progress_over_infinity :
  forall request x,
    req_duration request = Some PosInf ->
    Extract.progress_of request (Fin x) = Fin 0.
Proof.
  intros request x Hd. unfold Extract.progress_of, Extract.duration_num.
  rewrite Hd. reflexivity.
Qed.

Lemma nondecreasing_zeros :
  forall (f : num -> num) l,
    (forall t, In t l -> f t = Fin 0) -> nondecreasing (map f l).
Proof.
  intros f; induction l as [|a [|b rest] IH]; intros H; cbn [map nondecreasing];
    auto.
  split.
  - rewrite (H a), (H b) by (cbn; auto). apply Qle_refl.
  - apply IH. intros t Ht. apply H. now right.
Qed.

Lemma progressSent_app :
  forall i ms ms',
    Main.progressSent i (ms ++ ms')
    = (Main.progressSent i ms ++ Main.progressSent i ms')%list.
Proof.
  induction ms as [|m ms IH]; intros ms'; [reflexivity|].
  cbn [app Main.progressSent]. destruct m as [e|e]; [apply IH|].
  destruct (ev_audioIndex e =? i)%nat; cbn [app]; now rewrite IH.
Qed.

Lemma progressSent_logs :
  forall i logs, Forall is_log logs -> Main.progressSent i logs = [].
Proof.
  intros i logs H. induction H as [|m ms Hm _ IH]; [reflexivity|].
  destruct m; [exact IH|contradiction].
Qed.

(** A close or error event sends log lines at most. *)
Lemma settle_sends_logs :
  forall pid r st,
    exists logs,
      Main.sent (Main.settle pid r st) = (Main.sent st ++ logs)%list
      /\ Forall is_log logs.
Proof.
  intros pid r st. unfold Main.settle.
  destruct (nth_error (Main.children st) pid) as [c|];
    [|exists []; now rewrite app_nil_r].
  destruct (Main.settled c); [exists []; now rewrite app_nil_r|].
  destruct r as [v|e].
  - exists []. cbn [Main.reply Main.sent Main.set_children].
    now rewrite app_nil_r.
  - unfold Main.failed. cbn [Main.reply Main.sent].
    rewrite sent_logToRenderer. cbn [Main.set_children Main.sent Main.mainWindow].
    eexists. split; [reflexivity|].
    destruct (Main.mainWindow st); repeat constructor.
Qed.

Lemma close_sends_logs :
  forall pid code st,
    exists logs,
      Main.sent (step st (Main.Child_close pid code))
      = (Main.sent st ++ logs)%list
      /\ Forall is_log logs.
Proof.
  intros pid code st. cbn [Main.step]. unfold Main.onClose.
  destruct (nth_error (Main.children st) pid) as [c|];
    [|exists []; now rewrite app_nil_r].
  match goal with
  | |- context [Main.settle ?p ?r ?s0] =>
      destruct (settle_sends_logs p r s0) as (logs & H & L)
  end.
  exists logs. split; [exact H|exact L].
Qed.

(** C1, amended.  The values sent for a job are
    [Math.min(ms / (duration * 1000000), 1)], one per out_time_ms line of
    the encoder's stdout, in order, and nothing else is sent for it: each
    is at most 1 unless it is NaN.  For a positive duration, infinite or
    not, they are at least 0 when the reported times are finite and not
    negative, and non-decreasing when the reported times are finite and
    non-decreasing.  The close event sends no progress event; it is the
    renderer that stores progress 1 for the track when the extraction
    resolves. *)
Theorem progress_is_min_of_ratio_and_1 :
  forall (st : Main.State) (pid : nat) (c : Main.Child)
         (request : ExtractTrackRequest) (path : string)
         (chunks : list Buffer),
    nth_error (Main.children st) pid = Some c ->
    Main.job c = Main.Ffmpeg request path ->
    let lines :=
      fst (Extract.linesOfChunks (Main.out c) (texts chunks)) in
    let ps := progress_values request (Main.out c) chunks in
    let st' := run st (map (Main.Child_stdout pid) chunks) in
    Main.sent st'
      = (Main.sent st
         ++ if Main.mainWindow st
            then progress_messages (req_audioIndex request) ps
            else [])%list
    /\ Forall (fun p => p = NaN \/ JS.le p (Fin 1)) ps
    /\ (forall d,
          req_duration request = Some d -> positive d ->
          (Forall (fun t => finite t /\ JS.le (Fin 0) t) (out_times lines) ->
           Forall in_unit_interval ps)
          /\ (Forall finite (out_times lines) ->
              nondecreasing (out_times lines) -> nondecreasing ps))
    /\ (forall (i : nat) (code : option Z),
          Main.progressSent i
            (Main.sent (step st' (Main.Child_close pid code)))
          = Main.progressSent i (Main.sent st'))
    /\ (forall (rst : Renderer.State) (response : ExtractTrackResponse)
               (t : Renderer.TrackState),
          Renderer.findTrack (req_audioIndex request)
            (Renderer.tracks
               (Renderer.extractResolved (req_audioIndex request)
                  response rst)) = Some t ->
          Renderer.progress t = Fin 1).
Proof.
  intros st pid c request path chunks Hc Hj; cbn zeta.
  destruct (stdout_chunks_sent chunks st pid c request path Hc Hj) as [Hs _].
  assert (Hps : snd (Extract.onChunks request (Main.out c) (texts chunks))
                = progress_values request (Main.out c) chunks).
  { rewrite onChunks_lines. cbn [snd]. apply computed_out_times. }
  rewrite Hps in Hs.
  unfold progress_values in *.
  set (ts := out_times
               (fst (Extract.linesOfChunks (Main.out c) (texts chunks)))) in *.
  split; [exact Hs|split; [|split; [|split]]].
  - destruct (Extract.duration_known request); [|constructor].
    apply Forall_map, Forall_forall. intros ms _.
    apply Math_min_at_most_1.
  - intros d Hd Hpos.
    assert (K : Extract.duration_known request = true).
    { unfold Extract.duration_known. rewrite Hd.
      destruct d as [| | |q]; try contradiction; [reflexivity|].
      cbn [truthy_num positive] in *. now rewrite (is_zero_pos q Hpos). }
    rewrite K.
    change (fun ms : num =>
              Math_min
                (div ms (mul (Extract.duration_num request) (of_Z 1000000)))
                (Fin 1))
      with (Extract.progress_of request).
    destruct d as [| | |q]; try contradiction.
    + assert (Hz : forall t, finite t -> Extract.progress_of request t = Fin 0).
      { intros [| | |x] Ft; try contradiction.
        now apply progress_over_infinity. }
      split.
      * intros H. apply Forall_map. revert H. apply Forall_impl.
        intros t [Ft _]. rewrite (Hz t Ft). split; discriminate.
      * intros Hf _. apply nondecreasing_zeros. intros t Ht.
        apply Hz. rewrite Forall_forall in Hf. now apply Hf.
    + cbn [positive] in Hpos.
      destruct (scaled_duration q Hpos) as (D & HD & HDpos).
      assert (Hof : forall ms,
        Extract.progress_of request ms = Math_min (div ms (Fin D)) (Fin 1)).
      { intros ms. unfold Extract.progress_of, Extract.duration_num.
        now rewrite Hd, HD. }
      split.
      * intros H. apply Forall_map. revert H. apply Forall_impl.
        intros ms [_ Hms]. rewrite Hof. split.
        -- now apply Math_min_nonneg, div_nonneg.
        -- destruct (Math_min_at_most_1 (div ms (Fin D))) as [E|E]; [|exact E].
           exfalso. apply (div_nonneg D ms HDpos) in Hms.
           apply Math_min_nonneg in Hms. rewrite E in Hms. exact Hms.
      * intros _. apply nondecreasing_map. intros a b Hab. rewrite !Hof.
        now apply Math_min_mono, div_mono.
  - intros i code.
    destruct (close_sends_logs pid code
                (run st (map (Main.Child_stdout pid) chunks)))
      as (logs & H & L).
    rewrite H, progressSent_app, (progressSent_logs i logs L).
    apply app_nil_r.
  - intros rst response t H. now apply extractResolved_track in H.
Qed.

Lemma inFlight_spawned :
  forall i cs c,
    Main.is_ffmpeg_for i c = true -> Main.running c = true ->
    filter (fun c => Main.is_ffmpeg_for i c && Main.running c) (cs ++ [c])
    = (filter (fun c => Main.is_ffmpeg_for i c && Main.running c) cs
       ++ [c])%list.
Proof.
  intros i cs c H1 H2. rewrite filter_app. cbn [filter].
  now rewrite H1, H2.
Qed.

(** C2, amended.  The main process keeps no record of the jobs: every
    extract-track request spawns one more encoder as soon as it has its
    directory, next to those already running for the same index.  What
    avoids a second extraction of a track that has been extracted is the
    renderer: once [extractTrack] has resolved for a track,
    [handleEnableTrack] finds its output path and sends no request. *)
Theorem every_request_spawns_and_renderer_reuses_output :
  forall (st : Main.State) (ev : Main.Event) (request : ExtractTrackRequest)
         (dir : string)
         (rst : Renderer.State) (response : ExtractTrackResponse) (on : bool),
    gives_directory st ev request dir ->
    outputPath response <> "" ->
    let i := req_audioIndex request in
    let st' := step st ev in
    (exists c,
       Main.inFlight i st' = (Main.inFlight i st ++ [c])%list
       /\ Main.job c
          = Main.Ffmpeg request (path_join dir (Extract.fileName i)))
    /\ List.length (Main.inFlight i st') = S (List.length (Main.inFlight i st))
    /\ snd (Renderer.handleEnableTrack i on
              (Renderer.extractResolved i response rst)) = None
    /\ (forall (st0 : Main.State) (evs0 : list Main.Event),
          Main.tempDir_set st0 = None ->
          awaited (List.length (Main.fsOps st0)) evs0 = true ->
          let st0' := step st0 (Main.Invoke_extractTrack request) in
          Main.children st0' = Main.children st0
          /\ Main.replies st0' = Main.replies st0
          /\ Main.pendingOp (List.length (Main.fsOps st0)) (run st0' evs0)
             = Some (mkdtemp_for base request)).
Proof.
  intros st ev request dir rst response on Hdir Hpath; cbn zeta.
  destruct (gives_directory_spawns st ev request dir Hdir) as (Hch & _).
  assert (Hin :
    Main.inFlight (req_audioIndex request) (step st ev)
    = (Main.inFlight (req_audioIndex request) st
       ++ [encoder_child (Main.getFfmpegPath ffmpegStatic) path_join
             request dir])%list).
  { unfold Main.inFlight. rewrite Hch. apply inFlight_spawned; [|reflexivity].
    cbn. apply Nat.eqb_refl. }
  split; [eexists; split; [exact Hin|reflexivity]|split; [|split]].
  - rewrite Hin, length_app. simpl. lia.
  - unfold Renderer.handleEnableTrack.
    destruct on; cbn [negb]; [|reflexivity].
    destruct (Renderer.findTrack (req_audioIndex request)
                (Renderer.tracks
                   (Renderer.extractResolved (req_audioIndex request)
                      response rst))) as [target|] eqn:F; [|reflexivity].
    apply extractResolved_track in F as (_ & _ & Hout).
    destruct (Renderer.filePath _) as [path|]; [|reflexivity].
    destruct (truthy_str path); cbn [negb]; [|reflexivity].
    rewrite Hout. cbn [Renderer.truthy_opt].
    destruct (outputPath response); [contradiction|reflexivity].
  - intros st0 evs0 T Hev. exact (request_waits request st0 evs0 T Hev).
Qed.

End Properties.

(* ================================================================== *)
(** ** Worked runs *)
(* ================================================================== *)

(** Native audio indices 2, 5 and 7 become tracks 0, 1 and 2. *)
Lemma audio_tracks_2_5_7 :
  Probe.fromParsed "/videos/a.mkv" parsed_2_5_7
    = Normal (walked "/videos/a.mkv" parsed_2_5_7)
  /\ map audioIndex (audioTracks (walked "/videos/a.mkv" parsed_2_5_7))
     = [0; 1; 2]
  /\ map streamIndex (audioTracks (walked "/videos/a.mkv" parsed_2_5_7))
     = [VNum (of_Z 2); VNum (of_Z 5); VNum (of_Z 7)].
Proof.
  split; [reflexivity|].
  destruct (audio_tracks_dense_in_encounter_order
              "/videos/a.mkv" parsed_2_5_7 _ eq_refl) as (_ & H1 & H2).
  split; [exact H1|exact H2].
Defined.

(** A sample rate of ["48000"] and a duration of ["12.5"] are stored as
    those numbers; the bit rate, absent, is left unset. *)
Lemma numeric_fields_of_2_5_7 :
  Probe.fromParsed "/videos/a.mkv" parsed_2_5_7
    = Normal (walked "/videos/a.mkv" parsed_2_5_7)
  /\ reads_as (VStr "12.5") (Some (Fin (25 # 2)))
  /\ map sampleRate (audioTracks (walked "/videos/a.mkv" parsed_2_5_7))
     = [Some (of_Z 48000); Some (of_Z 48000); Some (of_Z 48000)]
  /\ map bitRate (audioTracks (walked "/videos/a.mkv" parsed_2_5_7))
     = [None; None; None].
Proof.
  split; [reflexivity|].
  destruct (numeric_fields_unset_when_falsy_else_Number
              "/videos/a.mkv" parsed_2_5_7 _ eq_refl) as (_ & H & _).
  split; [exact H|split; reflexivity].
Defined.

(** C5, as stated, fails: rates and a duration that are not numbers are
    stored as NaN, and a blank one as 0; none is left unset. *)
Lemma non_numeric_fields_are_not_left_unset :
  exists r,
    Probe.fromParsed "/videos/a.mkv" parsed_not_numeric = Normal r
    /\ map sampleRate (audioTracks r) = [Some NaN]
    /\ map bitRate (audioTracks r) = [Some (Fin 0)]
    /\ duration r = Some NaN.
Proof. eexists; repeat split. Qed.

(** C6, as stated, fails: the prober exits with 0 and prints [null], or an
    object whose [streams] array holds [null], or one whose duration is an
    object with a [toString] of its own; [JSON.parse] accepts the three,
    and the probe rejects. *)
Lemma parseable_output_rejected :
  parse_only "null" VNull "null" = Normal VNull
  /\ Probe.onClose (parse_only "null" VNull) "/videos/a.mkv" (Some 0%Z)
       "null" ""
     = Throw (mkError TypeError
                "Cannot read properties of null (reading 'streams')")
  /\ parse_only text_null_stream parsed_null_stream text_null_stream
     = Normal parsed_null_stream
  /\ Probe.onClose (parse_only text_null_stream parsed_null_stream)
       "/videos/a.mkv" (Some 0%Z) text_null_stream ""
     = Throw (mkError TypeError
                "Cannot read properties of null (reading 'codec_type')")
  /\ parse_only text_duration_object parsed_duration_object
       text_duration_object
     = Normal parsed_duration_object
  /\ Probe.onClose (parse_only text_duration_object parsed_duration_object)
       "/videos/a.mkv" (Some 0%Z) text_duration_object ""
     = Throw (mkError TypeError "Cannot convert object to primitive value").
Proof. repeat split. Qed.

(** The first request of a session waits for its directory and then
    spawns one encoder; once it has resolved, enabling the track again
    sends nothing. *)
Lemma first_request_spawns_one_encoder :
  gives_directory (asked (request_0 ten_seconds))
    (Main.Mkdtemp_settled 0 (Normal session_dir))
    (request_0 ten_seconds) session_dir
  /\ outputPath response_0 <> ""
  /\ List.length (Main.inFlight 0 (asked (request_0 ten_seconds))) = 0
  /\ List.length (Main.inFlight 0 (extracting (request_0 ten_seconds))) = 1
  /\ snd (Renderer.handleEnableTrack 0 true
            (Renderer.extractResolved 0 response_0 probed)) = None.
Proof.
  assert (H1 : gives_directory (asked (request_0 ten_seconds))
                 (Main.Mkdtemp_settled 0 (Normal session_dir))
                 (request_0 ten_seconds) session_dir).
  { split; [reflexivity|]. eexists. split; reflexivity. }
  assert (H2 : outputPath response_0 <> "") by discriminate.
  split; [exact H1|split; [exact H2|split; [reflexivity|]]].
  destruct (every_request_spawns_and_renderer_reuses_output
              (Some "/opt/ffmpeg") (Some "/opt/ffprobe") "/tmp" posix_join
              (parse_only "null" VNull) (asked (request_0 ten_seconds))
              (Main.Mkdtemp_settled 0 (Normal session_dir))
              (request_0 ten_seconds) session_dir probed response_0 true H1 H2)
    as (_ & Hlen & Hr & _).
  split; [exact Hlen|exact Hr].
Defined.

(** C2, as stated, fails: a second request for index 0 while the first
    encoder runs puts a second one in flight; a request after the first
    has exited with 0 spawns again; and the renderer itself sends a second
    request when the track is switched off and on during the extraction. *)
Lemma second_request_spawns_second_encoder :
  List.length
    (Main.inFlight 0
       (ex_run Main.ready
          [ Main.Invoke_extractTrack (request_0 ten_seconds);
            Main.Mkdtemp_settled 0 (Normal session_dir);
            Main.Invoke_extractTrack (request_0 ten_seconds) ]))
    = 2
  /\ List.length
       (Main.spawnedFor 0
          (ex_run Main.ready
             [ Main.Invoke_extractTrack (request_0 ten_seconds);
               Main.Mkdtemp_settled 0 (Normal session_dir);
               Main.Child_close 0 (Some 0%Z);
               Main.Invoke_extractTrack (request_0 ten_seconds) ]))
     = 2
  /\ (let st1 := fst (Renderer.handleEnableTrack 0 true probed) in
      let st2 := fst (Renderer.handleEnableTrack 0 false st1) in
      option_map Renderer.extracting (Renderer.findTrack 0 (Renderer.tracks st2))
        = Some true
      /\ snd (Renderer.handleEnableTrack 0 true probed)
         = Some (request_0 (Some (Fin (25 # 2))))
      /\ snd (Renderer.handleEnableTrack 0 true st2)
         = Some (request_0 (Some (Fin (25 # 2))))).
Proof. repeat split. Qed.

(** A stream of ASCII text cut at awkward places sends the events of the
    whole. *)
Lemma cut_stream_sends_the_same :
  nth_error (Main.children (extracting (request_0 ten_seconds))) 0
    = Some (encoder_0 (request_0 ten_seconds))
  /\ cut_between_characters cut_stream
  /\ Main.progressSent 0
       (Main.sent
          (ex_run (extracting (request_0 ten_seconds))
             (map (Main.Child_stdout 0) cut_stream)))
     = [Fin (1 # 2); Fin (7 # 10)]
  /\ Main.sent
       (ex_run (extracting (request_0 ten_seconds))
          (map (Main.Child_stdout 0) cut_stream))
     = Main.sent
         (ex_step (extracting (request_0 ten_seconds))
            (Main.Child_stdout 0 (List.concat cut_stream))).
Proof.
  assert (Hcut : cut_between_characters cut_stream)
    by (repeat constructor).
  split; [reflexivity|split; [exact Hcut|split; [reflexivity|]]].
  destruct (progress_parser_chunking_invariant
              (Some "/opt/ffmpeg") (Some "/opt/ffprobe") "/tmp" posix_join
              (parse_only "null" VNull)
              (extracting (request_0 ten_seconds)) 0
              (encoder_0 (request_0 ten_seconds)) (request_0 ten_seconds)
              (posix_join session_dir (Extract.fileName 0)) cut_stream
              eq_refl eq_refl eq_refl) as (_ & _ & _ & _ & H).
  exact (proj1 (proj2 (H Hcut))).
Defined.

(** C4, as stated, fails: the same bytes, cut inside the two bytes of
    U+00A0, give another event.  In one chunk the value reads as 5000000
    followed by a white space; cut, each half of the character is decoded
    as U+FFFD and the value is no number. *)
Lemma cut_inside_a_character_changes_the_events :
  List.concat padded_line_cut = List.concat padded_line
  /\ Main.progressSent 0
       (Main.sent
          (ex_run (extracting (request_0 ten_seconds))
             (map (Main.Child_stdout 0) padded_line)))
     = [Fin (1 # 2)]
  /\ Main.progressSent 0
       (Main.sent
          (ex_run (extracting (request_0 ten_seconds))
             (map (Main.Child_stdout 0) padded_line_cut)))
     = [NaN].
Proof. repeat split. Qed.

(** Without a duration a progress line sends nothing. *)
Lemma no_duration_no_event :
  nth_error (Main.children (extracting (request_0 None))) 0
    = Some (encoder_0 (request_0 None))
  /\ Extract.duration_known (request_0 None) = false
  /\ Main.sent
       (ex_run (extracting (request_0 None))
          (map (Main.Child_stdout 0)
             [Buffer_from (line "out_time_ms=5000000")]))
     = Main.sent (extracting (request_0 None)).
Proof.
  split; [reflexivity|split; [reflexivity|]].
  destruct (no_progress_without_duration
              (Some "/opt/ffmpeg") (Some "/opt/ffprobe") "/tmp" posix_join
              (parse_only "null" VNull)
              (extracting (request_0 None)) 0 (encoder_0 (request_0 None))
              (request_0 None) (posix_join session_dir (Extract.fileName 0))
              "" [Buffer_from (line "out_time_ms=5000000")]
              eq_refl eq_refl eq_refl)
    as (_ & _ & H & _).
  exact H.
Defined.

(** Track 0 is extracted to [track_0.wav] in the session directory; exit
    code 0 answers with that path, exit code 1 with the stderr text. *)
Lemma extraction_of_track_0 :
  gives_directory (asked (request_0 ten_seconds))
    (Main.Mkdtemp_settled 0 (Normal session_dir))
    (request_0 ten_seconds) session_dir
  /\ goes_on 0 meanwhile = true
  /\ Main.replies
       (ex_run (extracting (request_0 ten_seconds))
          (meanwhile ++ [Main.Child_close 0 (Some 0%Z)]))
     = [ Normal Main.RVoid; Normal (Main.RExtract response_0) ]
  /\ Main.replies
       (ex_run (extracting (request_0 ten_seconds))
          (meanwhile ++ [Main.Child_close 0 (Some 1%Z)]))
     = [ Normal Main.RVoid;
         Throw (mkError PlainError
                  "ffmpeg exited with code 1. Invalid stream") ].
Proof.
  assert (H1 : gives_directory (asked (request_0 ten_seconds))
                 (Main.Mkdtemp_settled 0 (Normal session_dir))
                 (request_0 ten_seconds) session_dir).
  { split; [reflexivity|]. eexists. split; reflexivity. }
  assert (H2 : goes_on 0 meanwhile = true) by reflexivity.
  split; [exact H1|split; [exact H2|]].
  destruct (extraction_invocation_and_completion
              (Some "/opt/ffmpeg") (Some "/opt/ffprobe") "/tmp" posix_join
              (parse_only "null" VNull) (asked (request_0 ten_seconds))
              (Main.Mkdtemp_settled 0 (Normal session_dir))
              (request_0 ten_seconds) session_dir meanwhile (Some 0%Z) H1 H2)
    as (_ & _ & Hok & _).
  destruct (extraction_invocation_and_completion
              (Some "/opt/ffmpeg") (Some "/opt/ffprobe") "/tmp" posix_join
              (parse_only "null" VNull) (asked (request_0 ten_seconds))
              (Main.Mkdtemp_settled 0 (Normal session_dir))
              (request_0 ten_seconds) session_dir meanwhile (Some 1%Z) H1 H2)
    as (_ & _ & Hko & _).
  split; [exact Hok|exact Hko].
Defined.

(** Rising times over ten seconds give 1/5, 1/2 and, past the end, 1,
    and these are the events sent. *)
Lemma rising_times_rising_progress :
  nth_error (Main.children (extracting (request_0 ten_seconds))) 0
    = Some (encoder_0 (request_0 ten_seconds))
  /\ progress_values (request_0 ten_seconds) "" rising
     = [Fin (1 # 5); Fin (1 # 2); Fin 1]
  /\ Main.progressSent 0
       (Main.sent
          (ex_run (extracting (request_0 ten_seconds))
             (map (Main.Child_stdout 0) rising)))
     = [Fin (1 # 5); Fin (1 # 2); Fin 1]
  /\ Forall in_unit_interval
       (progress_values (request_0 ten_seconds) "" rising)
  /\ nondecreasing (progress_values (request_0 ten_seconds) "" rising).
Proof.
  split; [reflexivity|split; [reflexivity|split; [reflexivity|]]].
  destruct (progress_is_min_of_ratio_and_1
              (Some "/opt/ffmpeg") (Some "/opt/ffprobe") "/tmp" posix_join
              (parse_only "null" VNull)
              (extracting (request_0 ten_seconds)) 0
              (encoder_0 (request_0 ten_seconds)) (request_0 ten_seconds)
              (posix_join session_dir (Extract.fileName 0)) rising
              eq_refl eq_refl)
    as (_ & _ & H & _).
  destruct (H (of_Z 10) eq_refl eq_refl) as [Hunit Hmono].
  split.
  - apply Hunit. vm_compute. repeat constructor; discriminate.
  - apply Hmono; vm_compute; [repeat constructor|repeat split; discriminate].
Defined.

(** C1, as stated, fails: a negative time gives a negative value; times
    that go back give values that go down; an infinite time over an
    infinite duration gives NaN; and a job that exits with 0 after
    reporting half of the duration has sent 1/2 last, not 1. *)
Lemma progress_negative_decreasing_and_not_closed_by_1 :
  progress_values (request_0 ten_seconds) ""
    [Buffer_from (line "out_time_ms=-1000000")] = [Fin (-1 # 10)]
  /\ ~ JS.le (Fin 0) (Fin (-1 # 10))
  /\ progress_values (request_0 ten_seconds) ""
       (map Buffer_from
          [line "out_time_ms=5000000"; line "out_time_ms=2000000"])
     = [Fin (1 # 2); Fin (1 # 5)]
  /\ ~ nondecreasing [Fin (1 # 2); Fin (1 # 5)]
  /\ progress_values (request_0 (Some PosInf)) ""
       [Buffer_from (line "out_time_ms=Infinity")] = [NaN]
  /\ (let st :=
        ex_run Main.ready
          [ Main.Invoke_extractTrack (request_0 ten_seconds);
            Main.Mkdtemp_settled 0 (Normal session_dir);
            Main.Child_stdout 0 (Buffer_from (line "out_time_ms=5000000"));
            Main.Child_close 0 (Some 0%Z) ] in
      Main.replies st = [Normal (Main.RExtract response_0)]
      /\ Main.progressSent 0 (Main.sent st) = [Fin (1 # 2)]).
Proof.
  split; [reflexivity|split; [|split; [reflexivity|split; [|split]]]].
  - intros H. now apply H.
  - intros [H _]. now apply H.
  - reflexivity.
  - split; reflexivity.
Qed.

(* ================================================================== *)
(** ** Further properties of the main process *)
(* ================================================================== *)

Section MainProcess.

Variable ffmpegStatic ffprobeStatic : option string.
Variable os_tmpdir : string.
Variable path_join : string -> string -> string.
Variable JSON_parse : string -> Completion JsVal.

Local Abbreviation step :=
  (Main.step ffmpegStatic ffprobeStatic os_tmpdir path_join JSON_parse).
Local Abbreviation run :=
  (Main.run ffmpegStatic ffprobeStatic os_tmpdir path_join JSON_parse).
Local Abbreviation base := (path_join os_tmpdir "audio-track-selector-").
Local Abbreviation step_child :=
  (step_child ffmpegStatic ffprobeStatic os_tmpdir path_join JSON_parse).

Lemma touched_probe :
  forall pid ev c filePath,
    Main.job c = Main.Ffprobe filePath ->
    Main.out (touched pid ev c) = Main.out c ++ stdout_of pid [ev].
Proof.
  intros pid ev c filePath Hj. unfold stdout_of.
  destruct ev; cbn [touched stdout_chunks texts map whole fold_right];
    rewrite ?append_empty_r; try reflexivity.
  - destruct (pid0 =? pid)%nat;
      cbn [texts map whole fold_right];
      rewrite ?Hj, ?append_empty_r; reflexivity.
  - destruct (pid0 =? pid)%nat; reflexivity.
Qed.

(** A prober over a trace that does not end it: its two buffers grow by
    what its stdout and stderr deliver, nothing else of it changes. *)
Lemma run_probe_child :
  forall evs st pid c filePath,
    nth_error (Main.children st) pid = Some c ->
    Main.job c = Main.Ffprobe filePath ->
    goes_on pid evs = true ->
    exists c',
      nth_error (Main.children (run st evs)) pid = Some c'
      /\ Main.job c' = Main.Ffprobe filePath
      /\ Main.settled c' = Main.settled c
      /\ Main.out c' = Main.out c ++ stdout_of pid evs
      /\ Main.err c' = Main.err c ++ stderr_of pid evs.
Proof.
  induction evs as [|ev rest IH]; intros st pid c filePath Hc Hj Hg.
  - exists c. cbn. rewrite !append_empty_r. auto.
  - cbn [goes_on forallb] in Hg. apply andb_true_iff in Hg as [He Hr].
    apply negb_true_iff in He.
    pose proof (step_child st ev pid c Hc He) as Hc1.
    destruct (touched_same pid ev c) as (_ & _ & Hj1 & _ & Hs1).
    pose proof (touched_probe pid ev c filePath Hj) as Ho1.
    pose proof (touched_err pid ev c) as He1.
    rewrite Hj in Hj1.
    destruct (IH (step st ev) pid _ filePath Hc1 Hj1 Hr)
      as (c2 & Hc2 & Hj2 & Hs2 & Ho2 & He2).
    exists c2. split; [exact Hc2|]. split; [exact Hj2|].
    split; [congruence|].
    rewrite stdout_of_cons, stderr_of_cons, Ho2, He2, Ho1, He1.
    now rewrite !append_assoc.
Qed.

(** The event in which a probe goes on from its cleanup spawns the
    prober. *)
Lemma starts_probe_spawns :
  forall st ev filePath,
    starts_probe st ev filePath ->
    Main.children (step st ev)
    = (Main.children st
       ++ [probe_child (Main.getFfprobePath ffprobeStatic) filePath])%list.
Proof.
  intros st ev filePath S.
  destruct ev as [result|f|r| | |id mk|id rm|p data|p data|p code|p e];
    try contradiction; cbn [starts_probe] in S.
  - destruct S as [-> T]. cbn [Main.step]. unfold Main.probeFile.
    rewrite (awaitCleanup_unset ffprobeStatic _ st T).
    cbn [Main.afterCleanup].
    now destruct (grows_runFfprobe ffprobeStatic filePath st).
  - destruct S as (op & Hop & Ha).
    cbn [Main.step]. unfold Main.onRm. rewrite Hop, Ha.
    cbn [Main.afterCleanup].
    match goal with
    | |- context [Main.runFfprobe _ ?f ?s0] =>
        destruct (grows_runFfprobe ffprobeStatic f s0) as [G _ _]
    end.
    rewrite G. f_equal.
    destruct (grows_cleanupTempDir_resumed rm (Main.fsSettled id st))
      as [G1 _ _].
    rewrite G1, app_nil_r.
    now destruct (fsSettled_fields id st) as (_ & _ & _ & F & _).
Qed.

(** X1.  The event in which a probe goes on from its cleanup (the request
    itself when there is no session directory, the answer of [fs.rm]
    otherwise) spawns the prober with the six fixed options and the file
    path.  Whatever happens before that child closes, its close event
    answers the request with what the close handler makes of the exit
    code, of the texts of the stdout chunks put end to end and of the
    texts of the stderr chunks put end to end.  Each chunk is decoded on
    its own: the stdout text is the text of the whole output when no
    chunk ends inside a character. *)
Theorem probe_invocation_and_completion :
  forall (st : Main.State) (ev : Main.Event) (filePath : string)
         (evs : list Main.Event) (code : option Z),
    starts_probe st ev filePath ->
    goes_on (List.length (Main.children st)) evs = true ->
    let pid := List.length (Main.children st) in
    let st1 := step st ev in
    let st2 := run st1 (evs ++ [Main.Child_close pid code]) in
    (exists c,
       Main.children st1 = (Main.children st ++ [c])%list
       /\ Main.command c = Main.getFfprobePath ffprobeStatic
       /\ Main.arguments c =
            [ "-v"; "error"; "-print_format"; "json"; "-show_streams";
              "-show_format"; filePath ])
    /\ Main.replies st2 =
         (Main.replies (run st1 evs)
          ++ [ r <- Probe.onClose JSON_parse filePath code
                      (stdout_of pid evs) (stderr_of pid evs) ;;
               Normal (Main.RProbe r) ])%list
    /\ (cut_between_characters (stdout_chunks pid evs) ->
        stdout_of pid evs = toString (List.concat (stdout_chunks pid evs))).
Proof.
  intros st ev filePath evs code Hs Hg; cbn zeta.
  set (pid := List.length (Main.children st)).
  set (c0 := probe_child (Main.getFfprobePath ffprobeStatic) filePath).
  pose proof (starts_probe_spawns st ev filePath Hs) as Hch. fold c0 in Hch.
  split; [exists c0; repeat split; exact Hch|split].
  - rewrite run_snoc.
    set (st1 := step st ev) in *.
    assert (H0 : nth_error (Main.children st1) pid = Some c0).
    { rewrite Hch. apply nth_error_snoc. }
    destruct (run_probe_child evs st1 pid c0 filePath H0 eq_refl Hg)
      as (c1 & Hc1 & Hj & Hst & Ho & He).
    destruct (onClose_pending JSON_parse (run st1 evs) pid c1 code Hc1 Hst)
      as [Hr _].
    cbn [Main.step]. rewrite Hr. f_equal. f_equal.
    unfold Main.outcome. now rewrite Hj, Ho, He.
  - intros Hcut. now apply toString_concat.
Qed.

Lemma settle_done :
  forall pid r r0 st c,
    nth_error (Main.children st) pid = Some c ->
    Main.settled c = Some r0 ->
    Main.settle pid r st = st.
Proof. intros pid r r0 st c Hc Hs. unfold Main.settle. now rewrite Hc, Hs. Qed.

Lemma settle_pending :
  forall pid r st c,
    nth_error (Main.children st) pid = Some c ->
    Main.settled c = None ->
    Main.replies (Main.settle pid r st) = (Main.replies st ++ [r])%list
    /\ Main.sent (Main.settle pid r st)
       = (Main.sent st
          ++ match r with
             | Normal _ => []
             | Throw e => failure_log st (Main.job c) e
             end)%list
    /\ nth_error (Main.children (Main.settle pid r st)) pid
       = Some (Main.set_settled r c).
Proof.
  intros pid r st c Hc Hs.
  rewrite settle_children. unfold Main.settle. rewrite Hc, Hs.
  rewrite nth_error_update, Nat.eqb_refl, Hc.
  destruct r as [v|e]; cbn [Main.reply Main.replies Main.sent].
  - now rewrite app_nil_r.
  - unfold Main.failed. cbn [Main.reply Main.replies Main.sent].
    rewrite replies_logToRenderer, sent_logToRenderer. auto.
Qed.

(** An event aimed at a child whose promise is settled. *)
Lemma step_settled :
  forall st ev pid c r,
    nth_error (Main.children st) pid = Some c ->
    Main.settled c = Some r ->
    exists c',
      nth_error (Main.children (step st ev)) pid = Some c'
      /\ Main.settled c' = Some r.
Proof.
  intros st ev pid c r Hc Hs.
  destruct (ends pid ev) eqn:He.
  - destruct ev; try discriminate; cbn [ends] in He;
      apply Nat.eqb_eq in He; subst pid0; cbn [Main.step].
    + unfold Main.onClose. rewrite Hc.
      set (st1 := Main.set_children _ st).
      assert (H1 : nth_error (Main.children st1) pid
                   = Some (Main.set_closed c)).
      { unfold st1. cbn [Main.set_children Main.children].
        now rewrite nth_error_update, Nat.eqb_refl, Hc. }
      rewrite (settle_done pid _ r st1 _ H1 Hs).
      eexists; split; [exact H1|exact Hs].
    + unfold Main.onError. rewrite (settle_done pid _ r st c Hc Hs).
      now exists c.
  - exists (touched pid ev c). split; [now apply step_child|].
    destruct (touched_same pid ev c) as (_ & _ & _ & _ & H). congruence.
Qed.

Lemma ended_again :
  forall st ev pid c r,
    nth_error (Main.children st) pid = Some c ->
    Main.settled c = Some r ->
    ends pid ev = true ->
    Main.replies (step st ev) = Main.replies st
    /\ Main.sent (step st ev) = Main.sent st.
Proof.
  intros st ev pid c r Hc Hs He.
  destruct ev; try discriminate; cbn [ends] in He;
    apply Nat.eqb_eq in He; subst pid0; cbn [Main.step].
  - unfold Main.onClose. rewrite Hc.
    set (st1 := Main.set_children _ st).
    assert (H1 : nth_error (Main.children st1) pid
                 = Some (Main.set_closed c)).
    { unfold st1. cbn [Main.set_children Main.children].
      now rewrite nth_error_update, Nat.eqb_refl, Hc. }
    rewrite (settle_done pid _ r st1 _ H1 Hs). auto.
  - unfold Main.onError. rewrite (settle_done pid _ r st c Hc Hs). auto.
Qed.

(** X2.  A promise is settled once.  Once a child's promise is settled,
    no later event changes what it was settled with, and a close or error
    event of that child neither answers the renderer again nor logs. *)
Theorem promise_settled_once :
  forall (st : Main.State) (pid : nat) (c : Main.Child)
         (r : Completion Main.IpcValue),
    nth_error (Main.children st) pid = Some c ->
    Main.settled c = Some r ->
    (forall evs, exists c',
        nth_error (Main.children (run st evs)) pid = Some c'
        /\ Main.settled c' = Some r)
    /\ (forall ev, ends pid ev = true ->
          Main.replies (step st ev) = Main.replies st
          /\ Main.sent (step st ev) = Main.sent st).
Proof.
  intros st pid c r Hc Hs. split.
  - intros evs. revert st c Hc Hs.
    induction evs as [|ev rest IH]; intros st c Hc Hs.
    + now exists c.
    + destruct (step_settled st ev pid c r Hc Hs) as (c1 & Hc1 & Hs1).
      exact (IH (step st ev) c1 Hc1 Hs1).
  - intros ev He. exact (ended_again st ev pid c r Hc Hs He).
Qed.

(** X3.  The error event of a child whose promise is pending (the binary
    could not be started) rejects the request with that error and logs it
    as a failed probe or extraction; the close event that follows adds
    nothing. *)
Theorem child_error_rejects :
  forall (st : Main.State) (pid : nat) (c : Main.Child) (e : JsError)
         (code : option Z),
    nth_error (Main.children st) pid = Some c ->
    Main.settled c = None ->
    let st1 := step st (Main.Child_error pid e) in
    Main.replies st1 = (Main.replies st ++ [Throw e])%list
    /\ Main.sent st1 = (Main.sent st ++ failure_log st (Main.job c) e)%list
    /\ Main.replies (step st1 (Main.Child_close pid code)) = Main.replies st1
    /\ Main.sent (step st1 (Main.Child_close pid code)) = Main.sent st1.
Proof.
  intros st pid c e code Hc Hs; cbn zeta.
  destruct (settle_pending pid (Throw e) st c Hc Hs) as (Hr & Hl & Hn).
  change (step st (Main.Child_error pid e)) with (Main.settle pid (Throw e) st).
  split; [exact Hr|split; [exact Hl|]].
  apply (ended_again _ (Main.Child_close pid code) pid _ (Throw e) Hn);
    [reflexivity|].
  cbn [ends]. apply Nat.eqb_refl.
Qed.

(** X4.  A request that finds no session directory asks [fs.mkdtemp] for
    one and waits.  When [fs.mkdtemp] fails, the request is rejected with
    its error, which is logged as a failed extraction; no encoder is
    spawned, no directory is recorded and the call is over, so the next
    request that finds no directory asks again. *)
Theorem mkdtemp_failure_rejects :
  forall (st : Main.State) (id : nat) (op : Main.FsOp)
         (request : ExtractTrackRequest) (e : JsError),
    Main.pendingOp id st = Some op ->
    Main.awaiting op = Main.InEnsureTempDir request ->
    let st' := step st (Main.Mkdtemp_settled id (Throw e)) in
    Main.children st' = Main.children st
    /\ Main.replies st' = (Main.replies st ++ [Throw e])%list
    /\ Main.sent st' =
         (Main.sent st
          ++ if Main.mainWindow st then
               [ Main.SendLog
                   {| level := error;
                      log_message := "Extraction failed: " ++ message e |} ]
             else [])%list
    /\ Main.fsCalls st' = Main.fsCalls st
    /\ Main.tempDir st' = Main.tempDir st
    /\ Main.pendingOp id st' = None
    /\ (forall (st0 : Main.State) (r : ExtractTrackRequest),
          Main.tempDir_set st0 = None ->
          let st0' := step st0 (Main.Invoke_extractTrack r) in
          Main.fsCalls st0' = (Main.fsCalls st0 ++ [Main.Mkdtemp base])%list
          /\ Main.children st0' = Main.children st0
          /\ Main.pendingOp (List.length (Main.fsOps st0)) st0'
             = Some (mkdtemp_for base r)).
Proof.
  intros st id op request e Hop Ha; cbn zeta.
  split; [|split; [|split; [|split; [|split; [|split]]]]].
  1-6: cbn [Main.step]; unfold Main.onMkdtemp; rewrite Hop, Ha;
    unfold Main.extractTrack_resumed, Main.ensureTempDir_resumed, Main.failed;
    destruct (fsSettled_fields id st) as (F0 & F1 & F2 & F3 & F4 & F5).
  - cbn [Main.reply Main.children]. now rewrite children_logToRenderer.
  - cbn [Main.reply Main.replies]. now rewrite replies_logToRenderer, F5.
  - cbn [Main.reply Main.sent]. now rewrite sent_logToRenderer, F4, F2.
  - unfold Main.fsCalls in *. cbn [Main.reply Main.fsOps].
    now rewrite fsOps_logToRenderer.
  - cbn [Main.reply Main.tempDir]. now rewrite tempDir_logToRenderer.
  - unfold Main.pendingOp. cbn [Main.reply Main.fsOps].
    rewrite fsOps_logToRenderer. unfold Main.fsSettled.
    cbn [Main.set_fsOps Main.fsOps].
    rewrite nth_error_update, Nat.eqb_refl.
    apply pendingOp_Some in Hop as [Hn _]. now rewrite Hn.
  - intros st0 r T; cbn zeta. cbn [Main.step].
    rewrite (extractTrack_unset ffmpegStatic os_tmpdir path_join r st0 T).
    split; [|split; [reflexivity|apply pendingOp_call_fs]].
    unfold Main.fsCalls, Main.call_fs. cbn [Main.set_fsOps Main.fsOps].
    now rewrite map_app.
Qed.

(** An event that is no occasion and settles no call of [fs] leaves the
    directory that is set and makes no call of [fs]. *)
Lemma step_keeps_dir :
  forall st ev d,
    Main.tempDir_set st = Some d ->
    is_occasion ev = false ->
    is_settlement ev = false ->
    Main.tempDir (step st ev) = Main.tempDir st
    /\ Main.fsOps (step st ev) = Main.fsOps st.
Proof.
  intros st ev d Hd Ho Hs.
  destruct (fsOps_step ffmpegStatic ffprobeStatic os_tmpdir path_join
              JSON_parse st ev Hs) as [H1 H2].
  split; [exact H2|]. rewrite H1.
  destruct ev; try discriminate; cbn [asks]; rewrite ?Hd; apply app_nil_r.
Qed.

(** X5.  While the session directory is set, and as long as no probe,
    cleanup or quit is asked and no call of [fs] settles, the directory
    and the calls of [fs] stay as they are, and every request spawns its
    encoder at once into that directory.  A request made before the
    directory was set waits for its own [fs.mkdtemp]: when that settles,
    its encoder writes into the directory it has answered, which replaces
    the session directory. *)
Theorem session_directory_until_fs_settles :
  forall (st : Main.State) (d : string) (evs : list Main.Event),
    Main.tempDir_set st = Some d ->
    undisturbed evs = true ->
    let st' := run st evs in
    Main.tempDir st' = Main.tempDir st
    /\ Main.fsOps st' = Main.fsOps st
    /\ (forall request : ExtractTrackRequest,
          let st'' := step st' (Main.Invoke_extractTrack request) in
          Main.fsOps st'' = Main.fsOps st'
          /\ exists c,
               Main.children st'' = (Main.children st' ++ [c])%list
               /\ Main.job c
                  = Main.Ffmpeg request
                      (path_join d (Extract.fileName (req_audioIndex request))))
    /\ (forall (id : nat) (op : Main.FsOp) (request : ExtractTrackRequest)
               (d' : string),
          Main.pendingOp id st' = Some op ->
          Main.awaiting op = Main.InEnsureTempDir request ->
          let st'' := step st' (Main.Mkdtemp_settled id (Normal d')) in
          Main.tempDir st'' = Some d'
          /\ exists c,
               Main.children st'' = (Main.children st' ++ [c])%list
               /\ Main.job c
                  = Main.Ffmpeg request
                      (path_join d'
                         (Extract.fileName (req_audioIndex request)))).
Proof.
  intros st d evs Hd Hevs; cbn zeta.
  assert (H : Main.tempDir (run st evs) = Main.tempDir st
              /\ Main.fsOps (run st evs) = Main.fsOps st).
  { revert st Hd. induction evs as [|ev rest IH]; intros st Hd; [auto|].
    cbn [undisturbed forallb] in Hevs.
    apply andb_true_iff in Hevs as [Ho Hr].
    apply andb_true_iff in Ho as [Ho Hs].
    apply negb_true_iff in Ho, Hs.
    destruct (step_keeps_dir st ev d Hd Ho Hs) as [Ht Hf].
    assert (Hd1 : Main.tempDir_set (step st ev) = Some d).
    { rewrite <- Hd. now apply tempDir_set_eq. }
    destruct (IH Hr (step st ev) Hd1) as [Ht' Hf'].
    change (run st (ev :: rest)) with (run (step st ev) rest).
    split; [now rewrite Ht'|now rewrite Hf']. }
  destruct H as [Ht Hf]. split; [exact Ht|split; [exact Hf|split]].
  - intros request; cbn zeta.
    assert (Hd' : Main.tempDir_set (run st evs) = Some d).
    { rewrite <- Hd. now apply tempDir_set_eq. }
    assert (G : gives_directory (run st evs)
                  (Main.Invoke_extractTrack request) request d)
      by (split; [reflexivity|exact Hd']).
    destruct (gives_directory_spawns ffmpegStatic ffprobeStatic os_tmpdir
                path_join JSON_parse _ _ _ _ G) as (Hc & _).
    split.
    + destruct (step_keeps_dir (run st evs) (Main.Invoke_extractTrack request)
                  d Hd' eq_refl eq_refl) as [_ H]. exact H.
    + eexists. split; [exact Hc|reflexivity].
  - intros id op request d' Hop Ha; cbn zeta.
    assert (G : gives_directory (run st evs)
                  (Main.Mkdtemp_settled id (Normal d')) request d').
    { split; [reflexivity|]. now exists op. }
    destruct (gives_directory_spawns ffmpegStatic ffprobeStatic os_tmpdir
                path_join JSON_parse _ _ _ _ G) as (Hc & Htd & _).
    split; [exact Htd|]. eexists. split; [exact Hc|reflexivity].
Qed.

End MainProcess.

(* ================================================================== *)
(** ** Further properties of the extraction coordinator *)
(* ================================================================== *)

Lemma to_uint_not_Nil : forall n, Nat.to_uint n <> Decimal.Nil.
Proof.
  intros n.
  rewrite <- (DecimalNat.Unsigned.of_to n) at 1.
  rewrite DecimalNat.Unsigned.to_of. apply DecimalFacts.unorm_nonnil.
Qed.

Lemma string_of_nat_inj :
  forall i j, string_of_nat i = string_of_nat j -> i = j.
Proof.
  intros i j H. unfold string_of_nat in H.
  apply DecimalNat.Unsigned.to_uint_inj.
  assert (Hi := NilZero.usu _ (to_uint_not_Nil i)).
  assert (Hj := NilZero.usu _ (to_uint_not_Nil j)).
  rewrite H in Hi. congruence.
Qed.

Lemma length_append :
  forall a b : string,
    String.length (a ++ b) = (String.length a + String.length b)%nat.
Proof. induction a as [|c a IH]; intros b; simpl; [reflexivity|now rewrite IH]. Qed.

Lemma append_same_end :
  forall t a b : string, a ++ t = b ++ t -> a = b.
Proof.
  intros t; induction a as [|x a IH]; intros [|y b] H.
  - reflexivity.
  - apply (f_equal String.length) in H. cbn [String.append] in H.
    simpl in H. rewrite length_append in H. lia.
  - apply (f_equal String.length) in H. cbn [String.append] in H.
    simpl in H. rewrite length_append in H. lia.
  - cbn [String.append] in H. injection H as -> H. f_equal. now apply IH.
Qed.

Lemma append_same_start :
  forall t a b : string, t ++ a = t ++ b -> a = b.
Proof.
  induction t as [|c t IH]; intros a b H; [exact H|].
  cbn [String.append] in H. injection H as H. now apply IH.
Qed.

(** X6.  The output file is named after the track and nothing else: two
    requests get the same file name, or the same stream specifier, exactly
    when they are for the same index. *)
Theorem file_name_determined_by_index :
  forall i j : nat,
    (Extract.fileName i = Extract.fileName j <-> i = j)
    /\ (forall (r1 r2 : ExtractTrackRequest) (p1 p2 : string),
          req_audioIndex r1 = i -> req_audioIndex r2 = j ->
          (nth_error (Extract.args r1 p1) 4
           = nth_error (Extract.args r2 p2) 4 <-> i = j)).
Proof.
  intros i j. split.
  - split; [|now intros ->].
    unfold Extract.fileName. intros H.
    apply append_same_start in H. apply append_same_end in H.
    now apply string_of_nat_inj.
  - intros r1 r2 p1 p2 H1 H2. unfold Extract.args. cbn [nth_error].
    rewrite H1, H2. split; [|now intros ->].
    intros H. injection H as H. now apply string_of_nat_inj.
Qed.

Lemma has_LF_push_front :
  forall c ps,
    Ascii.eqb c LF = false ->
    Forall (fun p => has_LF p = false) ps ->
    Forall (fun p => has_LF p = false) (push_front c ps).
Proof.
  intros c ps Hc H. destruct H as [|p ps' Hp Hps]; cbn [push_front].
  - constructor; [|constructor]. cbn [has_LF]. now rewrite Hc.
  - constructor; [|exact Hps]. cbn [has_LF]. now rewrite Hc, Hp.
Qed.

Lemma split_newline_no_LF :
  forall s, Forall (fun p => has_LF p = false) (split_newline s).
Proof.
  intros s; pattern s; apply split_newline_ind; clear s.
  - repeat constructor.
  - intros rest IH. rewrite split_newline_LF. now constructor.
  - intros c Hc. rewrite split_newline_last_char by exact Hc.
    constructor; [|constructor]. cbn [has_LF]. now rewrite Hc.
  - intros rest IH. rewrite split_newline_CRLF. now constructor.
  - intros c c' rest H1 H2 IH. rewrite split_newline_char by assumption.
    now apply has_LF_push_front.
Qed.

Lemma Forall_removelast :
  forall (A : Type) (P : A -> Prop) l, Forall P l -> Forall P (removelast l).
Proof.
  intros A P l H. induction H as [|x l Hx Hl IH]; [constructor|].
  destruct l; [constructor|]. cbn [removelast] in *. now constructor.
Qed.

Lemma Forall_last :
  forall (A : Type) (P : A -> Prop) l d, P d -> Forall P l -> P (last l d).
Proof.
  intros A P l d Hd H. induction H as [|x l Hx Hl IH]; [exact Hd|].
  destruct l; [exact Hx|exact IH].
Qed.

(** X7.  Whatever the buffer and the chunk, none of the lines the stdout
    handler walks through contains a line feed, and neither does the
    buffer it leaves: what is carried over is always less than a line. *)
Theorem lines_and_carry_hold_no_line_feed :
  forall (request : ExtractTrackRequest) (buffer data : string),
    Forall (fun l => has_LF l = false) (fst (Extract.feed buffer data))
    /\ has_LF (fst (Extract.onData request buffer data)) = false.
Proof.
  intros request buffer data.
  pose proof (split_newline_no_LF (buffer ++ data)) as H.
  split.
  - cbn [Extract.feed fst]. unfold Extract.complete.
    now apply Forall_removelast.
  - unfold Extract.onData, Extract.feed. cbn [fst].
    rewrite carry_last. now apply Forall_last.
Qed.

Lemma split_newline_ends_empty :
  forall s, last (split_newline (s ++ String LF "")) "" = "".
Proof.
  intros s; pattern s; apply split_newline_ind; clear s.
  - reflexivity.
  - intros rest IH. cbn [String.append]. rewrite split_newline_LF.
    now rewrite last_cons by apply split_newline_nonempty.
  - intros c Hc. cbn [String.append].
    destruct (Ascii.eqb c CR) eqn:E.
    + apply Ascii.eqb_eq in E; subst c. reflexivity.
    + rewrite split_newline_char; [reflexivity|exact Hc|now rewrite E].
  - intros rest IH. cbn [String.append]. rewrite split_newline_CRLF.
    now rewrite last_cons by apply split_newline_nonempty.
  - intros c c' rest H1 H2 IH. cbn [String.append] in *.
    rewrite split_newline_char by assumption.
    destruct (split_newline (String c' (rest ++ String LF ""))) as [|p [|q qs]]
      eqn:E.
    + now apply split_newline_nonempty in E.
    + apply split_newline_single in E. cbn [last] in IH. congruence.
    + exact IH.
Qed.

Lemma split_newline_whole :
  forall t, has_LF t = false -> split_newline t = [t].
Proof.
  intros t; pattern t; apply split_newline_ind; clear t.
  - reflexivity.
  - intros rest _ H. cbn [has_LF] in H. rewrite Ascii.eqb_refl in H.
    discriminate.
  - intros c Hc _. now apply split_newline_last_char.
  - intros rest _ H. cbn [has_LF] in H. rewrite Ascii.eqb_refl in H.
    rewrite orb_true_r in H. discriminate.
  - intros c c' rest H1 H2 IH H.
    rewrite split_newline_char by assumption.
    cbn [has_LF] in H. rewrite H1 in H. cbn [orb] in H.
    now rewrite (IH H).
Qed.

(** X8.  The text after the last line feed is not a line yet: it is kept
    as the buffer, whole, and the lines walked through and the progress
    values computed are those of the text up to that line feed. *)
Theorem unterminated_tail_is_carried :
  forall (request : ExtractTrackRequest) (buffer s t : string),
    has_LF t = false ->
    Extract.feed buffer (s ++ String LF t)
    = (fst (Extract.feed buffer (s ++ String LF "")), t)
    /\ Extract.onData request buffer (s ++ String LF t)
       = (t, snd (Extract.onData request buffer (s ++ String LF ""))).
Proof.
  intros request buffer s t Ht.
  assert (H : Extract.feed buffer (s ++ String LF t)
              = (fst (Extract.feed buffer (s ++ String LF "")), t)).
  { change (String LF t) with (String LF "" ++ t).
    rewrite <- append_assoc, feed_app.
    assert (Hc : snd (Extract.feed buffer (s ++ String LF "")) = "").
    { cbn [Extract.feed snd]. rewrite carry_last, <- append_assoc.
      apply split_newline_ends_empty. }
    rewrite Hc. cbn [Extract.feed fst snd String.append].
    rewrite (split_newline_whole t Ht).
    unfold Extract.complete, Extract.carry. cbn [removelast rev app].
    rewrite app_nil_r. f_equal. now destruct t. }
  split; [exact H|].
  unfold Extract.onData. rewrite H.
  now destruct (Extract.feed buffer (s ++ String LF "")).
Qed.

(** X9.  For a positive duration, a reported time that has reached the
    duration (in microseconds), infinity included, gives exactly 1. *)
Theorem progress_is_1_from_the_duration_on :
  forall (request : ExtractTrackRequest) (d : Q) (ms : num),
    req_duration request = Some (Fin d) ->
    (0 < d)%Q ->
    JS.le (mul (Fin d) (of_Z 1000000)) ms ->
    Extract.progress_of request ms = Fin 1.
Proof.
  intros request d ms Hd Hpos Hle.
  destruct (scaled_duration d Hpos) as (D & HD & HDpos).
  unfold Extract.progress_of, Extract.duration_num. rewrite Hd.
  rewrite HD in *.
  assert (Hz := is_zero_pos D HDpos). assert (Hs := Qsgn_pos D HDpos).
  destruct ms as [| | |x]; cbn [JS.le] in Hle; try contradiction;
    cbn [div]; rewrite ?Hz, ?Hs; [reflexivity|].
  unfold fin. cbn [Math_min].
  assert (H1 : (1 <= x / D)%Q).
  { apply Qle_shift_div_l; [exact HDpos|]. now rewrite Qmult_1_l. }
  destruct (Qle_bool (Qred (x / D)) 1) eqn:E; [|reflexivity].
  apply Qle_bool_iff in E. rewrite Qred_correct in E.
  f_equal. change 1%Q with (Qred 1). apply Qred_complete.
  now apply Qle_antisym.
Qed.

(* ================================================================== *)
(** ** What holds in every state the main process reaches *)
(* ================================================================== *)

Section Reachable.

Variable ffmpegStatic ffprobeStatic : option string.
Variable os_tmpdir : string.
Variable path_join : string -> string -> string.
Variable JSON_parse : string -> Completion JsVal.

Local Abbreviation step :=
  (Main.step ffmpegStatic ffprobeStatic os_tmpdir path_join JSON_parse).
Local Abbreviation run :=
  (Main.run ffmpegStatic ffprobeStatic os_tmpdir path_join JSON_parse).
Local Abbreviation well_spawned :=
  (spawned_for_its_job (Main.getFfmpegPath ffmpegStatic)
     (Main.getFfprobePath ffprobeStatic)).
Local Abbreviation spawned_by :=
  (spawns (Main.getFfmpegPath ffmpegStatic) (Main.getFfprobePath ffprobeStatic)
     path_join).

Lemma spawned_update :
  forall cs pid f,
    (forall c, spawned_with (f c) = spawned_with c) ->
    map spawned_with (Main.update pid f cs) = map spawned_with cs.
Proof.
  induction cs as [|c cs IH]; intros [|n] f Hf; cbn [Main.update map];
    try reflexivity.
  - now rewrite Hf.
  - now rewrite IH.
Qed.

Lemma spawned_settle :
  forall pid r st,
    map spawned_with (Main.children (Main.settle pid r st))
    = map spawned_with (Main.children st).
Proof.
  intros pid r st. rewrite settle_children.
  destruct (nth_error (Main.children st) pid) as [c|]; [|reflexivity].
  destruct (Main.settled c); [reflexivity|].
  now apply spawned_update.
Qed.

Lemma spawns_well :
  forall st ev, Forall well_spawned (map spawned_with (spawned_by st ev)).
Proof.
  intros st ev.
  destruct ev as [result|filePath|request| | |id mk|id rm|p data|p data|p code|p e];
    cbn [spawns]; try constructor.
  - destruct (Main.tempDir_set st); repeat constructor.
  - destruct (Main.tempDir_set st); repeat constructor.
  - destruct mk as [d|e]; [|constructor].
    destruct (Main.pendingOp id st) as [op|]; [|constructor].
    destruct (Main.awaiting op); repeat constructor.
  - destruct (Main.pendingOp id st) as [op|]; [|constructor].
    destruct (Main.awaiting op) as [r|[f| |]]; repeat constructor.
Qed.

(** An event leaves the children as they were spawned and adds at most
    one, spawned for its job. *)
Lemma step_spawned :
  forall st ev,
    exists more,
      map spawned_with (Main.children (step st ev))
      = (map spawned_with (Main.children st) ++ more)%list
      /\ Forall well_spawned more.
Proof.
  intros st ev.
  destruct (of_child ev) eqn:C.
  2:{ destruct (step_grows ffmpegStatic ffprobeStatic os_tmpdir path_join
                  JSON_parse st ev C) as (rs & [G _ _]).
      exists (map spawned_with (spawned_by st ev)).
      rewrite G, map_app. split; [reflexivity|apply spawns_well]. }
  exists []. rewrite app_nil_r. split; [|constructor].
  destruct ev as [result|filePath|request| | |id mk|id rm|p data|p data|p code|p e];
    try discriminate; cbn [Main.step].
  - unfold Main.onStdout.
    destruct (nth_error (Main.children st) p) as [cp|]; [|reflexivity].
    destruct (Main.job cp) as [f|request path].
    + cbn [Main.set_children Main.children]. now apply spawned_update.
    + destruct (Extract.onData request (Main.out cp) (toString data))
        as [buffer ps].
      match goal with
      | |- context [Main.sendProgress ?i ?l ?s0] =>
          destruct (sendProgress_frame i l s0) as (_ & H2 & _)
      end.
      rewrite H2. cbn [Main.set_children Main.children].
      now apply spawned_update.
  - unfold Main.onStderr.
    destruct (nth_error (Main.children st) p) as [cp|]; [|reflexivity].
    cbn [Main.set_children Main.children]. now apply spawned_update.
  - unfold Main.onClose.
    destruct (nth_error (Main.children st) p) as [cp|]; [|reflexivity].
    rewrite spawned_settle. cbn [Main.set_children Main.children].
    now apply spawned_update.
  - unfold Main.onError. apply spawned_settle.
Qed.

Lemma computed_at_most_1 :
  forall request lines,
    Forall (fun p => p = NaN \/ JS.le p (Fin 1))
      (Extract.computed request lines).
Proof.
  intros request lines. rewrite computed_out_times.
  destruct (Extract.duration_known request); [|constructor].
  apply Forall_map, Forall_forall. intros ms _. apply Math_min_at_most_1.
Qed.

Lemma logs_sound :
  forall ws logs, Forall is_log logs -> Forall (message_sound ws) logs.
Proof.
  intros ws logs H. eapply Forall_impl; [|exact H].
  intros [e|e] L; [exact I|contradiction].
Qed.

(** What an event sends is accounted for by the children there are. *)
Lemma step_sent :
  forall st ev,
    exists new,
      Main.sent (step st ev) = (Main.sent st ++ new)%list
      /\ Forall (message_sound (map spawned_with (Main.children st))) new.
Proof.
  intros st ev.
  set (ws := map spawned_with (Main.children st)).
  destruct (of_child ev) eqn:C.
  2:{ destruct (step_grows ffmpegStatic ffprobeStatic os_tmpdir path_join
                  JSON_parse st ev C) as (rs & [_ _ (logs & H & L)]).
      exists logs. split; [exact H|now apply logs_sound]. }
  destruct ev as [result|filePath|request| | |id mk|id rm|p data|p data|p code|p e];
    try discriminate; cbn [Main.step].
  - unfold Main.onStdout.
    destruct (nth_error (Main.children st) p) as [cp|] eqn:Hp;
      [|exists []; now rewrite app_nil_r].
    destruct (Main.job cp) as [f|request path] eqn:Hj;
      [exists []; now rewrite app_nil_r|].
    unfold Extract.onData.
    destruct (Extract.feed (Main.out cp) (toString data)) as [lines buffer].
    match goal with
    | |- context [Main.sendProgress ?i ?l ?s0] =>
        destruct (sendProgress_frame i l s0) as (H1 & _)
    end.
    eexists. rewrite H1. cbn [Main.set_children Main.sent Main.mainWindow].
    split; [reflexivity|].
    destruct (Main.mainWindow st); [|constructor].
    unfold progress_messages. apply Forall_map.
    eapply Forall_impl; [|apply (computed_at_most_1 request lines)].
    intros q Hq. cbn [message_sound progress ev_audioIndex].
    split; [exact Hq|].
    exists (Main.command cp), (Main.arguments cp), request, path.
    split; [|reflexivity].
    unfold ws. apply in_map_iff. exists cp.
    split; [unfold spawned_with; now rewrite Hj|].
    eapply nth_error_In; eassumption.
  - exists []. rewrite app_nil_r. split; [|constructor].
    unfold Main.onStderr.
    destruct (nth_error (Main.children st) p); reflexivity.
  - destruct (close_sends_logs ffmpegStatic ffprobeStatic os_tmpdir path_join
                JSON_parse p code st) as (logs & H & L).
    exists logs. split; [exact H|now apply logs_sound].
  - destruct (settle_sends_logs p (Throw e) st) as (logs & H & L).
    exists logs. split; [exact H|now apply logs_sound].
Qed.

Lemma message_sound_more :
  forall ws more m,
    message_sound ws m -> message_sound (ws ++ more) m.
Proof.
  intros ws more [e|e]; cbn [message_sound]; [auto|].
  intros [Hp (cmd & argv & request & path & Hin & Hi)].
  split; [exact Hp|]. exists cmd, argv, request, path.
  split; [|exact Hi]. apply in_or_app. now left.
Qed.

Lemma reached :
  forall evs,
    Forall well_spawned (map spawned_with (Main.children (run Main.ready evs)))
    /\ Forall (message_sound
                 (map spawned_with (Main.children (run Main.ready evs))))
         (Main.sent (run Main.ready evs)).
Proof.
  intros evs. induction evs as [|ev evs IH] using rev_ind.
  - split; constructor.
  - rewrite run_snoc. destruct IH as [IHc IHs].
    destruct (step_spawned (run Main.ready evs) ev) as (more & Hc & Hm).
    destruct (step_sent (run Main.ready evs) ev) as (new & Hs & Hn).
    rewrite Hc, Hs. split.
    + apply Forall_app. now split.
    + apply Forall_app. split.
      * eapply Forall_impl; [|exact IHs]. intros m. apply message_sound_more.
      * eapply Forall_impl; [|exact Hn]. intros m. apply message_sound_more.
Qed.

(** X10.  In every state the main process reaches, each child runs the
    binary of its job with the arguments of its job: the prober with the
    probe options and its file, the encoder with the extraction options,
    its request's file and index, and its output path.  No event changes
    what a child was spawned with. *)
Theorem children_spawned_for_their_jobs :
  forall (evs : list Main.Event) (c : Main.Child),
    In c (Main.children (run Main.ready evs)) ->
    match Main.job c with
    | Main.Ffprobe filePath =>
        Main.command c = Main.getFfprobePath ffprobeStatic
        /\ Main.arguments c = Probe.args filePath
    | Main.Ffmpeg request path =>
        Main.command c = Main.getFfmpegPath ffmpegStatic
        /\ Main.arguments c = Extract.args request path
    end.
Proof.
  intros evs c Hin.
  destruct (reached evs) as [H _].
  rewrite Forall_forall in H.
  specialize (H (spawned_with c) (in_map _ _ _ Hin)).
  unfold spawned_for_its_job, spawned_with in H.
  destruct (Main.job c); exact H.
Qed.

(** X11.  In every state the main process reaches, each progress event it
    has sent carries a value that is at most 1 (or NaN) and the index of
    an encoder it has spawned. *)
Theorem progress_sent_only_for_spawned_encoders :
  forall (evs : list Main.Event) (e : ExtractProgressEvent),
    In (Main.SendProgress e) (Main.sent (run Main.ready evs)) ->
    (progress e = NaN \/ JS.le (progress e) (Fin 1))
    /\ exists c request path,
         In c (Main.children (run Main.ready evs))
         /\ Main.job c = Main.Ffmpeg request path
         /\ req_audioIndex request = ev_audioIndex e.
Proof.
  intros evs e Hin.
  destruct (reached evs) as [_ H].
  rewrite Forall_forall in H. specialize (H _ Hin).
  cbn [message_sound] in H.
  destruct H as [Hp (cmd & argv & request & path & Hw & Hi)].
  split; [exact Hp|].
  apply in_map_iff in Hw as (c & Hc & Hcin).
  exists c, request, path. split; [exact Hcin|split; [|exact Hi]].
  unfold spawned_with in Hc. congruence.
Qed.

End Reachable.

(* ================================================================== *)
(** ** Further properties of the probe and of the track records *)
(* ================================================================== *)

(** X12.  A parsed output without a [streams] array (the key is missing,
    or holds something else, or the output is a bare number or text) is
    not an error: the probe resolves with no track, unless the format's
    duration has no primitive for [Number] to convert, in which case it
    rejects with that TypeError.  Without a [format] object it resolves,
    and the duration and the format names are left unset. *)
Theorem probe_without_streams_has_no_track :
  forall (filePath : string) (parsed : JsVal),
    nullish parsed = false ->
    isArray (field "streams" parsed) = false ->
    (if no_primitive (field "duration" (field "format" parsed))
     then Probe.fromParsed filePath parsed = Throw not_primitive
     else exists r,
            Probe.fromParsed filePath parsed = Normal r
            /\ audioTracks r = []
            /\ Types.filePath r = filePath)
    /\ (nullish (field "format" parsed) = true ->
        exists r,
          Probe.fromParsed filePath parsed = Normal r
          /\ duration r = None /\ formatName r = VUndefined
          /\ formatLongName r = VUndefined).
Proof.
  intros filePath parsed Hp Hs.
  assert (Hd : declared_streams parsed = []).
  { unfold declared_streams.
    destruct (field "streams" parsed); try reflexivity; discriminate. }
  assert (Hf : Probe.fromParsed filePath parsed
    = (duration <- Probe.number_or_undefined
                     (field "duration" (field "format" parsed)) ;;
       Normal {| Types.filePath := filePath;
                 duration := duration;
                 formatName := field "format_name" (field "format" parsed);
                 formatLongName :=
                   field "format_long_name" (field "format" parsed);
                 audioTracks := [] |})).
  { unfold Probe.fromParsed.
    rewrite (get_field parsed "streams" Hp). cbn [bind].
    rewrite streams_of_parsed, Hd. cbn [Probe.scanStreams bind].
    rewrite (get_field parsed "format" Hp). cbn [bind].
    rewrite !get_opt_field. cbn [bind].
    destruct (Probe.number_or_undefined _); reflexivity. }
  split.
  - destruct (no_primitive (field "duration" (field "format" parsed))) eqn:N.
    + now rewrite Hf, (number_or_undefined_throws _ N).
    + rewrite Hf, (number_or_undefined_stored _ N). cbn [bind].
      eexists. repeat split.
  - intros Hn.
    assert (F : field "format" parsed = VUndefined
                \/ field "format" parsed = VNull)
      by (destruct (field "format" parsed); try discriminate; auto).
    rewrite Hf. destruct F as [-> | ->]; cbn; eexists; repeat split.
Qed.

Lemma findTrack_seeded_from :
  forall audio j k,
    Renderer.findTrack k
      (map (fun track =>
              {| Renderer.info := track; Renderer.enabled := false;
                 Renderer.muted := false; Renderer.volume := 100;
                 Renderer.extracting := false; Renderer.progress := Fin 0;
                 Renderer.error := None; Renderer.outputPath := None |})
           (number_from j audio))
    = if (k <? j)%nat then None
      else option_map
             (fun track =>
                {| Renderer.info := track; Renderer.enabled := false;
                   Renderer.muted := false; Renderer.volume := 100;
                   Renderer.extracting := false; Renderer.progress := Fin 0;
                   Renderer.error := None; Renderer.outputPath := None |})
             (nth_error (number_from j audio) (k - j)).
Proof.
  unfold Renderer.findTrack.
  induction audio as [|stream rest IH]; intros j k.
  - cbn [number_from map find].
    destruct (k <? j)%nat; [reflexivity|]. now destruct (k - j)%nat.
  - cbn [number_from map find Renderer.info track_of audioIndex].
    destruct (j =? k)%nat eqn:E.
    + apply Nat.eqb_eq in E; subst k.
      rewrite Nat.ltb_irrefl, Nat.sub_diag. reflexivity.
    + apply Nat.eqb_neq in E. rewrite IH.
      destruct (k <? j)%nat eqn:L.
      * apply Nat.ltb_lt in L.
        assert (H : (k <? S j)%nat = true) by (apply Nat.ltb_lt; lia).
        now rewrite H.
      * apply Nat.ltb_ge in L.
        assert (H : (k <? S j)%nat = false) by (apply Nat.ltb_ge; lia).
        rewrite H. replace (k - j)%nat with (S (k - S j)) by lia.
        reflexivity.
Qed.

(** X13.  The index is the key of a track.  In the records made of a
    probe's result, looking up index k finds the record of the k-th track
    of the result, as [handleOpenFile] made it (disabled, volume 100,
    nothing extracted), and finds nothing when there is no k-th track. *)
Theorem index_finds_the_seeded_track :
  forall (filePath : string) (parsed : JsVal) (r : ProbeResult) (k : nat),
    Probe.fromParsed filePath parsed = Normal r ->
    match nth_error (audioTracks r) k with
    | Some track =>
        audioIndex track = k
        /\ exists t,
             Renderer.findTrack k (Renderer.seedTracks r) = Some t
             /\ seeded track t
    | None => Renderer.findTrack k (Renderer.seedTracks r) = None
    end.
Proof.
  intros filePath parsed r k H.
  destruct (fromParsed_Normal _ _ _ H) as [_ ->].
  unfold Renderer.seedTracks. cbn [walked audioTracks].
  rewrite findTrack_seeded_from. cbn [Nat.ltb Nat.leb]. rewrite Nat.sub_0_r.
  set (audio := filter is_audio (declared_streams parsed)).
  destruct (nth_error (number_from 0 audio) k) as [track|] eqn:E;
    [|reflexivity].
  split.
  - assert (Hk : nth_error (map audioIndex (number_from 0 audio)) k
                 = Some (audioIndex track)) by now apply map_nth_error.
    rewrite audioIndex_number_from in Hk.
    assert (Hlt : (k < List.length (seq 0 (List.length audio)))%nat)
      by (apply nth_error_Some; congruence).
    rewrite length_seq in Hlt.
    apply nth_error_nth with (d := 0%nat) in Hk.
    rewrite seq_nth in Hk by exact Hlt. now rewrite <- Hk.
  - eexists. split; [reflexivity|]. unfold seeded. cbn. repeat split.
Qed.

Lemma mapTrack_same :
  forall i f ts,
    (forall t, Renderer.info (f t) = Renderer.info t) ->
    Forall2 (same_track i) ts (Renderer.mapTrack i f ts).
Proof.
  intros i f ts Hf. unfold Renderer.mapTrack.
  induction ts as [|t ts IH]; cbn [map]; constructor; [|exact IH].
  unfold same_track.
  destruct (audioIndex (Renderer.info t) =? i)%nat eqn:E.
  - split; [apply Hf|]. apply Nat.eqb_eq in E. intros H. contradiction.
  - split; reflexivity.
Qed.

Lemma mapTrack_same_output :
  forall i f ts,
    (forall t, Renderer.info (f t) = Renderer.info t) ->
    (forall t, Renderer.outputPath (f t) = Renderer.outputPath t) ->
    Forall2 (same_track_and_output i) ts (Renderer.mapTrack i f ts).
Proof.
  intros i f ts Hf Ho. unfold Renderer.mapTrack.
  induction ts as [|t ts IH]; cbn [map]; constructor; [|exact IH].
  unfold same_track_and_output, same_track.
  destruct (audioIndex (Renderer.info t) =? i)%nat eqn:E.
  - split; [split; [apply Hf|]|apply Ho].
    apply Nat.eqb_eq in E. intros H. contradiction.
  - repeat split; reflexivity.
Qed.

Lemma mapTrack_mapTrack :
  forall i f g ts,
    (forall t, Renderer.info (f t) = Renderer.info t) ->
    Renderer.mapTrack i g (Renderer.mapTrack i f ts)
    = Renderer.mapTrack i (fun t => g (f t)) ts.
Proof.
  intros i f g ts Hf. unfold Renderer.mapTrack. rewrite map_map.
  apply map_ext. intros t.
  destruct (audioIndex (Renderer.info t) =? i)%nat eqn:E.
  - now rewrite Hf, E.
  - now rewrite E.
Qed.

Lemma Forall2_same :
  forall (A : Type) (R : A -> A -> Prop) l,
    (forall x, R x x) -> Forall2 R l l.
Proof. intros A R l H; induction l; constructor; auto. Qed.

(** X14.  The updates of the track records keep the tracks: enabling or
    disabling, a progress event, a resolved and a rejected extraction
    leave the list as long, each record on its track, and the records of
    the other tracks untouched; only a resolved extraction stores an
    output path, so one that is stored is never cleared by the others.
    None of them touches the file path or the probe result. *)
Theorem track_updates_keep_the_tracks :
  forall (st : Renderer.State) (i : nat) (on : bool)
         (response : ExtractTrackResponse) (e : JsError)
         (ev : ExtractProgressEvent),
    let enabled_st := fst (Renderer.handleEnableTrack i on st) in
    let resolved_st := Renderer.extractResolved i response st in
    let rejected_st := Renderer.extractRejected i e st in
    let progress_st := Renderer.onExtractProgress ev st in
    Forall2 (same_track_and_output i)
      (Renderer.tracks st) (Renderer.tracks enabled_st)
    /\ Forall2 (same_track i) (Renderer.tracks st) (Renderer.tracks resolved_st)
    /\ Forall2 (same_track_and_output i)
         (Renderer.tracks st) (Renderer.tracks rejected_st)
    /\ Forall2 (same_track_and_output (ev_audioIndex ev))
         (Renderer.tracks st) (Renderer.tracks progress_st)
    /\ Forall
         (fun st' =>
            Renderer.filePath st' = Renderer.filePath st
            /\ Renderer.probeResult st' = Renderer.probeResult st)
         [enabled_st; resolved_st; rejected_st; progress_st].
Proof.
  intros st i on response e ev; cbn zeta.
  assert (Hen :
    Forall2 (same_track_and_output i) (Renderer.tracks st)
      (Renderer.tracks (fst (Renderer.handleEnableTrack i on st)))
    /\ Renderer.filePath (fst (Renderer.handleEnableTrack i on st))
       = Renderer.filePath st
    /\ Renderer.probeResult (fst (Renderer.handleEnableTrack i on st))
       = Renderer.probeResult st).
  { unfold Renderer.handleEnableTrack.
    set (f1 := fun track : Renderer.TrackState => _).
    assert (H1 : Forall2 (same_track_and_output i) (Renderer.tracks st)
                   (Renderer.mapTrack i f1 (Renderer.tracks st)))
      by now apply mapTrack_same_output.
    destruct on; cbn [negb fst]; [|now repeat split].
    destruct (Renderer.findTrack i (Renderer.tracks st)) as [target|];
      [|now repeat split].
    destruct (Renderer.filePath st) as [path|] eqn:F; [|now repeat split].
    destruct (truthy_str path); cbn [negb]; [|now repeat split].
    destruct (Renderer.truthy_opt (Renderer.outputPath target));
      [now repeat split|].
    cbn [fst Renderer.set_status Renderer.set_tracks Renderer.tracks
         Renderer.filePath Renderer.probeResult].
    rewrite mapTrack_mapTrack by reflexivity.
    split; [|now split]. now apply mapTrack_same_output. }
  destruct Hen as (He1 & He2 & He3).
  split; [exact He1|].
  split; [now apply mapTrack_same|].
  split; [now apply mapTrack_same_output|].
  split; [now apply mapTrack_same_output|].
  repeat constructor; assumption.
Qed.

(** X15.  A failed extraction is kept on its track and can be tried
    again: the rejection stores the error message on the track, and, the
    track having no output path, enabling it again sends a request for
    the same file and index and clears the error. *)
Theorem rejected_extraction_is_retried :
  forall (st : Renderer.State) (i : nat) (e : JsError)
         (target : Renderer.TrackState) (path : string),
    Renderer.findTrack i (Renderer.tracks st) = Some target ->
    Renderer.truthy_opt (Renderer.outputPath target) = false ->
    Renderer.filePath st = Some path ->
    path <> "" ->
    let failed := Renderer.extractRejected i e st in
    (exists t,
       Renderer.findTrack i (Renderer.tracks failed) = Some t
       /\ Renderer.error t = Some (message e)
       /\ Renderer.extracting t = false)
    /\ Renderer.status failed = Error
    /\ exists st' request,
         Renderer.handleEnableTrack i true failed = (st', Some request)
         /\ req_audioIndex request = i
         /\ req_filePath request = path
         /\ exists t',
              Renderer.findTrack i (Renderer.tracks st') = Some t'
              /\ Renderer.error t' = None
              /\ Renderer.extracting t' = true.
Proof.
  intros st i e target path Hf Ho Hp Hne; cbn zeta.
  assert (Hfail : Renderer.findTrack i
            (Renderer.tracks (Renderer.extractRejected i e st))
          = Some {| Renderer.info := Renderer.info target;
                    Renderer.enabled := Renderer.enabled target;
                    Renderer.muted := Renderer.muted target;
                    Renderer.volume := Renderer.volume target;
                    Renderer.extracting := false;
                    Renderer.progress := Renderer.progress target;
                    Renderer.error := Some (message e);
                    Renderer.outputPath := Renderer.outputPath target |}).
  { unfold Renderer.extractRejected.
    cbn [Renderer.set_status Renderer.set_tracks Renderer.tracks].
    rewrite findTrack_mapTrack by reflexivity. now rewrite Hf. }
  split; [eexists; split; [exact Hfail|split; reflexivity]|].
  split; [reflexivity|].
  unfold Renderer.handleEnableTrack. cbn [negb]. rewrite Hfail.
  cbn [Renderer.extractRejected Renderer.set_status Renderer.set_tracks
       Renderer.filePath Renderer.outputPath].
  rewrite Hp.
  assert (Ht : truthy_str path = true)
    by (destruct path; [now elim Hne|reflexivity]).
  rewrite Ht, Ho. cbn [negb].
  eexists; eexists. split; [reflexivity|].
  split; [reflexivity|split; [reflexivity|]].
  cbn [Renderer.set_status Renderer.set_tracks Renderer.tracks].
  rewrite !findTrack_mapTrack by reflexivity. rewrite Hfail.
  eexists. split; [reflexivity|]. split; reflexivity.
Qed.

(* ================================================================== *)
(** ** Properties of the audio nodes and of the drift correction *)
(* ================================================================== *)

Lemma fold_withNode_idem :
  forall (g : Player.AudioNodeState -> Player.AudioNodeState)
         (l : list Renderer.TrackState) (nodes : Player.Nodes) (i : nat),
    (forall n, g (g n) = g n) ->
    fold_left
      (fun ns track => Player.withNode (audioIndex (Renderer.info track)) g ns)
      l nodes i
    = if existsb (fun track => (audioIndex (Renderer.info track) =? i)%nat) l
      then option_map g (nodes i) else nodes i.
Proof.
  intros g l nodes i Hg. revert nodes.
  induction l as [|t l IH]; intros nodes; [reflexivity|].
  cbn [fold_left existsb]. rewrite IH. unfold Player.withNode.
  rewrite (Nat.eqb_sym i).
  destruct (audioIndex (Renderer.info t) =? i)%nat; cbn [orb].
  - destruct (existsb _ l); [|reflexivity].
    destruct (nodes i); cbn [option_map]; [now rewrite Hg|reflexivity].
  - reflexivity.
Qed.

Lemma gt_abs_zero_drift :
  forall (t : num) (c : Q),
    (0 <= c)%Q -> JSMath.gt (JSMath.Math_abs (JSMath.sub t t)) (Fin c) = false.
Proof.
  intros [| | |x] c Hc; try reflexivity.
  cbn [JSMath.sub JSMath.Math_abs JSMath.gt fin].
  apply negb_false_iff, Qle_bool_iff.
  rewrite Qred_correct, Qred_correct.
  assert (H : (x - x == 0)%Q) by apply Qplus_opp_r.
  rewrite H. exact Hc.
Qed.

Lemma correct_idem :
  forall video rate node,
    Player.correct video rate (Player.correct video rate node)
    = Player.correct video rate node.
Proof.
  intros video rate node. unfold Player.correct.
  destruct (JSMath.gt
              (JSMath.Math_abs
                 (JSMath.sub (Player.currentTime node)
                    (Player.v_currentTime video))) (Fin (1 # 4))) eqn:Hard.
  - cbn [Player.set_playbackRate Player.set_currentTime Player.currentTime].
    rewrite !gt_abs_zero_drift by discriminate. reflexivity.
  - destruct (JSMath.gt
                (JSMath.Math_abs
                   (JSMath.sub (Player.currentTime node)
                      (Player.v_currentTime video))) (Fin (2 # 25))) eqn:Soft;
      cbn [Player.set_playbackRate Player.currentTime];
      rewrite Hard, Soft; reflexivity.
Qed.

Lemma tick_at :
  forall v rate tracks nodes i,
    Player.tick (Some v) rate tracks nodes i
    = if is_enabled i tracks
      then option_map (Player.correct v rate) (nodes i) else nodes i.
Proof.
  intros v rate tracks nodes i. unfold Player.tick, Player.forEachEnabled.
  apply fold_withNode_idem. intros n. apply correct_idem.
Qed.

(** X16.  The drift correction is idempotent and keeps to its nodes.
    While the video stands at the same position a second tick changes
    nothing; a tick touches only the nodes of enabled, extracted tracks,
    never makes or removes a node, never changes a gain or a paused flag,
    and does nothing without a video. *)
Theorem tick_idempotent_and_framed :
  forall (video : option Player.Video) (rate : num)
         (tracks : list Renderer.TrackState) (nodes : Player.Nodes) (i : nat),
    Player.tick video rate tracks (Player.tick video rate tracks nodes) i
    = Player.tick video rate tracks nodes i
    /\ (is_enabled i tracks = false ->
        Player.tick video rate tracks nodes i = nodes i)
    /\ match nodes i, Player.tick video rate tracks nodes i with
       | Some node, Some node' =>
           Player.gain node' = Player.gain node
           /\ Player.paused node' = Player.paused node
       | None, None => True
       | _, _ => False
       end
    /\ Player.tick None rate tracks nodes i = nodes i.
Proof.
  intros video rate tracks nodes i.
  destruct video as [v|]; [|cbn; repeat split; now destruct (nodes i)].
  rewrite !tick_at.
  destruct (is_enabled i tracks).
  - split; [|split; [discriminate|split; [|reflexivity]]].
    + destruct (nodes i); cbn [option_map]; [|reflexivity].
      now rewrite correct_idem.
    + destruct (nodes i) as [node|]; cbn [option_map]; [|exact I].
      unfold Player.correct.
      destruct (JSMath.gt _ (Fin (1 # 4))); [split; reflexivity|].
      destruct (JSMath.gt _ (Fin (2 # 25))); split; reflexivity.
  - repeat split. now destruct (nodes i).
Qed.

(** X17.  Hard resync.  When the node of an enabled track is more than a
    quarter of a second away from the video, the tick puts it at the
    video's position and at the nominal rate, after which it is within
    the 0.08 s band. *)
Theorem tick_hard_resync :
  forall (v : Player.Video) (rate : num) (tracks : list Renderer.TrackState)
         (nodes : Player.Nodes) (i : nat) (node : Player.AudioNodeState),
    is_enabled i tracks = true ->
    nodes i = Some node ->
    JSMath.gt (JSMath.Math_abs (drift_of v node)) (Fin (1 # 4)) = true ->
    exists node',
      Player.tick (Some v) rate tracks nodes i = Some node'
      /\ Player.currentTime node' = Player.v_currentTime v
      /\ Player.playbackRate node' = rate
      /\ JSMath.gt (JSMath.Math_abs (drift_of v node')) (Fin (2 # 25)) = false.
Proof.
  intros v rate tracks nodes i node He Hn Hd.
  rewrite tick_at, He, Hn. cbn [option_map]. eexists. split; [reflexivity|].
  unfold Player.correct. unfold drift_of in Hd. rewrite Hd.
  cbn [Player.set_playbackRate Player.set_currentTime Player.currentTime
       Player.playbackRate].
  repeat split. unfold drift_of. cbn [Player.currentTime].
  now apply gt_abs_zero_drift.
Qed.

(** X18.  Soft correction.  Between 0.08 s and a quarter of a second away
    the tick leaves the position and bends the rate: 0.97 of a positive
    nominal rate, hence below it, when the node is ahead of the video,
    and 1.03 of it, hence above, otherwise. *)
Theorem tick_soft_correction :
  forall (v : Player.Video) (r : Q) (tracks : list Renderer.TrackState)
         (nodes : Player.Nodes) (i : nat) (node : Player.AudioNodeState),
    is_enabled i tracks = true ->
    nodes i = Some node ->
    JSMath.gt (JSMath.Math_abs (drift_of v node)) (Fin (1 # 4)) = false ->
    JSMath.gt (JSMath.Math_abs (drift_of v node)) (Fin (2 # 25)) = true ->
    (0 < r)%Q ->
    exists node',
      Player.tick (Some v) (Fin r) tracks nodes i = Some node'
      /\ Player.currentTime node' = Player.currentTime node
      /\ if JSMath.gt (drift_of v node) (Fin 0)
         then Player.playbackRate node' = mul (Fin r) (Fin (97 # 100))
              /\ JSMath.gt (Fin r) (Player.playbackRate node') = true
         else Player.playbackRate node' = mul (Fin r) (Fin (103 # 100))
              /\ JSMath.gt (Player.playbackRate node') (Fin r) = true.
Proof.
  intros v r tracks nodes i node He Hn Hhard Hsoft Hr.
  rewrite tick_at, He, Hn. cbn [option_map]. eexists. split; [reflexivity|].
  unfold Player.correct. unfold drift_of in *. rewrite Hhard, Hsoft.
  cbn [Player.set_playbackRate Player.currentTime Player.playbackRate].
  split; [reflexivity|].
  destruct (JSMath.gt _ (Fin 0)); (split; [reflexivity|]);
    cbn [mul fin JSMath.gt]; apply negb_true_iff;
    destruct (Qle_bool _ _) eqn:E; try reflexivity;
    apply Qle_bool_iff in E; rewrite Qred_correct in E; exfalso.
  - assert (H : (r * (97 # 100) < r * 1)%Q)
      by (apply Qmult_lt_l; [exact Hr|reflexivity]).
    rewrite Qmult_1_r in H. apply (Qlt_irrefl r).
    eapply Qle_lt_trans; eassumption.
  - assert (H : (r * 1 < r * (103 # 100))%Q)
      by (apply Qmult_lt_l; [exact Hr|reflexivity]).
    rewrite Qmult_1_r in H. apply (Qlt_irrefl r).
    eapply Qlt_le_trans; eassumption.
Qed.

Lemma gt_smaller_threshold :
  forall a, JSMath.gt a (Fin (2 # 25)) = false ->
            JSMath.gt a (Fin (1 # 4)) = false.
Proof.
  intros [| | |x] H; cbn [JSMath.gt] in *; try reflexivity; try discriminate.
  apply negb_false_iff in H. apply negb_false_iff.
  apply Qle_bool_iff in H. apply Qle_bool_iff.
  eapply Qle_trans; [exact H|discriminate].
Qed.

(** X19.  At rest.  Within 0.08 s of the video (or when the distance is
    not a number) the tick leaves the node where it is and sets the
    nominal rate, whatever rate an earlier correction had left. *)
Theorem tick_at_rest :
  forall (v : Player.Video) (rate : num) (tracks : list Renderer.TrackState)
         (nodes : Player.Nodes) (i : nat) (node : Player.AudioNodeState),
    is_enabled i tracks = true ->
    nodes i = Some node ->
    JSMath.gt (JSMath.Math_abs (drift_of v node)) (Fin (2 # 25)) = false ->
    Player.tick (Some v) rate tracks nodes i
    = Some {| Player.currentTime := Player.currentTime node;
              Player.playbackRate := rate;
              Player.paused := Player.paused node;
              Player.gain := Player.gain node |}.
Proof.
  intros v rate tracks nodes i node He Hn Hd.
  rewrite tick_at, He, Hn. cbn [option_map]. f_equal.
  unfold Player.correct. unfold drift_of in Hd.
  now rewrite (gt_smaller_threshold _ Hd), Hd.
Qed.

(** X20.  Aligning the audio with the video and ticking: every node of an
    enabled, extracted track ends at the video's position and at the
    nominal rate, wherever it was and whatever its rate. *)
Theorem sync_then_tick_is_nominal :
  forall (v : Player.Video) (rate : num) (tracks : list Renderer.TrackState)
         (nodes : Player.Nodes) (i : nat) (node : Player.AudioNodeState),
    is_enabled i tracks = true ->
    nodes i = Some node ->
    Player.tick (Some v) rate tracks
      (Player.syncAllAudioToVideo (Some v) tracks nodes) i
    = Some {| Player.currentTime := Player.v_currentTime v;
              Player.playbackRate := rate;
              Player.paused := Player.paused node;
              Player.gain := Player.gain node |}.
Proof.
  intros v rate tracks nodes i node He Hn.
  rewrite tick_at, He.
  unfold Player.syncAllAudioToVideo, Player.forEachEnabled.
  rewrite fold_withNode_idem by reflexivity.
  fold (is_enabled i tracks). rewrite He, Hn. cbn [option_map]. f_equal.
  unfold Player.correct.
  cbn [Player.set_currentTime Player.currentTime].
  now rewrite !gt_abs_zero_drift by discriminate.
Qed.

Lemma index_in_filter :
  forall (p : Renderer.TrackState -> bool) l i,
    In i (map index_of (filter p l)) -> In i (map index_of l).
Proof.
  intros p l i H. apply in_map_iff in H as (t & Ht & Hin).
  apply filter_In in Hin as [Hin _]. apply in_map_iff. now exists t.
Qed.

Lemma NoDup_index_filter :
  forall (p : Renderer.TrackState -> bool) l,
    NoDup (map index_of l) -> NoDup (map index_of (filter p l)).
Proof.
  intros p l. induction l as [|t l IH]; intros H; [constructor|].
  cbn [map] in H. inversion H as [|x xs Hnot Hnd]; subst.
  cbn [filter]. destruct (p t); [|now apply IH].
  cbn [map]. constructor; [|now apply IH].
  intros Hin. apply Hnot. eapply index_in_filter; eassumption.
Qed.

Lemma fold_withNode_unique :
  forall (f : Renderer.TrackState -> Player.AudioNodeState
              -> Player.AudioNodeState)
         (l : list Renderer.TrackState) (nodes : Player.Nodes)
         (track : Renderer.TrackState),
    NoDup (map index_of l) ->
    In track l ->
    fold_left (fun ns t => Player.withNode (index_of t) (f t) ns) l nodes
      (index_of track)
    = option_map (f track) (nodes (index_of track)).
Proof.
  intros f l nodes track. revert nodes.
  induction l as [|t l IH]; intros nodes Hnd Hin; [contradiction|].
  cbn [map] in Hnd. inversion Hnd as [|x xs Hnot Hnd']; subst.
  cbn [fold_left]. destruct Hin as [->|Hin].
  - assert (Hrest : forall ns,
      fold_left (fun ns t => Player.withNode (index_of t) (f t) ns) l ns
        (index_of track) = ns (index_of track)).
    { clear IH Hnd. induction l as [|t l IHl]; intros ns; [reflexivity|].
      cbn [fold_left]. cbn [map] in Hnot, Hnd'.
      inversion Hnd' as [|y ys Hy Hys]; subst.
      rewrite IHl; [|intros H; apply Hnot; now right|exact Hys].
      unfold Player.withNode.
      destruct (index_of track =? index_of t)%nat eqn:E; [|reflexivity].
      apply Nat.eqb_eq in E. exfalso. apply Hnot. now left. }
    rewrite Hrest. unfold Player.withNode. now rewrite Nat.eqb_refl.
  - rewrite IH by assumption. unfold Player.withNode.
    destruct (index_of track =? index_of t)%nat eqn:E; [|reflexivity].
    apply Nat.eqb_eq in E. exfalso. apply Hnot. rewrite <- E.
    now apply in_map.
Qed.

Lemma fold_withNode_other :
  forall (f : Renderer.TrackState -> Player.AudioNodeState
              -> Player.AudioNodeState)
         (l : list Renderer.TrackState) (nodes : Player.Nodes) (i : nat),
    existsb (fun track => (audioIndex (Renderer.info track) =? i)%nat) l
      = false ->
    fold_left (fun ns t => Player.withNode (index_of t) (f t) ns) l nodes i
    = nodes i.
Proof.
  intros f l nodes i. revert nodes.
  induction l as [|t l IH]; intros nodes H; [reflexivity|].
  cbn [existsb] in H. apply orb_false_iff in H as [Ht Hl].
  cbn [fold_left]. rewrite IH by exact Hl.
  unfold Player.withNode, index_of. now rewrite Nat.eqb_sym, Ht.
Qed.

(** X21.  The gain rule.  With one record per index, once the gain effect
    has run the node of every enabled, extracted track has the gain 0 if
    the track is muted and volume/100 otherwise, with its position, rate
    and paused flag as before; the other nodes are as they were. *)
Theorem gains_follow_mute_and_volume :
  forall (tracks : list Renderer.TrackState) (nodes : Player.Nodes)
         (track : Renderer.TrackState),
    NoDup (map index_of tracks) ->
    In track (Player.enabledTracks tracks) ->
    Player.applyGains tracks nodes (index_of track)
    = option_map
        (fun node =>
           {| Player.currentTime := Player.currentTime node;
              Player.playbackRate := Player.playbackRate node;
              Player.paused := Player.paused node;
              Player.gain :=
                if Renderer.muted track then Fin 0
                else div (of_Z (Renderer.volume track)) (of_Z 100) |})
        (nodes (index_of track))
    /\ forall i, is_enabled i tracks = false ->
                 Player.applyGains tracks nodes i = nodes i.
Proof.
  intros tracks nodes track Hnd Hin. split.
  - unfold Player.applyGains, Player.forEachEnabled.
    exact (fold_withNode_unique
             (fun t' => Player.set_gain (Player.gain_of t'))
             (Player.enabledTracks tracks) nodes track
             (NoDup_index_filter _ tracks Hnd) Hin).
  - intros i Hi. unfold Player.applyGains, Player.forEachEnabled.
    exact (fold_withNode_other
             (fun t' => Player.set_gain (Player.gain_of t'))
             (Player.enabledTracks tracks) nodes i Hi).
Qed.

Lemma mapTrack_id :
  forall i f ts, (forall t, f t = t) -> Renderer.mapTrack i f ts = ts.
Proof.
  intros i f ts Hf. unfold Renderer.mapTrack.
  induction ts as [|t ts IH]; [reflexivity|]. cbn [map].
  rewrite IH, Hf. now destruct (_ =? i)%nat.
Qed.

(** X22.  Mute is a toggle on one track.  Toggling twice gives back the
    same records; one toggle flips the muted flag of the track with that
    index and sets its node, if both are there, to the gain of the
    flipped record (0 when it becomes muted, volume/100 when it becomes
    audible); the nodes of the other tracks are not touched. *)
Theorem toggleMute_flips_one_track :
  forall (i : nat) (tracks : list Renderer.TrackState)
         (nodes : Player.Nodes),
    let tracks' := fst (Player.toggleMute i tracks nodes) in
    let nodes' := snd (Player.toggleMute i tracks nodes) in
    fst (Player.toggleMute i tracks' nodes') = tracks
    /\ Forall2 (same_track_and_output i) tracks tracks'
    /\ (forall track node,
          Renderer.findTrack i tracks = Some track ->
          nodes i = Some node ->
          exists track',
            Renderer.findTrack i tracks' = Some track'
            /\ Renderer.muted track' = negb (Renderer.muted track)
            /\ Renderer.volume track' = Renderer.volume track
            /\ nodes' i = Some (Player.set_gain (Player.gain_of track') node))
    /\ forall j, j <> i -> nodes' j = nodes j.
Proof.
  intros i tracks nodes; cbn zeta. unfold Player.toggleMute. cbn [fst snd].
  split; [|split; [|split]].
  - rewrite mapTrack_mapTrack by reflexivity. apply mapTrack_id.
    intros [inf en mu vo ex pr er ou]. cbn. now rewrite negb_involutive.
  - now apply mapTrack_same_output.
  - intros track node Hf Hn.
    rewrite findTrack_mapTrack by reflexivity. rewrite Hf.
    cbn [option_map]. eexists. split; [reflexivity|].
    cbn [Renderer.muted Renderer.volume]. split; [reflexivity|].
    split; [reflexivity|].
    unfold Player.withNode. rewrite Nat.eqb_refl, Hn. reflexivity.
  - intros j Hj.
    destruct (Renderer.findTrack i tracks); [|reflexivity].
    unfold Player.withNode. apply Nat.eqb_neq in Hj. now rewrite Hj.
Qed.


(* ================================================================== *)
(** ** Further worked runs *)
(* ================================================================== *)

(** A prober printing [{}] in two chunks resolves with no track. *)
Lemma probe_of_empty_object :
  starts_probe Main.ready (Main.Invoke_probeFile "/videos/a.mkv")
    "/videos/a.mkv"
  /\ goes_on 0 probe_meanwhile = true
  /\ Main.replies
       (probe_run Main.ready
          (Main.Invoke_probeFile "/videos/a.mkv"
           :: probe_meanwhile ++ [Main.Child_close 0 (Some 0%Z)]))
     = [ Normal (Main.RProbe (walked "/videos/a.mkv" (VObj []))) ].
Proof.
  assert (H0 : starts_probe Main.ready (Main.Invoke_probeFile "/videos/a.mkv")
                 "/videos/a.mkv") by (split; reflexivity).
  assert (H : goes_on 0 probe_meanwhile = true) by reflexivity.
  split; [exact H0|split; [exact H|]].
  destruct (probe_invocation_and_completion
              (Some "/opt/ffmpeg") (Some "/opt/ffprobe") "/tmp" posix_join
              (parse_only "{}" (VObj [])) Main.ready
              (Main.Invoke_probeFile "/videos/a.mkv") "/videos/a.mkv"
              probe_meanwhile (Some 0%Z) H0 H) as (_ & Hr & _).
  exact Hr.
Defined.

(** An encoder that could not be started: the request is rejected once. *)
Lemma failed_spawn_answers_once :
  nth_error (Main.children (extracting (request_0 ten_seconds))) 0
    = Some (encoder_0 (request_0 ten_seconds))
  /\ Main.replies
       (ex_run (extracting (request_0 ten_seconds))
          [ Main.Child_error 0 spawn_error; Main.Child_close 0 None ])
     = [ Throw spawn_error ].
Proof.
  split; [reflexivity|].
  destruct (child_error_rejects
              (Some "/opt/ffmpeg") (Some "/opt/ffprobe") "/tmp" posix_join
              (parse_only "null" VNull)
              (extracting (request_0 ten_seconds)) 0
              (encoder_0 (request_0 ten_seconds)) spawn_error None
              eq_refl eq_refl) as (_ & _ & H & _).
  exact H.
Defined.

(** The settled promise of that encoder stays as it is. *)
Lemma settled_stays_rejected :
  nth_error
    (Main.children
       (ex_step (extracting (request_0 ten_seconds))
          (Main.Child_error 0 spawn_error))) 0
    = Some (Main.set_settled (Throw spawn_error)
              (encoder_0 (request_0 ten_seconds)))
  /\ Main.replies
       (ex_step
          (ex_step (extracting (request_0 ten_seconds))
             (Main.Child_error 0 spawn_error))
          (Main.Child_close 0 (Some 0%Z)))
     = [ Throw spawn_error ].
Proof.
  split; [reflexivity|].
  destruct (promise_settled_once
              (Some "/opt/ffmpeg") (Some "/opt/ffprobe") "/tmp" posix_join
              (parse_only "null" VNull)
              (ex_step (extracting (request_0 ten_seconds))
                 (Main.Child_error 0 spawn_error)) 0
              (Main.set_settled (Throw spawn_error)
                 (encoder_0 (request_0 ten_seconds)))
              (Throw spawn_error) eq_refl eq_refl) as [_ H].
  exact (proj1 (H (Main.Child_close 0 (Some 0%Z)) eq_refl)).
Defined.

(** No session directory can be made: the request is rejected and nothing
    runs. *)
Lemma no_directory_no_encoder :
  Main.pendingOp 0 (asked (request_0 ten_seconds))
    = Some (mkdtemp_for "/tmp/audio-track-selector-" (request_0 ten_seconds))
  /\ Main.children
       (ex_step (asked (request_0 ten_seconds))
          (Main.Mkdtemp_settled 0 (Throw mkdtemp_error))) = []
  /\ Main.replies
       (ex_step (asked (request_0 ten_seconds))
          (Main.Mkdtemp_settled 0 (Throw mkdtemp_error)))
     = [ Throw mkdtemp_error ].
Proof.
  split; [reflexivity|].
  destruct (mkdtemp_failure_rejects
              (Some "/opt/ffmpeg") (Some "/opt/ffprobe") "/tmp" posix_join
              (parse_only "null" VNull) (asked (request_0 ten_seconds)) 0
              (mkdtemp_for "/tmp/audio-track-selector-" (request_0 ten_seconds))
              (request_0 ten_seconds) mkdtemp_error eq_refl eq_refl)
    as (H1 & H2 & _).
  split; [exact H1|exact H2].
Defined.

(** Two tracks enabled one after the other before there is a directory:
    each request makes its own, the second encoder writes into the second
    one, which becomes the session directory, and a cleanup removes that
    one only. *)
Lemma second_directory_replaces_the_first :
  Main.tempDir_set two_waiting = Some session_dir
  /\ undisturbed progress_line = true
  /\ Main.pendingOp 1 (ex_run two_waiting progress_line)
     = Some (mkdtemp_for "/tmp/audio-track-selector-" request_1)
  /\ Main.tempDir
       (ex_step (ex_run two_waiting progress_line)
          (Main.Mkdtemp_settled 1 (Normal other_dir)))
     = Some other_dir
  /\ map Main.job
       (Main.children
          (ex_step (ex_run two_waiting progress_line)
             (Main.Mkdtemp_settled 1 (Normal other_dir))))
     = [ Main.Ffmpeg (request_0 ten_seconds)
           "/tmp/audio-track-selector-Ab3xYz/track_0.wav";
         Main.Ffmpeg request_1 "/tmp/audio-track-selector-Qr7sTu/track_1.wav" ]
  /\ Main.fsCalls
       (ex_run two_waiting
          (progress_line
           ++ [ Main.Mkdtemp_settled 1 (Normal other_dir);
                Main.Invoke_cleanupTemp ]))
     = [ Main.Mkdtemp "/tmp/audio-track-selector-";
         Main.Mkdtemp "/tmp/audio-track-selector-";
         Main.Rm other_dir true true ].
Proof.
  assert (H1 : Main.tempDir_set two_waiting = Some session_dir)
    by reflexivity.
  assert (H2 : undisturbed progress_line = true) by reflexivity.
  assert (H3 : Main.pendingOp 1 (ex_run two_waiting progress_line)
               = Some (mkdtemp_for "/tmp/audio-track-selector-" request_1))
    by reflexivity.
  split; [exact H1|split; [exact H2|split; [exact H3|]]].
  destruct (session_directory_until_fs_settles
              (Some "/opt/ffmpeg") (Some "/opt/ffprobe") "/tmp" posix_join
              (parse_only "null" VNull) two_waiting session_dir
              progress_line H1 H2) as (_ & _ & _ & H).
  destruct (H 1 _ request_1 other_dir H3 eq_refl) as [Ht _].
  split; [exact Ht|split; reflexivity].
Defined.

(** A line and the beginning of the next one. *)
Lemma half_a_key_is_carried :
  has_LF "out_time_" = false
  /\ Extract.onData (request_0 ten_seconds) ""
       ("out_time_ms=5000000" ++ String LF "out_time_")
     = ("out_time_", [Fin (1 # 2)]).
Proof.
  split; [reflexivity|].
  exact (proj2 (unterminated_tail_is_carried (request_0 ten_seconds) ""
                  "out_time_ms=5000000" "out_time_" eq_refl)).
Defined.

(** Twenty seconds reported over a duration of ten. *)
Lemma twenty_of_ten_seconds_is_1 :
  Extract.progress_of (request_0 ten_seconds) (of_Z 20000000) = Fin 1.
Proof.
  apply (progress_is_1_from_the_duration_on (request_0 ten_seconds)
           (inject_Z 10) (of_Z 20000000) eq_refl eq_refl).
  discriminate.
Defined.


(** The encoder of a run and the event it has sent. *)
Lemma encoder_of_a_run :
  Main.command (encoder_0 (request_0 ten_seconds)) = "/opt/ffmpeg"
  /\ Main.arguments (encoder_0 (request_0 ten_seconds))
     = Extract.args (request_0 ten_seconds)
         (posix_join session_dir (Extract.fileName 0)).
Proof.
  exact (children_spawned_for_their_jobs
           (Some "/opt/ffmpeg") (Some "/opt/ffprobe") "/tmp" posix_join
           (parse_only "null" VNull)
           ([ Main.Invoke_extractTrack (request_0 ten_seconds);
              Main.Mkdtemp_settled 0 (Normal session_dir) ] ++ progress_line)
           (encoder_0 (request_0 ten_seconds)) (or_introl eq_refl)).
Defined.

Lemma event_of_a_run :
  (Fin (1 # 2) = NaN \/ JS.le (Fin (1 # 2)) (Fin 1))
  /\ exists c request path,
       In c (Main.children
               (ex_run Main.ready
                  ([ Main.Invoke_extractTrack (request_0 ten_seconds);
                     Main.Mkdtemp_settled 0 (Normal session_dir) ]
                   ++ progress_line)))
       /\ Main.job c = Main.Ffmpeg request path
       /\ req_audioIndex request = 0%nat.
Proof.
  exact (progress_sent_only_for_spawned_encoders
           (Some "/opt/ffmpeg") (Some "/opt/ffprobe") "/tmp" posix_join
           (parse_only "null" VNull)
           ([ Main.Invoke_extractTrack (request_0 ten_seconds);
              Main.Mkdtemp_settled 0 (Normal session_dir) ] ++ progress_line)
           {| ev_audioIndex := 0; progress := Fin (1 # 2) |}
           (or_intror (or_introl eq_refl))).
Defined.

(** An output that is an object without streams. *)
Lemma probe_of_format_only :
  nullish (VObj [ ("format", VObj [ ("duration", VStr "12.5") ]) ]) = false
  /\ (exists r,
        Probe.fromParsed "/videos/a.mkv"
          (VObj [ ("format", VObj [ ("duration", VStr "12.5") ]) ]) = Normal r
        /\ audioTracks r = [] /\ duration r = Some (Fin (25 # 2)))
  /\ Probe.fromParsed "/videos/a.mkv" parsed_duration_object
     = Throw not_primitive.
Proof.
  split; [reflexivity|split].
  - destruct (probe_without_streams_has_no_track "/videos/a.mkv"
                (VObj [ ("format", VObj [ ("duration", VStr "12.5") ]) ])
                eq_refl eq_refl) as [(r & Hr & Ht & _) _].
    exists r. split; [exact Hr|split; [exact Ht|]].
    assert (E : Normal r
                = Normal (walked "/videos/a.mkv"
                    (VObj [ ("format", VObj [ ("duration", VStr "12.5") ]) ])))
      by (rewrite <- Hr; reflexivity).
    injection E as ->. reflexivity.
  - exact (proj1 (probe_without_streams_has_no_track "/videos/a.mkv"
                    parsed_duration_object eq_refl eq_refl)).
Defined.


(** Index 1 finds the record of the stream with native index 5. *)
Lemma index_1_finds_stream_5 :
  Probe.fromParsed "/videos/a.mkv" parsed_2_5_7
    = Normal (walked "/videos/a.mkv" parsed_2_5_7)
  /\ exists t,
       Renderer.findTrack 1
         (Renderer.seedTracks (walked "/videos/a.mkv" parsed_2_5_7)) = Some t
       /\ streamIndex (Renderer.info t) = VNum (of_Z 5).
Proof.
  split; [reflexivity|].
  destruct (index_finds_the_seeded_track "/videos/a.mkv" parsed_2_5_7
              (walked "/videos/a.mkv" parsed_2_5_7) 1 eq_refl)
    as (_ & t & Ht & Hs & _).
  exists t. split; [exact Ht|]. now rewrite Hs.
Defined.

(** Track 0 fails to extract and is enabled again. *)
Lemma failed_track_0_is_retried :
  Renderer.findTrack 0 (Renderer.tracks probed) = Some record_0
  /\ Renderer.filePath probed = Some "/videos/a.mkv"
  /\ exists st' request,
       Renderer.handleEnableTrack 0 true
         (Renderer.extractRejected 0 spawn_error probed)
       = (st', Some request)
       /\ req_audioIndex request = 0%nat
       /\ req_filePath request = "/videos/a.mkv".
Proof.
  split; [reflexivity|split; [reflexivity|]].
  assert (Hne : "/videos/a.mkv" <> "") by discriminate.
  destruct (rejected_extraction_is_retried probed 0 spawn_error record_0
              "/videos/a.mkv" eq_refl eq_refl eq_refl Hne)
    as (_ & _ & st' & request & H & Hi & Hp & _).
  exists st', request. auto.
Defined.

(** The scenario of the video at 10.30 s and the track at 10.00 s. *)
Lemma track_at_10_00_is_put_at_10_30 :
  is_enabled 0 playing = true
  /\ JSMath.gt
       (JSMath.Math_abs (drift_of video_at_10_30 (node_at (1000 # 100) 1)))
       (Fin (1 # 4)) = true
  /\ exists node',
       Player.tick (Some video_at_10_30) (Fin 1) playing
         (only_0 (node_at (1000 # 100) 1)) 0 = Some node'
       /\ Player.currentTime node' = Fin (1030 # 100)
       /\ Player.playbackRate node' = Fin 1.
Proof.
  split; [reflexivity|split; [reflexivity|]].
  destruct (tick_hard_resync video_at_10_30 (Fin 1) playing
              (only_0 (node_at (1000 # 100) 1)) 0 (node_at (1000 # 100) 1)
              eq_refl eq_refl eq_refl) as (node' & H & Ht & Hr & _).
  exists node'. auto.
Defined.

(** A tenth of a second ahead: the rate goes down to 0.97. *)
Lemma track_at_10_40_is_slowed :
  JSMath.gt
    (JSMath.Math_abs (drift_of video_at_10_30 (node_at (1040 # 100) 1)))
    (Fin (2 # 25)) = true
  /\ JSMath.gt (drift_of video_at_10_30 (node_at (1040 # 100) 1)) (Fin 0)
     = true
  /\ exists node',
       Player.tick (Some video_at_10_30) (Fin 1) playing
         (only_0 (node_at (1040 # 100) 1)) 0 = Some node'
       /\ Player.currentTime node' = Fin (1040 # 100)
       /\ Player.playbackRate node' = Fin (97 # 100).
Proof.
  split; [reflexivity|split; [reflexivity|]].
  destruct (tick_soft_correction video_at_10_30 1 playing
              (only_0 (node_at (1040 # 100) 1)) 0 (node_at (1040 # 100) 1)
              eq_refl eq_refl eq_refl eq_refl eq_refl)
    as (node' & H & Ht & Hr & _).
  exists node'. auto.
Defined.

(** Five hundredths away at a bent rate: back to the nominal rate. *)
Lemma track_at_10_35_is_left :
  JSMath.gt
    (JSMath.Math_abs (drift_of video_at_10_30 (node_at (1035 # 100) (97 # 100))))
    (Fin (2 # 25)) = false
  /\ Player.tick (Some video_at_10_30) (Fin 1) playing
       (only_0 (node_at (1035 # 100) (97 # 100))) 0
     = Some (node_at (1035 # 100) 1).
Proof.
  split; [reflexivity|].
  exact (tick_at_rest video_at_10_30 (Fin 1) playing
           (only_0 (node_at (1035 # 100) (97 # 100))) 0
           (node_at (1035 # 100) (97 # 100)) eq_refl eq_refl eq_refl).
Defined.

(** Aligned, then ticked. *)
Lemma aligned_track_ticks_nominal :
  is_enabled 0 playing = true
  /\ Player.tick (Some video_at_10_30) (Fin 1) playing
       (Player.syncAllAudioToVideo (Some video_at_10_30) playing
          (only_0 (node_at 3 (103 # 100)))) 0
     = Some (node_at (1030 # 100) 1).
Proof.
  split; [reflexivity|].
  exact (sync_then_tick_is_nominal video_at_10_30 (Fin 1) playing
           (only_0 (node_at 3 (103 # 100))) 0 (node_at 3 (103 # 100))
           eq_refl eq_refl).
Defined.

Lemma playing_indices_distinct : NoDup (map index_of playing).
Proof.
  repeat constructor; cbn; intuition discriminate.
Defined.

(** Track 0 at volume 100, not muted: its node gets the gain 1. *)
Lemma gain_of_track_0 :
  In playing_0 (Player.enabledTracks playing)
  /\ Player.applyGains playing (only_0 (node_at 3 1)) 0
     = Some {| Player.currentTime := Fin 3; Player.playbackRate := Fin 1;
               Player.paused := false; Player.gain := Fin 1 |}.
Proof.
  assert (H : In playing_0 (Player.enabledTracks playing))
    by (left; reflexivity).
  split; [exact H|].
  exact (proj1 (gains_follow_mute_and_volume playing (only_0 (node_at 3 1))
                  playing_0 playing_indices_distinct H)).
Defined.
